(** * Post and variation store: a shallow embedding of [src/server/services/posts.ts]

    The development follows the service module function by function.  The
    database table [posts] is a finite map from the primary key to the row,
    the module-level constant [emptyHistory] of [posts.ts] is a mutable cell
    of the world (JavaScript objects are shared by reference, and the
    module lives as long as the worker isolate), and every [async] function
    is a computation in a small state-and-exception monad.  Collaborators
    that live outside the service (the LLM, the image generator, the blob
    store, [nanoid], the clock) are answers read from an environment. *)

From stdpp Require Import gmap strings pretty list sorting.
From Stdlib Require Import ZArith Ascii.

(** ** Enumerations of [db/schema.ts] *)

Inductive ImageStyle := AiPhoto | TextCard.
Inductive PostStatus := Draft | Approved | Rejected | Posted.
Inductive ToneOption := Formal | Friendly | Spicy | Minimal.

Global Instance ImageStyle_eq_dec : EqDecision ImageStyle.
Proof. solve_decision. Defined.
Global Instance PostStatus_eq_dec : EqDecision PostStatus.
Proof. solve_decision. Defined.
Global Instance ToneOption_eq_dec : EqDecision ToneOption.
Proof. solve_decision. Defined.

(** ** Dates

    A JavaScript [Date] is its time value, the milliseconds since the epoch.
    [toISOString] is the platform's [Date.prototype.toISOString]: the
    proleptic Gregorian calendar in UTC, four-digit years inside 0..9999 and
    the signed six-digit form outside. *)

Definition Date := Z.

Module DateFormat.
Local Open Scope Z_scope.

Definition digit (n : Z) : ascii := ascii_of_nat (48 + Z.to_nat n).

(** The [width] least significant decimal digits of [n], zero padded. *)
Fixpoint digits (width : nat) (n : Z) : string :=
  match width with
  | O => ""
  | S w => digits w (n / 10) +:+ String (digit (n mod 10)) ""
  end.

(** Days since the epoch to (year, month, day). *)
Definition civil (days : Z) : Z * Z * Z :=
  let z := days + 719468 in
  let era := z / 146097 in
  let doe := z - era * 146097 in
  let yoe := (doe - doe / 1460 + doe / 36524 - doe / 146096) / 365 in
  let doy := doe - (365 * yoe + yoe / 4 - yoe / 100) in
  let mp := (5 * doy + 2) / 153 in
  let d := doy - (153 * mp + 2) / 5 + 1 in
  let m := if mp <? 10 then mp + 3 else mp - 9 in
  let y := yoe + era * 400 + (if m <=? 2 then 1 else 0) in
  (y, m, d).

Definition year (y : Z) : string :=
  if (0 <=? y) && (y <=? 9999) then digits 4 y
  else (if y <? 0 then "-" else "+") +:+ digits 6 (Z.abs y).

Definition toISOString (t : Date) : string :=
  let '(y, m, d) := civil (t / 86400000) in
  let ms := t mod 86400000 in
  year y +:+ "-" +:+ digits 2 m +:+ "-" +:+ digits 2 d +:+ "T"
    +:+ digits 2 (ms / 3600000) +:+ ":" +:+ digits 2 (ms / 60000 mod 60)
    +:+ ":" +:+ digits 2 (ms / 1000 mod 60) +:+ "." +:+ digits 3 (ms mod 1000)
    +:+ "Z".
End DateFormat.

Definition toISOString := DateFormat.toISOString.

(** ** Variation history types of [db/schema.ts] *)

Module TextVariation.
Record t := mk {
  id : string;
  hook : string;
  caption : string;
  hashtags : list string;
  feedback : string;
  tone : option ToneOption;
  createdAt : string;
  accepted : bool;
}.
End TextVariation.

Module ImageVariation.
Record t := mk {
  id : string;
  imagePrompt : string;
  imageUrl : option string;
  imageKey : option string;
  feedback : string;
  createdAt : string;
  accepted : bool;
}.
End ImageVariation.

Global Instance TextVariation_eq_dec : EqDecision TextVariation.t.
Proof. solve_decision. Defined.
Global Instance ImageVariation_eq_dec : EqDecision ImageVariation.t.
Proof. solve_decision. Defined.

(** [interface VariationHistory]: both arrays present. *)
Record VariationHistory := mkHistory {
  textVariations : list TextVariation.t;
  imageVariations : list ImageVariation.t;
}.

(** ** Text columns that hold JSON

    The columns [hashtags] and [history] are SQL text written with
    [JSON.stringify] and read with [JSON.parse].  A text is represented by
    what [JSON.parse] makes of it: either the parse throws [SyntaxError]
    ([NotJson], which keeps the raw text; the empty string is one of these)
    or it yields a value ([JsonOf]).  [JSON.stringify v] is then [JsonOf v],
    since the values stored here are strings, booleans, [null], arrays and
    plain objects, which the two functions carry back and forth exactly. *)

Inductive JsonText (A : Type) :=
| NotJson (raw : string)
| JsonOf (value : A).
Global Arguments NotJson {A} raw.
Global Arguments JsonOf {A} value.

(** JavaScript truthiness of a nullable text: [null] and [""] are falsy. *)
Definition truthy_string (s : string) : bool := negb (bool_decide (s = "")).

Definition truthy_text {A} (col : option (JsonText A)) : bool :=
  match col with
  | None => false
  | Some (NotJson raw) => truthy_string raw
  | Some (JsonOf _) => true
  end.

Definition truthy_opt_string (o : option string) : bool :=
  match o with
  | None => false
  | Some s => truthy_string s
  end.

(** What [JSON.parse(historyStr) as VariationHistory] can be at run time.
    The cast checks nothing, so the value is whatever the text encodes: the
    model covers [null] and objects in which either array may be missing
    (a missing property reads as [undefined]); the arrays that are present
    hold well-typed entries.  A number, a string, a boolean or an array has
    neither property and behaves, in the three functions that read the
    history, as the object without the two arrays. *)
Inductive HistoryValue :=
| JsonNull
| JsonObject (textVariations : option (list TextVariation.t))
             (imageVariations : option (list ImageVariation.t)).

Definition history_value (h : VariationHistory) : HistoryValue :=
  JsonObject (Some (textVariations h)) (Some (imageVariations h)).

(** ** The [posts] table of [db/schema.ts]

    A row as the driver hands it to the service: nullable columns are
    options, the two JSON columns are texts, the two timestamps are [Date]s
    (the column keeps whole seconds; the rounding is not modelled). *)

Module Post.
Record t := mk {
  id : string;
  pillar : string;
  mainIdea : string;
  hook : string;
  caption : string;
  hashtags : option (JsonText (list string));
  imageStyle : ImageStyle;
  imagePrompt : string;
  imageUrl : option string;
  imageKey : option string;
  status : PostStatus;
  batchId : string;
  history : option (JsonText HistoryValue);
  createdBy : option string;
  approvedBy : option string;
  rejectedBy : option string;
  postedBy : option string;
  createdAt : Date;
  updatedAt : Date;
}.
End Post.

Module User.
Record t := mk { id : string; name : string; email : string }.
End User.

(** ** Exceptions, the world and the monad of [async] functions *)

Inductive Exception :=
| Error (message : string)       (* [new Error(message)] *)
| TypeError                      (* member access on [null] or [undefined] *)
| SyntaxError                    (* [JSON.parse] on text that is not JSON *)
| ConstraintError (message : string).  (* the database rejects the statement *)

(** The two errors of the service by the names the specification uses. *)
Definition NotFound : Exception := Error "Post not found".
Definition VariationNotFound : Exception := Error "Variation not found".

Inductive Completion (A : Type) :=
| Returned (a : A)
| Thrown (e : Exception).
Global Arguments Returned {A} a.
Global Arguments Thrown {A} e.

(** The state that outlives a request: the table, and the object bound to
    the module constant [emptyHistory] in [posts.ts] (lines 260-263).  The
    binding is [const], the object it names is not frozen. *)
Record World := mkWorld {
  posts : gmap string Post.t;
  emptyHistory : VariationHistory;
}.

Definition Async (A : Type) : Type := World -> Completion A * World.

Definition ret {A} (a : A) : Async A := fun w => (Returned a, w).

Definition throw {A} (e : Exception) : Async A := fun w => (Thrown e, w).

Definition bind {A B} (c : Async A) (k : A -> Async B) : Async B :=
  fun w =>
    match c w with
    | (Returned a, w') => k a w'
    | (Thrown e, w') => (Thrown e, w')
    end.

(** [try { c } catch (error) { handler }]: what [c] did to the world before
    it threw stays done. *)
Definition try_catch {A} (c : Async A) (handler : Exception -> Async A) : Async A :=
  fun w =>
    match c w with
    | (Returned a, w') => (Returned a, w')
    | (Thrown e, w') => handler e w'
    end.

(** [await] on the promise of a collaborator, whose settlement is given. *)
Definition await {A} (settled : Completion A) : Async A := fun w => (settled, w).

Declare Scope async_scope.
Delimit Scope async_scope with async.
Notation "x <- c ;; k" := (bind c (fun x => k))
  (at level 100, c at next level, right associativity) : async_scope.
Notation "c ;; k" := (bind c (fun _ => k))
  (at level 100, right associativity) : async_scope.
Local Open Scope async_scope.

(** ** Collaborators

    What the service relies on and the repository does not define:
    [nanoid], the clock, the language model behind the three calls of
    [services/llm.ts], the image model and the bucket.  One environment
    describes one invocation: [nanoid k] is what the k-th call of [nanoid()]
    returns during it, [clock k] the k-th [new Date()], and each call to a
    collaborator settles as the environment says. *)

Module GeneratedPost.
Record t := mk {
  pillar : string;
  mainIdea : string;
  hook : string;
  caption : string;
  hashtags : list string;
  imageStyle : ImageStyle;
  imagePrompt : string;
}.
End GeneratedPost.

Module GeneratePostsOptions.
Record t := mk {
  includeTrendResearch : bool;
  customPrompt : option string;
  count : option Z;
}.
End GeneratePostsOptions.

(** An element of [textVariationOutputSchema.variations]; the array has no
    length constraint in the schema. *)
Module TextVariationOutput.
Record t := mk { hook : string; caption : string; hashtags : list string }.
End TextVariationOutput.

Module GenerateTextVariationsInput.
Record t := mk {
  pillar : string;
  mainIdea : string;
  hook : string;
  caption : string;
  hashtags : list string;
  userFeedback : string;
  tone : option ToneOption;
}.
End GenerateTextVariationsInput.

Module GenerateImagePromptInput.
Record t := mk {
  pillar : string;
  mainIdea : string;
  hook : string;
  caption : string;
  imageStyle : ImageStyle;
  imagePrompt : string;
  userFeedback : string;
}.
End GenerateImagePromptInput.

Module ImprovedImagePrompt.
Record t := mk { imagePrompt : string; reasoning : string }.
End ImprovedImagePrompt.

Module UploadedImage.
Record t := mk { url : string; key : string }.
End UploadedImage.

Record Env := mkEnv {
  nanoid : nat -> string;
  clock : nat -> Date;
  generatePostsWithAI : GeneratePostsOptions.t -> Completion (list GeneratedPost.t);
  generateTextVariationsWithAI :
    GenerateTextVariationsInput.t -> Completion (list TextVariationOutput.t);
  generateImprovedImagePrompt :
    GenerateImagePromptInput.t -> Completion ImprovedImagePrompt.t;
  (** [generateImageBuffer({ prompt })]: the image model, by prompt *)
  generateImageBuffer : string -> Completion unit;
  (** [Date.now()] at the time the blob of this name is stored *)
  Date_now : string -> Z;
  (** [env.BUCKET.put(key, ...)] and [env.BUCKET.delete(key)] *)
  BUCKET_put : string -> Completion unit;
  BUCKET_delete : string -> Completion unit;
  CDN_URL : string;
}.

(** ** Images ([services/images.ts], [services/text-card.ts])

    The two producers store a blob under a key made of the time and the post
    id and return the public URL of that key.  What is stored (the picture,
    the SVG text of the card) is not part of the model, whether storing
    succeeds is. *)

(** [uploadBufferToR2(buffer, filename, contentType)]. *)
Definition uploadBufferToR2 (env : Env) (filename : string)
  : Completion UploadedImage.t :=
  let timestamp := Date_now env filename in
  let key := "posts/" +:+ pretty timestamp +:+ "-" +:+ filename in
  match BUCKET_put env key with
  | Thrown e => Thrown e
  | Returned _ => Returned (UploadedImage.mk (CDN_URL env +:+ "/" +:+ key) key)
  end.

(** [generateAndUploadImage(prompt, postId)]. *)
Definition generateAndUploadImage (env : Env) (prompt postId : string)
  : Completion UploadedImage.t :=
  match generateImageBuffer env prompt with
  | Thrown e => Thrown e
  | Returned _ => uploadBufferToR2 env (postId +:+ ".jpg")
  end.

(** [generateTextCard(text, postId)]. *)
Definition generateTextCard (env : Env) (text postId : string)
  : Completion UploadedImage.t :=
  let timestamp := Date_now env postId in
  let key := "posts/" +:+ pretty timestamp +:+ "-" +:+ postId +:+ "-card.svg" in
  match BUCKET_put env key with
  | Thrown e => Thrown e
  | Returned _ =>
      Returned (UploadedImage.mk ("https://cdn-ssm.momwise.ai/" +:+ key) key)
  end.

(** [deleteImageFromR2(key)]. *)
Definition deleteImageFromR2 (env : Env) (key : string) : Completion unit :=
  BUCKET_delete env key.

(** ** Database statements *)

(** One [column: value] of a [.set({...})]. *)
Inductive Assignment :=
| SetHook (v : string)
| SetCaption (v : string)
| SetHashtags (v : option (JsonText (list string)))
| SetImagePrompt (v : string)
| SetImageUrl (v : option string)
| SetImageKey (v : option string)
| SetStatus (v : PostStatus)
| SetHistory (v : option (JsonText HistoryValue))
| SetApprovedBy (v : option string)
| SetRejectedBy (v : option string)
| SetPostedBy (v : option string)
| SetUpdatedAt (v : Date).

Definition assign (p : Post.t) (a : Assignment) : Post.t :=
  let '(Post.mk id pillar mainIdea hook caption hashtags imageStyle imagePrompt
          imageUrl imageKey status batchId history createdBy approvedBy
          rejectedBy postedBy createdAt updatedAt) := p in
  match a with
  | SetHook v =>
      Post.mk id pillar mainIdea v caption hashtags imageStyle imagePrompt
        imageUrl imageKey status batchId history createdBy approvedBy
        rejectedBy postedBy createdAt updatedAt
  | SetCaption v =>
      Post.mk id pillar mainIdea hook v hashtags imageStyle imagePrompt
        imageUrl imageKey status batchId history createdBy approvedBy
        rejectedBy postedBy createdAt updatedAt
  | SetHashtags v =>
      Post.mk id pillar mainIdea hook caption v imageStyle imagePrompt
        imageUrl imageKey status batchId history createdBy approvedBy
        rejectedBy postedBy createdAt updatedAt
  | SetImagePrompt v =>
      Post.mk id pillar mainIdea hook caption hashtags imageStyle v
        imageUrl imageKey status batchId history createdBy approvedBy
        rejectedBy postedBy createdAt updatedAt
  | SetImageUrl v =>
      Post.mk id pillar mainIdea hook caption hashtags imageStyle imagePrompt
        v imageKey status batchId history createdBy approvedBy
        rejectedBy postedBy createdAt updatedAt
  | SetImageKey v =>
      Post.mk id pillar mainIdea hook caption hashtags imageStyle imagePrompt
        imageUrl v status batchId history createdBy approvedBy
        rejectedBy postedBy createdAt updatedAt
  | SetStatus v =>
      Post.mk id pillar mainIdea hook caption hashtags imageStyle imagePrompt
        imageUrl imageKey v batchId history createdBy approvedBy
        rejectedBy postedBy createdAt updatedAt
  | SetHistory v =>
      Post.mk id pillar mainIdea hook caption hashtags imageStyle imagePrompt
        imageUrl imageKey status batchId v createdBy approvedBy
        rejectedBy postedBy createdAt updatedAt
  | SetApprovedBy v =>
      Post.mk id pillar mainIdea hook caption hashtags imageStyle imagePrompt
        imageUrl imageKey status batchId history createdBy v
        rejectedBy postedBy createdAt updatedAt
  | SetRejectedBy v =>
      Post.mk id pillar mainIdea hook caption hashtags imageStyle imagePrompt
        imageUrl imageKey status batchId history createdBy approvedBy
        v postedBy createdAt updatedAt
  | SetPostedBy v =>
      Post.mk id pillar mainIdea hook caption hashtags imageStyle imagePrompt
        imageUrl imageKey status batchId history createdBy approvedBy
        rejectedBy v createdAt updatedAt
  | SetUpdatedAt v =>
      Post.mk id pillar mainIdea hook caption hashtags imageStyle imagePrompt
        imageUrl imageKey status batchId history createdBy approvedBy
        rejectedBy postedBy createdAt v
  end.

(** [db.update(posts).set({...}).where(eq(posts.id, id))]: the row with that
    key, if there is one, takes the assignments; no row, no change.  The
    statement is taken to be carried out: a statement the database rejects
    (the database out of reach, a foreign key without its user) is not part
    of the model, and nothing below is said about a call in which that
    happens. *)
Definition db_update (sets : list Assignment) (id : string) : Async unit :=
  fun w =>
    (Returned tt,
     mkWorld (alter (fun p => foldl assign p sets) id (posts w)) (emptyHistory w)).

(** [db.insert(posts).values(newPost).returning()]: [id] is the primary
    key, a second row with the same key is refused.  The row comes back as
    it was given: that the two timestamp columns keep whole seconds only is
    not modelled. *)
Definition db_insert (newPost : Post.t) : Async Post.t :=
  fun w =>
    match posts w !! Post.id newPost with
    | Some _ => (Thrown (ConstraintError "UNIQUE constraint failed: posts.id"), w)
    | None =>
        (Returned newPost,
         mkWorld (<[Post.id newPost := newPost]> (posts w)) (emptyHistory w))
    end.

(** [db.delete(posts).where(eq(posts.id, id))]. *)
Definition db_delete (id : string) : Async unit :=
  fun w => (Returned tt, mkWorld (delete id (posts w)) (emptyHistory w)).

(** [getPost] (lines 70-83).  The joined user records ([creator],
    [approver], [rejector], [poster]) are left out: a post is its row. *)
Definition getPost (id : string) : Async (option Post.t) :=
  fun w => (Returned (posts w !! id), w).

(** ** [parseHistory] and the object it returns (lines 260-272)

    [parseHistory] returns a reference: to the one object [emptyHistory] of
    the module, or to the object [JSON.parse] has just built.  The callers
    mutate what they get ([push], property assignment), so the model keeps
    the two apart: a mutation through [EmptyHistoryObject] lands in the
    world, a mutation of a [ParsedObject] stays local to the call. *)

Inductive HistoryRef :=
| EmptyHistoryObject
| ParsedObject (v : HistoryValue).

Definition parseHistory (historyStr : option (JsonText HistoryValue)) : HistoryRef :=
  if negb (truthy_text historyStr) then EmptyHistoryObject
  else
    match historyStr with
    | Some (JsonOf v) => ParsedObject v
    | _ => EmptyHistoryObject
    end.

(** The value a reference denotes in a world. *)
Definition view (w : World) (history : HistoryRef) : HistoryValue :=
  match history with
  | EmptyHistoryObject => history_value (emptyHistory w)
  | ParsedObject v => v
  end.

Definition deref (history : HistoryRef) : Async HistoryValue :=
  fun w => (Returned (view w history), w).

(** [history.textVariations] as the receiver of a method call: [TypeError]
    when [history] is [null] or the property is [undefined]. *)
Definition get_textVariations (history : HistoryRef) : Async (list TextVariation.t) :=
  v <- deref history ;;
  match v with
  | JsonObject (Some tvs) _ => ret tvs
  | _ => throw TypeError
  end.

Definition get_imageVariations (history : HistoryRef) : Async (list ImageVariation.t) :=
  v <- deref history ;;
  match v with
  | JsonObject _ (Some ivs) => ret ivs
  | _ => throw TypeError
  end.

(** [history.textVariations = tvs]. *)
Definition set_textVariations (history : HistoryRef) (tvs : list TextVariation.t)
  : Async HistoryRef :=
  match history with
  | EmptyHistoryObject =>
      fun w =>
        (Returned EmptyHistoryObject,
         mkWorld (posts w) (mkHistory tvs (imageVariations (emptyHistory w))))
  | ParsedObject JsonNull => throw TypeError
  | ParsedObject (JsonObject _ ivs) => ret (ParsedObject (JsonObject (Some tvs) ivs))
  end.

(** [history.textVariations.push(...records)]: the array is extended in
    place, so the object keeps its identity. *)
Definition push_textVariations (history : HistoryRef) (records : list TextVariation.t)
  : Async HistoryRef :=
  tvs <- get_textVariations history ;;
  match history with
  | EmptyHistoryObject =>
      fun w =>
        (Returned EmptyHistoryObject,
         mkWorld (posts w) (mkHistory (tvs ++ records) (imageVariations (emptyHistory w))))
  | ParsedObject JsonNull => throw TypeError
  | ParsedObject (JsonObject _ ivs) =>
      ret (ParsedObject (JsonObject (Some (tvs ++ records)) ivs))
  end.

(** [history.imageVariations.push(record)]. *)
Definition push_imageVariations (history : HistoryRef) (record : ImageVariation.t)
  : Async HistoryRef :=
  ivs <- get_imageVariations history ;;
  match history with
  | EmptyHistoryObject =>
      fun w =>
        (Returned EmptyHistoryObject,
         mkWorld (posts w) (mkHistory (textVariations (emptyHistory w)) (ivs ++ [record])))
  | ParsedObject JsonNull => throw TypeError
  | ParsedObject (JsonObject tvs _) =>
      ret (ParsedObject (JsonObject tvs (Some (ivs ++ [record]))))
  end.

(** [JSON.stringify(history)]. *)
Definition stringify (history : HistoryRef) : Async (JsonText HistoryValue) :=
  v <- deref history ;;
  ret (JsonOf v).

(** ** Status changes (lines 176-222) *)

Definition approvePost (env : Env) (id : string) (user : option User.t)
  : Async (option Post.t) :=
  db_update [SetStatus Approved; SetApprovedBy (User.id <$> user);
             SetUpdatedAt (clock env 0)] id ;;
  getPost id.

Definition rejectPost (env : Env) (id : string) (user : option User.t)
  : Async (option Post.t) :=
  db_update [SetStatus Rejected; SetRejectedBy (User.id <$> user);
             SetUpdatedAt (clock env 0)] id ;;
  getPost id.

Definition markPostAsPosted (env : Env) (id : string) (user : option User.t)
  : Async (option Post.t) :=
  db_update [SetStatus Posted; SetPostedBy (User.id <$> user);
             SetUpdatedAt (clock env 0)] id ;;
  getPost id.

(** ** [deletePost] (lines 228-241) *)

Definition deletePost (env : Env) (id : string) : Async unit :=
  post <- getPost id ;;
  match post ≫= Post.imageKey with
  | Some key =>
      if truthy_string key
      then try_catch (await (deleteImageFromR2 env key)) (fun _ => ret tt)
      else ret tt
  | None => ret tt
  end ;;
  db_delete id.

(** ** [createTextVariations] (lines 274-321) *)

Module TextVariationResult.
Record t := mk {
  id : string;
  hook : string;
  caption : string;
  hashtags : list string;
}.
End TextVariationResult.

Module CreateTextVariationsInput.
Record t := mk {
  postId : string;
  feedback : string;
  tone : option ToneOption;
}.
End CreateTextVariationsInput.

(** [post.hashtags ? JSON.parse(post.hashtags) : []]. *)
Definition parse_hashtags (hashtags : option (JsonText (list string)))
  : Async (list string) :=
  if truthy_text hashtags then
    match hashtags with
    | Some (JsonOf tags) => ret tags
    | _ => throw SyntaxError
    end
  else ret [].

(** The record built for the [i]-th generated variation: the [i]-th
    [nanoid()] and the [i]-th [new Date()] of the call. *)
Definition variationRecord (env : Env) (input : CreateTextVariationsInput.t)
    (i : nat) (v : TextVariationOutput.t) : TextVariation.t :=
  TextVariation.mk (nanoid env i)
    (TextVariationOutput.hook v) (TextVariationOutput.caption v)
    (TextVariationOutput.hashtags v)
    (CreateTextVariationsInput.feedback input)
    (CreateTextVariationsInput.tone input)
    (toISOString (clock env i))
    false.

Definition variationResult (r : TextVariation.t) : TextVariationResult.t :=
  TextVariationResult.mk (TextVariation.id r) (TextVariation.hook r)
    (TextVariation.caption r) (TextVariation.hashtags r).

Definition createTextVariations (env : Env) (input : CreateTextVariationsInput.t)
  : Async (list TextVariationResult.t) :=
  let postId := CreateTextVariationsInput.postId input in
  post <- getPost postId ;;
  match post with
  | None => throw NotFound
  | Some post =>
      hashtags <- parse_hashtags (Post.hashtags post) ;;
      variations <- await (generateTextVariationsWithAI env
        (GenerateTextVariationsInput.mk (Post.pillar post) (Post.mainIdea post)
           (Post.hook post) (Post.caption post) hashtags
           (CreateTextVariationsInput.feedback input)
           (CreateTextVariationsInput.tone input))) ;;
      let history := parseHistory (Post.history post) in
      let variationRecords := imap (variationRecord env input) variations in
      history <- push_textVariations history variationRecords ;;
      text <- stringify history ;;
      db_update [SetHistory (Some text);
                 SetUpdatedAt (clock env (length variations))] postId ;;
      ret (variationResult <$> variationRecords)
  end.

(** ** [acceptTextVariation] (lines 323-355) *)

Definition mark_accepted (variationId : string) (v : TextVariation.t) : TextVariation.t :=
  TextVariation.mk (TextVariation.id v) (TextVariation.hook v)
    (TextVariation.caption v) (TextVariation.hashtags v)
    (TextVariation.feedback v) (TextVariation.tone v)
    (TextVariation.createdAt v)
    (bool_decide (TextVariation.id v = variationId)).

Definition acceptTextVariation (env : Env) (postId variationId : string)
  : Async (option Post.t) :=
  post <- getPost postId ;;
  match post with
  | None => throw NotFound
  | Some post =>
      let history := parseHistory (Post.history post) in
      tvs <- get_textVariations history ;;
      match List.find (fun v => bool_decide (TextVariation.id v = variationId)) tvs with
      | None => throw VariationNotFound
      | Some variation =>
          tvs <- get_textVariations history ;;
          history <- set_textVariations history (mark_accepted variationId <$> tvs) ;;
          text <- stringify history ;;
          db_update [SetHook (TextVariation.hook variation);
                     SetCaption (TextVariation.caption variation);
                     SetHashtags (Some (JsonOf (TextVariation.hashtags variation)));
                     SetHistory (Some text);
                     SetUpdatedAt (clock env 0)] postId ;;
          getPost postId
      end
  end.

(** ** [regenerateImage] (lines 366-439) *)

Module RegenerateImageInput.
Record t := mk { postId : string; feedback : string }.
End RegenerateImageInput.

(** The image producer chosen by [imageStyle]; used by [regenerateImage]
    and by the batch generator. *)
Definition produceImage (env : Env) (style : ImageStyle) (prompt postId : string)
  : Async UploadedImage.t :=
  match style with
  | AiPhoto => await (generateAndUploadImage env prompt postId)
  | TextCard => await (generateTextCard env prompt postId)
  end.

(** The entry that archives the image the post has now. *)
Definition archivedImage (env : Env) (post : Post.t) : ImageVariation.t :=
  ImageVariation.mk (nanoid env 0) (Post.imagePrompt post) (Post.imageUrl post)
    (Post.imageKey post) "original" (toISOString (Post.createdAt post)) false.

Definition regenerateImage (env : Env) (input : RegenerateImageInput.t)
  : Async (option Post.t) :=
  let postId := RegenerateImageInput.postId input in
  post <- getPost postId ;;
  match post with
  | None => throw NotFound
  | Some post =>
      improved <- await (generateImprovedImagePrompt env
        (GenerateImagePromptInput.mk (Post.pillar post) (Post.mainIdea post)
           (Post.hook post) (Post.caption post) (Post.imageStyle post)
           (Post.imagePrompt post) (RegenerateImageInput.feedback input))) ;;
      let imagePrompt := ImprovedImagePrompt.imagePrompt improved in
      let history := parseHistory (Post.history post) in
      let archive := truthy_opt_string (Post.imageUrl post) in
      history <- (if archive
                  then push_imageVariations history (archivedImage env post)
                  else ret history) ;;
      uploaded <- produceImage env (Post.imageStyle post) imagePrompt (Post.id post) ;;
      let imageUrl := Some (UploadedImage.url uploaded) in
      let imageKey := Some (UploadedImage.key uploaded) in
      history <- push_imageVariations history
        (ImageVariation.mk (nanoid env (if archive then 1 else 0)) imagePrompt
           imageUrl imageKey (RegenerateImageInput.feedback input)
           (toISOString (clock env 0)) true) ;;
      text <- stringify history ;;
      db_update [SetImagePrompt imagePrompt; SetImageUrl imageUrl;
                 SetImageKey imageKey; SetHistory (Some text);
                 SetUpdatedAt (clock env 1)] postId ;;
      getPost postId
  end.

(** ** [generatePostsBatch] (lines 95-170) *)

Module GeneratePostsBatchOptions.
Record t := mk {
  customPrompt : option string;
  count : option Z;
  createdBy : option User.t;
}.
End GeneratePostsBatchOptions.

Module GenerateBatchResult.
Record t := mk { batchId : string; posts : list Post.t }.
End GenerateBatchResult.

(** The [try]/[catch] around the image of one candidate: the pair
    [(imageUrl, imageKey)], both [null] when the producer throws. *)
Definition candidateImage (env : Env) (content : GeneratedPost.t) (postId : string)
  : Async (option string * option string) :=
  try_catch
    (uploaded <- produceImage env (GeneratedPost.imageStyle content)
                   (GeneratedPost.imagePrompt content) postId ;;
     ret (Some (UploadedImage.url uploaded), Some (UploadedImage.key uploaded)))
    (fun _ => ret (None, None)).

(** The row inserted for a candidate.  Columns the insert does not name
    ([history] and the three actors) take their default, [NULL]. *)
Definition newPost (batchId : string) (now : Date) (createdBy : option string)
    (postId : string) (content : GeneratedPost.t)
    (image : option string * option string) : Post.t :=
  Post.mk postId (GeneratedPost.pillar content) (GeneratedPost.mainIdea content)
    (GeneratedPost.hook content) (GeneratedPost.caption content)
    (Some (JsonOf (GeneratedPost.hashtags content)))
    (GeneratedPost.imageStyle content) (GeneratedPost.imagePrompt content)
    (fst image) (snd image) Draft batchId None createdBy None None None now now.

(** The body of the [for ... of] loop, for the candidate at position [i]:
    [batchId] took the first [nanoid()], so this one takes call [S i]. *)
Definition generateOne (env : Env) (batchId : string) (now : Date)
    (createdBy : option string) (i : nat) (content : GeneratedPost.t) : Async Post.t :=
  let postId := nanoid env (S i) in
  image <- candidateImage env content postId ;;
  db_insert (newPost batchId now createdBy postId content image).

Fixpoint for_of {A B} (body : nat -> A -> Async B) (i : nat) (items : list A)
  : Async (list B) :=
  match items with
  | [] => ret []
  | item :: rest =>
      b <- body i item ;;
      bs <- for_of body (S i) rest ;;
      ret (b :: bs)
  end.

Definition generatePostsBatch (env : Env) (options : option GeneratePostsBatchOptions.t)
  : Async GenerateBatchResult.t :=
  let batchId := nanoid env 0 in
  let now := clock env 0 in
  let customPrompt := options ≫= GeneratePostsBatchOptions.customPrompt in
  generatedContent <- await (generatePostsWithAI env
    (GeneratePostsOptions.mk (negb (truthy_opt_string customPrompt)) customPrompt
       (options ≫= GeneratePostsBatchOptions.count))) ;;
  let createdBy := User.id <$> (options ≫= GeneratePostsBatchOptions.createdBy) in
  createdPosts <- for_of (generateOne env batchId now createdBy) 0 generatedContent ;;
  ret (GenerateBatchResult.mk batchId createdPosts).

(** ** What a client reads: [parsePost] of the server functions

    Every handler of the server-function module returns [parsePost(post)],
    whose [history] is that module's [parseHistory(post.history)]: the same
    lines as in [posts.ts], over an empty object of its own, which nothing
    mutates.  [textVariationsOf] and [imageVariationsOf] are the two arrays
    of that value, empty where there is no such array. *)

Definition route_parseHistory (history : option (JsonText HistoryValue)) : HistoryValue :=
  if negb (truthy_text history) then history_value (mkHistory [] [])
  else
    match history with
    | Some (JsonOf v) => v
    | _ => history_value (mkHistory [] [])
    end.

Definition textVariationsOf (post : Post.t) : list TextVariation.t :=
  match route_parseHistory (Post.history post) with
  | JsonObject (Some tvs) _ => tvs
  | _ => []
  end.

Definition imageVariationsOf (post : Post.t) : list ImageVariation.t :=
  match route_parseHistory (Post.history post) with
  | JsonObject _ (Some ivs) => ivs
  | _ => []
  end.

(** The world of a fresh isolate over a given table. *)
Definition fresh_world (table : gmap string Post.t) : World :=
  mkWorld table (mkHistory [] []).

(** ** Vocabulary for the statements *)

(** The shared object after a call has written through a reference. *)
Definition written_through (history : HistoryRef) (old : VariationHistory)
    (tvs : list TextVariation.t) (ivs : list ImageVariation.t) : VariationHistory :=
  match history with
  | EmptyHistoryObject => mkHistory tvs ivs
  | ParsedObject _ => old
  end.

(** The row [acceptTextVariation] writes. *)
Definition accepted_post (env : Env) (post : Post.t) (variation : TextVariation.t)
    (stored : HistoryValue) : Post.t :=
  foldl assign post
    [SetHook (TextVariation.hook variation);
     SetCaption (TextVariation.caption variation);
     SetHashtags (Some (JsonOf (TextVariation.hashtags variation)));
     SetHistory (Some (JsonOf stored));
     SetUpdatedAt (clock env 0)].

(** The call [createTextVariations] makes to the generation collaborator
    for a post. *)
Definition variationsRequest (input : CreateTextVariationsInput.t) (post : Post.t)
    (hashtags : list string) : GenerateTextVariationsInput.t :=
  GenerateTextVariationsInput.mk (Post.pillar post) (Post.mainIdea post)
    (Post.hook post) (Post.caption post) hashtags
    (CreateTextVariationsInput.feedback input)
    (CreateTextVariationsInput.tone input).

(** The hashtags [createTextVariations] sends along, when reading them does
    not throw. *)
Definition hashtagsOf (post : Post.t) : option (list string) :=
  match Post.hashtags post with
  | None => Some []
  | Some (JsonOf tags) => Some tags
  | Some (NotJson raw) => if truthy_string raw then None else Some []
  end.

(** A call reads the post's own history when the stored text is a JSON
    document, or when the shared empty object has not been written to. *)
Definition reads_own_history (w : World) (post : Post.t) : Prop :=
  match parseHistory (Post.history post) with
  | ParsedObject _ => True
  | EmptyHistoryObject => emptyHistory w = mkHistory [] []
  end.

(** The call [regenerateImage] makes to the prompt-improvement collaborator. *)
Definition promptRequest (input : RegenerateImageInput.t) (post : Post.t)
  : GenerateImagePromptInput.t :=
  GenerateImagePromptInput.mk (Post.pillar post) (Post.mainIdea post)
    (Post.hook post) (Post.caption post) (Post.imageStyle post)
    (Post.imagePrompt post) (RegenerateImageInput.feedback input).

(** How the image producer chosen by the style settles. *)
Definition imageOutcome (env : Env) (style : ImageStyle) (prompt postId : string)
  : Completion UploadedImage.t :=
  match style with
  | AiPhoto => generateAndUploadImage env prompt postId
  | TextCard => generateTextCard env prompt postId
  end.

(** The entry [regenerateImage] appends for the image it has produced. *)
Definition regeneratedImage (env : Env) (input : RegenerateImageInput.t)
    (archive : bool) (imagePrompt : string) (uploaded : UploadedImage.t)
  : ImageVariation.t :=
  ImageVariation.mk (nanoid env (if archive then 1 else 0)) imagePrompt
    (Some (UploadedImage.url uploaded)) (Some (UploadedImage.key uploaded))
    (RegenerateImageInput.feedback input) (toISOString (clock env 0)) true.

(** The row [regenerateImage] writes. *)
Definition regenerated_post (env : Env) (post : Post.t) (imagePrompt : string)
    (uploaded : UploadedImage.t) (stored : HistoryValue) : Post.t :=
  foldl assign post
    [SetImagePrompt imagePrompt;
     SetImageUrl (Some (UploadedImage.url uploaded));
     SetImageKey (Some (UploadedImage.key uploaded));
     SetHistory (Some (JsonOf stored));
     SetUpdatedAt (clock env 1)].

(** The options [generatePostsBatch] passes to the content generator. *)
Definition contentRequest (options : option GeneratePostsBatchOptions.t)
  : GeneratePostsOptions.t :=
  let customPrompt := options ≫= GeneratePostsBatchOptions.customPrompt in
  GeneratePostsOptions.mk (negb (truthy_opt_string customPrompt)) customPrompt
    (options ≫= GeneratePostsBatchOptions.count).

(** The image columns of a candidate's row, from how its producer settled. *)
Definition imageColumns (outcome : Completion UploadedImage.t)
  : option string * option string :=
  match outcome with
  | Returned uploaded =>
      (Some (UploadedImage.url uploaded), Some (UploadedImage.key uploaded))
  | Thrown _ => (None, None)
  end.

(** The row of the batch for the candidate at position [i]. *)
Definition batchPost (env : Env) (options : option GeneratePostsBatchOptions.t)
    (i : nat) (content : GeneratedPost.t) : Post.t :=
  let postId := nanoid env (S i) in
  newPost (nanoid env 0) (clock env 0)
    (User.id <$> (options ≫= GeneratePostsBatchOptions.createdBy)) postId content
    (imageColumns (imageOutcome env (GeneratedPost.imageStyle content)
                     (GeneratedPost.imagePrompt content) postId)).

(** ** A worked scenario

    One isolate, one batch of two posts, then edits.  The collaborators
    answer as the environment [answers] says; ids are a tag and the number
    of the [nanoid()] call, so that no id comes twice. *)

Module Scenario.
Definition alice : User.t := User.mk "user-1" "Alice" "alice@example.com".

Definition lunchbox : GeneratedPost.t :=
  GeneratedPost.mk "meal planning" "lunchboxes in ten minutes"
    "Five lunchboxes, ten minutes" "Mornings are short. Pack the night before."
    ["lunchbox"; "mealprep"] AiPhoto "a bright kitchen counter with five lunchboxes".

Definition bedtime : GeneratedPost.t :=
  GeneratedPost.mk "routines" "bedtime without a fight"
    "Bedtime is a routine, not a fight" "Same three steps, every night."
    ["bedtime"; "toddlers"] TextCard "Bath. Book. Bed.".

Definition three_drafts : list TextVariationOutput.t :=
  [TextVariationOutput.mk "Lunch, sorted" "Pack once, eat all week." ["lunchbox"];
   TextVariationOutput.mk "Ten-minute lunchboxes" "Short mornings, full boxes." ["mealprep"];
   TextVariationOutput.mk "No more lunch panic" "Five boxes before bedtime." ["parenting"]].


Definition answers (tag : string) (now : Date)
    (drafts : list TextVariationOutput.t) (lost_key : option string) : Env :=
  mkEnv
    (fun k => tag +:+ "-" +:+ pretty k)
    (fun k => (now + Z.of_nat k)%Z)
    (fun _ => Returned [lunchbox; bedtime])
    (fun _ => Returned drafts)
    (fun _ => Returned (ImprovedImagePrompt.mk "the same scene in warm light"
                          "applies the feedback"))
    (fun _ => Returned tt)
    (fun _ => now)
    (fun key => if bool_decide (lost_key = Some key)
                then Thrown (Error "bucket unavailable") else Returned tt)
    (fun _ => Thrown (Error "bucket unavailable"))
    "https://cdn.example".

Definition two_posts : option GeneratePostsBatchOptions.t :=
  Some (GeneratePostsBatchOptions.mk None (Some 2%Z) (Some alice)).

(** A new isolate over an empty table. *)
Definition isolate : World := fresh_world ∅.

(** The batch: posts [post-1] (photo) and [post-2] (text card), both with
    an image and with [history] NULL. *)
Definition batch_env : Env := answers "post" 1700000000000%Z three_drafts None.
Definition after_batch : World := snd (generatePostsBatch batch_env two_posts isolate).

(** The same batch when the text card of the second candidate cannot be
    stored. *)
Definition failing_env : Env :=
  answers "post" 1700000000000%Z three_drafts
    (Some "posts/1700000000000-post-2-card.svg").

(** Variations are requested for [post-1]. *)
Definition shorter : CreateTextVariationsInput.t :=
  CreateTextVariationsInput.mk "post-1" "shorter" (Some Minimal).
Definition shorter_env : Env := answers "va" 1700000100000%Z three_drafts None.
Definition after_shorter : World := snd (createTextVariations shorter_env shorter after_batch).

(** Then for [post-2], whose stored history is still NULL. *)
Definition warmer : CreateTextVariationsInput.t :=
  CreateTextVariationsInput.mk "post-2" "warmer" None.
Definition warmer_env : Env := answers "vb" 1700000200000%Z three_drafts None.


(** [post-1] is published after its variations were generated. *)
Definition publish_env : Env := answers "pub" 1700000300000%Z three_drafts None.
Definition after_publish : World :=
  snd (markPostAsPosted publish_env "post-1" (Some alice) after_shorter).

Definition accept_env : Env := answers "acc" 1700000400000%Z three_drafts None.

(** Images are regenerated, first for [post-1], then for [post-2]. *)
Definition brighter : RegenerateImageInput.t := RegenerateImageInput.mk "post-1" "brighter".
Definition bolder : RegenerateImageInput.t := RegenerateImageInput.mk "post-2" "bolder".
Definition brighter_env : Env := answers "ia" 1700000500000%Z three_drafts None.
Definition bolder_env : Env := answers "ib" 1700000600000%Z three_drafts None.
Definition after_brighter : World := snd (regenerateImage brighter_env brighter after_batch).

(** A row whose history text is the JSON document [{}]. *)
Definition bare_object_post : Post.t :=
  Post.mk "post-9" "routines" "bedtime without a fight"
    "Bedtime is a routine, not a fight" "Same three steps, every night."
    (Some (JsonOf ["bedtime"])) TextCard "Bath. Book. Bed." None None Draft
    "batch-9" (Some (JsonOf (JsonObject None None))) None None None None
    1700000000000%Z 1700000000000%Z.
Definition bare_object_world : World := fresh_world {[ "post-9" := bare_object_post ]}.
Definition bare_object_input : CreateTextVariationsInput.t :=
  CreateTextVariationsInput.mk "post-9" "shorter" None.

(** The second of the three variations generated for [post-1]. *)
Definition second_draft : TextVariation.t :=
  TextVariation.mk "va-1" "Ten-minute lunchboxes" "Short mornings, full boxes."
    ["mealprep"] "shorter" (Some Minimal) "2023-11-14T22:15:00.001Z" false.
End Scenario.

(** ** Requests, and the worlds an isolate can be in

    The server functions of the route module call the service once per
    request.  The reachable worlds start with a new isolate over an empty
    table; a request leads to the next world, [nanoid] returning ids it has
    not returned before; and a new isolate, with a new module instance, may
    take over the table at any time. *)

Inductive Request :=
| GeneratePostsBatch (options : option GeneratePostsBatchOptions.t)
| ApprovePost (id : string) (user : option User.t)
| RejectPost (id : string) (user : option User.t)
| MarkPostAsPosted (id : string) (user : option User.t)
| DeletePost (id : string)
| CreateTextVariations (input : CreateTextVariationsInput.t)
| AcceptTextVariation (postId variationId : string)
| RegenerateImage (input : RegenerateImageInput.t).

Definition handle (env : Env) (request : Request) (w : World) : World :=
  match request with
  | GeneratePostsBatch options => snd (generatePostsBatch env options w)
  | ApprovePost id user => snd (approvePost env id user w)
  | RejectPost id user => snd (rejectPost env id user w)
  | MarkPostAsPosted id user => snd (markPostAsPosted env id user w)
  | DeletePost id => snd (deletePost env id w)
  | CreateTextVariations input => snd (createTextVariations env input w)
  | AcceptTextVariation postId variationId =>
      snd (acceptTextVariation env postId variationId w)
  | RegenerateImage input => snd (regenerateImage env input w)
  end.

Definition text_ids (tvs : list TextVariation.t) : list string :=
  TextVariation.id <$> tvs.

(** No text variation of the world, stored or in the shared object, has
    the id. *)
Definition unused_id (w : World) (x : string) : Prop :=
  (x ∉ text_ids (textVariations (emptyHistory w))) ∧
  ∀ key post, posts w !! key = Some post → x ∉ text_ids (textVariationsOf post).

(** What [nanoid] promises: no id twice. *)
Definition draws_new_ids (env : Env) (w : World) : Prop :=
  (∀ i j, nanoid env i = nanoid env j → i = j) ∧
  ∀ i, unused_id w (nanoid env i).

Inductive reachable : World → Prop :=
| reachable_start : reachable (fresh_world ∅)
| reachable_step w env request :
    reachable w → draws_new_ids env w → reachable (handle env request w)
| reachable_restart w :
    reachable w → reachable (fresh_world (posts w)).

(** The ids in every text-variation log are pairwise distinct. *)
Definition distinct_ids (w : World) : Prop :=
  NoDup (text_ids (textVariations (emptyHistory w))) ∧
  ∀ key post, posts w !! key = Some post → NoDup (text_ids (textVariationsOf post)).

(** No row has the empty string for an image URL: a post has an image
    exactly when the column is not [NULL]. *)
Definition image_urls_nonempty (w : World) : Prop :=
  map_Forall (λ _ post, Post.imageUrl post ≠ Some "") (posts w).

(** Exactly one entry of a log is accepted, and it has the given id: there
    is a position holding an accepted entry with that id, and the entry at
    any other position is not accepted. *)
Definition only_accepted (variationId : string) (tvs : list TextVariation.t) : Prop :=
  ∃ i v,
    tvs !! i = Some v ∧
    TextVariation.id v = variationId ∧
    TextVariation.accepted v = true ∧
    ∀ j v', tvs !! j = Some v' → j ≠ i → TextVariation.accepted v' = false.

(** * More vocabulary *)

(** The columns fixed at creation. *)
Definition same_origin (p p' : Post.t) : Prop :=
  Post.id p' = Post.id p ∧ Post.pillar p' = Post.pillar p ∧
  Post.mainIdea p' = Post.mainIdea p ∧ Post.imageStyle p' = Post.imageStyle p ∧
  Post.batchId p' = Post.batchId p ∧ Post.createdBy p' = Post.createdBy p ∧
  Post.createdAt p' = Post.createdAt p.

(** The canonical text, the canonical image, and the three actors. *)
Definition same_text (p p' : Post.t) : Prop :=
  Post.hook p' = Post.hook p ∧ Post.caption p' = Post.caption p ∧
  Post.hashtags p' = Post.hashtags p.

Definition same_image (p p' : Post.t) : Prop :=
  Post.imagePrompt p' = Post.imagePrompt p ∧ Post.imageUrl p' = Post.imageUrl p ∧
  Post.imageKey p' = Post.imageKey p.

Definition same_actors (p p' : Post.t) : Prop :=
  Post.approvedBy p' = Post.approvedBy p ∧ Post.rejectedBy p' = Post.rejectedBy p ∧
  Post.postedBy p' = Post.postedBy p.

(** The history text is a JSON document: [parseHistory] parses it and
    returns an object of its own. *)
Definition stored_document (post : Post.t) : Prop :=
  ∃ v, Post.history post = Some (JsonOf v).

(** How many entries of an image log are marked as accepted. *)
Definition accepted_images (ivs : list ImageVariation.t) : nat :=
  length (filter (λ v, ImageVariation.accepted v = true) ivs).

(** A row as the service writes it: filed under its own id, hashtags a
    JSON array, history [NULL] or a JSON document with both arrays. *)
Definition service_row (key : string) (post : Post.t) : Prop :=
  Post.id post = key ∧
  (∃ tags, Post.hashtags post = Some (JsonOf tags)) ∧
  (Post.history post = None ∨
   ∃ h, Post.history post = Some (JsonOf (history_value h))).

Definition service_rows (w : World) : Prop := map_Forall service_row (posts w).

(** The row carries the content of a generated candidate. *)
Definition content_of (content : GeneratedPost.t) (post : Post.t) : Prop :=
  Post.pillar post = GeneratedPost.pillar content ∧
  Post.mainIdea post = GeneratedPost.mainIdea content ∧
  Post.hook post = GeneratedPost.hook content ∧
  Post.caption post = GeneratedPost.caption content ∧
  Post.hashtags post = Some (JsonOf (GeneratedPost.hashtags content)) ∧
  Post.imageStyle post = GeneratedPost.imageStyle content ∧
  Post.imagePrompt post = GeneratedPost.imagePrompt content.

(** The row of a batch for the candidate at position [i], the two
    timestamps left aside: the id of its [nanoid()] call, the content, the
    image its producer gave or none, a draft of this batch by this creator,
    no history and no approver, rejector or poster. *)
Definition batch_row (env : Env) (options : option GeneratePostsBatchOptions.t)
    (i : nat) (content : GeneratedPost.t) (post : Post.t) : Prop :=
  Post.id post = nanoid env (S i) ∧
  content_of content post ∧
  (Post.imageUrl post, Post.imageKey post)
    = imageColumns (imageOutcome env (GeneratedPost.imageStyle content)
                      (GeneratedPost.imagePrompt content) (nanoid env (S i))) ∧
  Post.status post = Draft ∧
  Post.batchId post = nanoid env 0 ∧
  Post.createdBy post = (User.id <$> (options ≫= GeneratePostsBatchOptions.createdBy)) ∧
  Post.history post = None ∧
  Post.approvedBy post = None ∧ Post.rejectedBy post = None ∧ Post.postedBy post = None.

(** At most one entry of a log is accepted. *)
Definition one_accepted (tvs : list TextVariation.t) : Prop :=
  ∀ i j v v',
    tvs !! i = Some v → tvs !! j = Some v' →
    TextVariation.accepted v = true → TextVariation.accepted v' = true → i = j.

(** A property of text-variation logs that holds of the log of every row
    and of the log in the shared object. *)
Definition every_log (P : list TextVariation.t → Prop) (w : World) : Prop :=
  P (textVariations (emptyHistory w)) ∧
  ∀ key post, posts w !! key = Some post → P (textVariationsOf post).

(** A row has an image URL exactly when it has an image key. *)
Definition image_columns_paired (post : Post.t) : Prop :=
  is_Some (Post.imageUrl post) ↔ is_Some (Post.imageKey post).

(** * The server functions

    The handlers of the server-function module call the service once and
    hand the post to [parsePost].  [parseHashtags] parses without a [try],
    so a text that is not JSON makes the handler fail; the history goes
    through the [parseHistory] of that module, [route_parseHistory] above.
    The session check of [authMiddleware] and the input validators run
    before a handler and are not part of it; [user] is what
    [getCurrentUser()] returned. *)

Module ParsedPost.
(** [{...post, hashtags, history}]: the row, with the two JSON columns
    replaced by what they parse to. *)
Record t := mk {
  row : Post.t;
  hashtags : list string;
  history : HistoryValue;
}.
End ParsedPost.

Definition parseHashtags (hashtags : option (JsonText (list string)))
  : Completion (list string) :=
  if truthy_text hashtags then
    match hashtags with
    | Some (JsonOf tags) => Returned tags
    | _ => Thrown SyntaxError
    end
  else Returned [].

Definition parsePost (post : Post.t) : Completion ParsedPost.t :=
  match parseHashtags (Post.hashtags post) with
  | Returned hashtags =>
      Returned (ParsedPost.mk post hashtags (route_parseHistory (Post.history post)))
  | Thrown e => Thrown e
  end.

(** [if (!post) return null; return parsePost(post);] *)
Definition null_or_parsed (post : option Post.t) : Async (option ParsedPost.t) :=
  match post with
  | None => ret None
  | Some post => parsed <- await (parsePost post) ;; ret (Some parsed)
  end.

(** [posts.map(parsePost)]: the first post that does not parse ends the map. *)
Fixpoint map_parsePost (posts : list Post.t) : Completion (list ParsedPost.t) :=
  match posts with
  | [] => Returned []
  | post :: rest =>
      match parsePost post with
      | Thrown e => Thrown e
      | Returned parsed =>
          match map_parsePost rest with
          | Thrown e => Thrown e
          | Returned parsed_rest => Returned (parsed :: parsed_rest)
          end
      end
  end.

Definition getPostFn (id : string) : Async (option ParsedPost.t) :=
  post <- getPost id ;;
  null_or_parsed post.

Definition generatePostsFn (env : Env) (user : option User.t)
  : Async (string * list ParsedPost.t) :=
  result <- generatePostsBatch env
              (Some (GeneratePostsBatchOptions.mk None None user)) ;;
  parsed <- await (map_parsePost (GenerateBatchResult.posts result)) ;;
  ret (GenerateBatchResult.batchId result, parsed).

Definition generatePostsWithPromptFn (env : Env) (user : option User.t)
    (prompt : string) (count : Z) : Async (string * list ParsedPost.t) :=
  result <- generatePostsBatch env
              (Some (GeneratePostsBatchOptions.mk (Some prompt) (Some count) user)) ;;
  parsed <- await (map_parsePost (GenerateBatchResult.posts result)) ;;
  ret (GenerateBatchResult.batchId result, parsed).

Definition approvePostFn (env : Env) (user : option User.t) (id : string)
  : Async (option ParsedPost.t) :=
  post <- approvePost env id user ;;
  null_or_parsed post.

Definition rejectPostFn (env : Env) (user : option User.t) (id : string)
  : Async (option ParsedPost.t) :=
  post <- rejectPost env id user ;;
  null_or_parsed post.

Definition markPostedFn (env : Env) (user : option User.t) (id : string)
  : Async (option ParsedPost.t) :=
  post <- markPostAsPosted env id user ;;
  null_or_parsed post.

(** Returns [{ success: true }]. *)
Definition deletePostFn (env : Env) (id : string) : Async bool :=
  deletePost env id ;;
  ret true.

(** [tone: data.tone ?? null]: an absent tone and [null] are the same
    [None]. *)
Definition generateTextVariationsFn (env : Env) (postId feedback : string)
    (tone : option ToneOption) : Async (list TextVariationResult.t) :=
  createTextVariations env (CreateTextVariationsInput.mk postId feedback tone).

Definition acceptTextVariationFn (env : Env) (postId variationId : string)
  : Async (option ParsedPost.t) :=
  post <- acceptTextVariation env postId variationId ;;
  null_or_parsed post.

Definition regenerateImageFn (env : Env) (postId feedback : string)
  : Async (option ParsedPost.t) :=
  post <- regenerateImage env (RegenerateImageInput.mk postId feedback) ;;
  null_or_parsed post.

(** What a client is sent for a row whose two JSON columns parse. *)
Definition client_view (post : Post.t) : ParsedPost.t :=
  ParsedPost.mk post (default [] (hashtagsOf post)) (route_parseHistory (Post.history post)).

(** A handler that answers as the service did, the post parsed. *)
Definition answers_as {A B} (f : A → B) (service : Completion A * World)
  : Completion B * World :=
  match service with
  | (Returned a, w) => (Returned (f a), w)
  | (Thrown e, w) => (Thrown e, w)
  end.

(** * [listPosts] (lines 41-64) and its server functions

    One query: the rows with the status asked for, if one is asked for,
    newest first by [createdAt], at most [limit] of them, 50 unless the
    caller says otherwise.  A limit below zero is no limit to SQLite.  The
    order of rows with the same [createdAt] is the database's business:
    [query_answer] admits every order, and [listPosts] computes one answer,
    rows of equal age in the order of the table scan. *)

Module ListPostsOptions.
Record t := mk { status : option PostStatus; limit : option Z }.
End ListPostsOptions.

(** [where: and(...conditions)]: one condition when [status] is given. *)
Definition matches (status : option PostStatus) (post : Post.t) : bool :=
  match status with
  | None => true
  | Some s => bool_decide (Post.status post = s)
  end.

(** [orderBy: desc(posts.createdAt)]. *)
Definition newest_first (p q : Post.t) : Prop :=
  (Post.createdAt q ≤ Post.createdAt p)%Z.

Global Instance newest_first_dec (p q : Post.t) : Decision (newest_first p q).
Proof. unfold newest_first. apply _. Defined.

Definition apply_limit (limit : Z) (rows : list Post.t) : list Post.t :=
  if (limit <? 0)%Z then rows else take (Z.to_nat limit) rows.

(** The rows of the table, in the order of a scan. *)
Definition scan (w : World) : list Post.t := snd <$> map_to_list (posts w).

(** The answers the database may give to the query. *)
Definition query_answer (w : World) (status : option PostStatus) (limit : Z)
    (rows : list Post.t) : Prop :=
  ∃ ordered,
    ordered ≡ₚ filter (λ post, matches status post = true) (scan w) ∧
    StronglySorted newest_first ordered ∧
    rows = apply_limit limit ordered.

Definition listPosts (options : option ListPostsOptions.t) : Async (list Post.t) :=
  fun w =>
    let status := options ≫= ListPostsOptions.status in
    let limit := default 50%Z (options ≫= ListPostsOptions.limit) in
    (Returned
       (apply_limit limit
          (merge_sort newest_first
             (filter (λ post, matches status post = true) (scan w)))),
     w).

Definition listPostsFn : Async (list ParsedPost.t) :=
  posts <- listPosts None ;;
  await (map_parsePost posts).

Definition listPostsByStatusFn (status : PostStatus) (limit : option Z)
  : Async (list ParsedPost.t) :=
  posts <- listPosts (Some (ListPostsOptions.mk (Some status) limit)) ;;
  await (map_parsePost posts).

(** * The content generator ([services/llm.ts], [generatePosts])

    [generatePosts] asks the research model for trends, when it is told to
    and there is no custom prompt, and then asks the generation model for
    [postCount] posts under a schema that fixes the length of the array.
    The brand configuration and the models are outside the sources: the
    prompts are not spelled out, the generation model is given what the
    prompts are built from (the research text and the custom prompt, each
    only where the source tests it as truthy, and the count), and answers
    with the posts it has produced, before the schema is applied. *)

Module Llm.
Record t := mk {
  (** [brandConfig.postCountPerDay] *)
  postCountPerDay : Z;
  (** [researchTrends()] *)
  researchTrends : Completion string;
  (** the posts of the generation model for a research text, a custom
      prompt and a count *)
  generateObject : option string → option string → Z → Completion (list GeneratedPost.t);
  (** what [generateObject] throws when the answer does not match the schema *)
  schema_mismatch : Exception;
}.
End Llm.

(** A string where the source tests it as truthy, nothing otherwise. *)
Definition given (text : option string) : option string :=
  if truthy_opt_string text then text else None.

Definition generatePosts (llm : Llm.t) (options : GeneratePostsOptions.t)
  : Completion (list GeneratedPost.t) :=
  let postCount :=
    default (Llm.postCountPerDay llm) (GeneratePostsOptions.count options) in
  let customPrompt := GeneratePostsOptions.customPrompt options in
  let trendResearch :=
    if GeneratePostsOptions.includeTrendResearch options
       && negb (truthy_opt_string customPrompt)
    then match Llm.researchTrends llm with
         | Returned text => Some text
         | Thrown _ => None
         end
    else None in
  match Llm.generateObject llm (given trendResearch) (given customPrompt) postCount with
  | Thrown e => Thrown e
  | Returned posts =>
      if bool_decide (Z.of_nat (length posts) = postCount) then Returned posts
      else Thrown (Llm.schema_mismatch llm)
  end.

(** * The validated history of [db/schema.ts]

    [schema.ts] has a [parseHistory] of its own, used by [selectPostSchema]:
    the same lines as in [posts.ts], except that what [JSON.parse] returns
    goes through [variationHistorySchema.parse], which throws unless both
    arrays are there and every entry passes the schema of its array.
    Nothing in the sources writes to the object this function returns, so it
    is a value here. *)

(** What [JSON.parse] returns for a history text, as the schemas see it:
    [null], or an object in which either array may be missing; an entry of
    an array passes its schema ([textVariationSchema],
    [imageVariationSchema]), and is then the entry the schema returns, or it
    does not ([None]). *)
Inductive RawHistory :=
| RawNull
| RawObject (textVariations : option (list (option TextVariation.t)))
            (imageVariations : option (list (option ImageVariation.t))).

(** [z.array(schema).parse(entries)]: every entry has to pass. *)
Fixpoint array_parse {A} (entries : list (option A)) : option (list A) :=
  match entries with
  | [] => Some []
  | None :: _ => None
  | Some entry :: rest =>
      match array_parse rest with
      | Some parsed => Some (entry :: parsed)
      | None => None
      end
  end.

(** [variationHistorySchema.parse(v)]; [None] when it throws. *)
Definition variationHistorySchema_parse (v : RawHistory) : option VariationHistory :=
  match v with
  | RawObject (Some tvs) (Some ivs) =>
      match array_parse tvs, array_parse ivs with
      | Some tvs', Some ivs' => Some (mkHistory tvs' ivs')
      | _, _ => None
      end
  | _ => None
  end.

Definition schema_parseHistory (val : option (JsonText RawHistory)) : VariationHistory :=
  if negb (truthy_text val) then mkHistory [] []
  else
    match val with
    | Some (JsonOf v) => default (mkHistory [] []) (variationHistorySchema_parse v)
    | _ => mkHistory [] []
    end.

(** The value of a history text all of whose entries are well typed, which
    is what [posts.ts] and the server functions take every text to be. *)
Definition raw (v : HistoryValue) : RawHistory :=
  match v with
  | JsonNull => RawNull
  | JsonObject tvs ivs => RawObject (fmap (M:=list) Some <$> tvs) (fmap (M:=list) Some <$> ivs)
  end.

Definition raw_text (col : option (JsonText HistoryValue)) : option (JsonText RawHistory) :=
  match col with
  | None => None
  | Some (NotJson text) => Some (NotJson text)
  | Some (JsonOf v) => Some (JsonOf (raw v))
  end.

(** * The text of a card ([services/text-card.ts])

    [generateTextCardSVG] wraps the text into lines, picks a font size from
    the number of lines and writes each line, escaped, into a [<text>]
    element.  A JavaScript string is a sequence of UTF-16 code units:
    [length], [split], [trim] and the replacements of [escapeXml] work on
    code units, so a string is a list of them here.  The SVG template around
    the lines is not modelled. *)

Definition JsString := list N.

(** The string of an ASCII literal. *)
Fixpoint units (s : string) : JsString :=
  match s with
  | EmptyString => []
  | String a rest => N_of_ascii a :: units rest
  end.

(** [s.split(sep)] for a separator of one code unit: the pieces between
    the separators, the empty ones included; one empty piece for the empty
    string. *)
Fixpoint split (sep : N) (s : JsString) : list JsString :=
  match s with
  | [] => [[]]
  | c :: rest =>
      if (c =? sep)%N then [] :: split sep rest
      else match split sep rest with
           | piece :: pieces => (c :: piece) :: pieces
           | [] => [[c]]
           end
  end.

(** What [trim] strips: the [WhiteSpace] and [LineTerminator] code points
    of ECMAScript (tab, the line terminators, space, no-break space, the
    Unicode space separators and the byte-order mark). *)
Definition isWhiteSpace (c : N) : bool :=
  bool_decide (c ∈ [9; 10; 11; 12; 13; 32; 160; 5760; 8232; 8233; 8239; 8287;
                    12288; 65279]%N)
  || ((8192 <=? c)%N && (c <=? 8202)%N).

Fixpoint trimStart (s : JsString) : JsString :=
  match s with
  | [] => []
  | c :: rest => if isWhiteSpace c then trimStart rest else s
  end.

Definition trimEnd (s : JsString) : JsString := reverse (trimStart (reverse s)).

Definition trim (s : JsString) : JsString := trimEnd (trimStart s).

Definition maxCharsPerLine : nat := 30.

(** One turn of the loop over the words, on the pair of [lines] and
    [currentLine]. *)
Definition wrap_word (state : list JsString * JsString) (word : JsString)
  : list JsString * JsString :=
  let '(lines, currentLine) := state in
  let joined := trim (currentLine ++ units " " ++ word) in
  if bool_decide (length joined ≤ maxCharsPerLine) then (lines, joined)
  else ((if bool_decide (currentLine ≠ []) then lines ++ [currentLine] else lines), word).

(** The lines of the card: the loop, then the line still open. *)
Definition wrapLines (text : JsString) : list JsString :=
  let words := split 32 text in
  let '(lines, currentLine) := foldl wrap_word ([], []) words in
  if bool_decide (currentLine ≠ []) then lines ++ [currentLine] else lines.

(** [Math.min(64, Math.floor(800 / Math.max(lines.length, 3)))]. *)
Definition fontSize (lines : list JsString) : Z :=
  Z.min 64 (800 / Z.max (Z.of_nat (length lines)) 3).

(** [text.replace(/c/g, replacement)] for a pattern of one code unit. *)
Definition replaceAll (c : N) (replacement : JsString) (text : JsString) : JsString :=
  flat_map (λ x, if (x =? c)%N then replacement else [x]) text.

(** The five replacements, in the order of the source; 34 is the double
    quote and 39 the apostrophe. *)
Definition escapeXml (text : JsString) : JsString :=
  replaceAll 39 (units "&apos;")
    (replaceAll 34 (units "&quot;")
       (replaceAll 62 (units "&gt;")
          (replaceAll 60 (units "&lt;")
             (replaceAll 38 (units "&amp;") text)))).

(** The entity written for a code unit, if it is one of the five. *)
Definition entity (c : N) : option JsString :=
  if (c =? 38)%N then Some (units "&amp;")
  else if (c =? 60)%N then Some (units "&lt;")
  else if (c =? 62)%N then Some (units "&gt;")
  else if (c =? 34)%N then Some (units "&quot;")
  else if (c =? 39)%N then Some (units "&apos;")
  else None.

(** Words joined by single spaces. *)
Fixpoint join_words (words : list JsString) : JsString :=
  match words with
  | [] => []
  | [word] => word
  | word :: rest => word ++ units " " ++ join_words rest
  end.

(** * What the dialogs send

    The three dialogs of the page call a server function with what the user
    has typed, unless a guard returns first.  Each handler is the data of
    its call, or [None] when it returns before calling; the state of the
    component is its argument. *)

Definition tone_text (tone : ToneOption) : JsString :=
  units match tone with
        | Formal => "formal"
        | Friendly => "friendly"
        | Spicy => "spicy"
        | Minimal => "minimal"
        end.

(** A tone, or [null], inside a template literal. *)
Definition template_tone (selectedTone : option ToneOption) : JsString :=
  match selectedTone with
  | Some tone => tone_text tone
  | None => units "null"
  end.

Module VariationRequest.
Record t := mk { feedback : JsString; tone : option ToneOption }.
End VariationRequest.

(** [handleGenerate] of [TextVariationSheet]. *)
Definition handleGenerate (feedback : JsString) (selectedTone : option ToneOption)
  : option VariationRequest.t :=
  if bool_decide (trim feedback = []) && bool_decide (selectedTone = None) then None
  else
    Some (VariationRequest.mk
            (if bool_decide (feedback ≠ []) then feedback
             else units "Make it " ++ template_tone selectedTone)
            selectedTone).

(** [handleRegenerate] of [ImageRegenerateDialog]. *)
Definition handleRegenerate (feedback : JsString) : option JsString :=
  if bool_decide (trim feedback = []) then None else Some feedback.

(** [handleSubmit] of [GeneratePostModal]. *)
Definition handleSubmit (prompt : JsString) (count : Z) : option (JsString * Z) :=
  if bool_decide (trim prompt = []) then None else Some (prompt, count).

(** The new count when the number field changes:
    [Math.min(3, Math.max(1, parseInt(e.target.value) || 1))], [parsed]
    being what [parseInt] returned, [None] for [NaN]. *)
Definition changedCount (parsed : option Z) : Z :=
  Z.min 3 (Z.max 1 (match parsed with
                    | Some n => if (n =? 0)%Z then 1%Z else n
                    | None => 1%Z
                    end)).

(** [z.string().min(lo).max(hi)] and [z.number().min(lo).max(hi)] of the
    input validators. *)
Definition string_min_max (lo hi : nat) (s : JsString) : bool :=
  bool_decide (lo ≤ length s ≤ hi).

Definition number_min_max (lo hi n : Z) : bool := bool_decide (lo ≤ n ≤ hi)%Z.

(** What the loop keeps true of every line it closes: the line is not
    empty, and it fits or it is one word of the text. *)
Definition wrapped (words : list JsString) (line : JsString) : Prop :=
  line ≠ [] ∧ (length line ≤ maxCharsPerLine ∨ line ∈ words).

(** A word with something in it and no white space. *)
Definition solid (word : JsString) : Prop :=
  word ≠ [] ∧ Forall (λ c, isWhiteSpace c = false) word.

(** The space is the only white space of the text. *)
Definition spaced (text : JsString) : Prop :=
  Forall (λ c, isWhiteSpace c = true → c = 32%N) text.

(** A string that neither starts nor ends with white space. *)
Definition tight (s : JsString) : Prop :=
  (∀ c, head s = Some c → isWhiteSpace c = false) ∧
  (∀ c, last s = Some c → isWhiteSpace c = false).

(** Each line is as full as it can be: the first word of the next line
    would not have fitted on it. *)
Fixpoint greedy (groups : list (list JsString)) : Prop :=
  match groups with
  | group :: (next :: _) as rest =>
      (∀ word, head next = Some word →
               maxCharsPerLine < length (join_words group ++ units " " ++ word)) ∧
      greedy rest
  | _ => True
  end.

(** More data for the examples. *)
Module Cases.
Definition bob : User.t := User.mk "user-2" "Bob" "bob@example.com".

(** The text of a card that takes three lines. *)
Definition card_text : JsString :=
  units "Five lunchboxes in ten minutes, every single school morning".

(** A generation model that writes as many posts as it is asked for, and
    a service whose content generator is [generatePosts] over it. *)
Definition obliging : Llm.t :=
  Llm.mk 3%Z (Thrown (Error "research unavailable"))
    (fun _ _ count => Returned (replicate (Z.to_nat count) Scenario.lunchbox))
    (Error "schema mismatch").
Definition obliging_env : Env :=
  mkEnv (nanoid Scenario.batch_env) (clock Scenario.batch_env)
    (generatePosts obliging)
    (generateTextVariationsWithAI Scenario.batch_env)
    (generateImprovedImagePrompt Scenario.batch_env)
    (generateImageBuffer Scenario.batch_env) (Date_now Scenario.batch_env)
    (BUCKET_put Scenario.batch_env) (BUCKET_delete Scenario.batch_env)
    (CDN_URL Scenario.batch_env).

(** A batch whose second post draws the id of a post of the table. *)
Definition colliding_env : Env :=
  mkEnv (fun k => if bool_decide (k = 2) then "post-1" else "next-" +:+ pretty k)
    (clock Scenario.batch_env)
    (generatePostsWithAI Scenario.batch_env)
    (generateTextVariationsWithAI Scenario.batch_env)
    (generateImprovedImagePrompt Scenario.batch_env)
    (generateImageBuffer Scenario.batch_env) (Date_now Scenario.batch_env)
    (BUCKET_put Scenario.batch_env) (BUCKET_delete Scenario.batch_env)
    (CDN_URL Scenario.batch_env).

(** The blob store refuses the image regenerated for [post-1]. *)
Definition dark_env : Env :=
  Scenario.answers "ia" 1700000500000%Z Scenario.three_drafts
    (Some "posts/1700000500000-post-1.jpg").
End Cases.

(** * Properties *)

(** ** The calendar arithmetic on three instants *)

Example toISOString_epoch : toISOString 0%Z = "1970-01-01T00:00:00.000Z".
Proof. reflexivity. Qed.

Example toISOString_leap_day :
  toISOString 1709210096789%Z = "2024-02-29T12:34:56.789Z".
Proof. vm_compute. reflexivity. Qed.

Example toISOString_before_epoch :
  toISOString (-1)%Z = "1969-12-31T23:59:59.999Z".
Proof. vm_compute. reflexivity. Qed.

(** ** Running the monad *)

Ltac unfold_async :=
  unfold bind, ret, throw, await, try_catch, getPost, db_update, db_delete,
    stringify, get_textVariations, get_imageVariations, deref in *.

Lemma alter_present {A} (f : A → A) (m : gmap string A) (i : string) (x : A) :
  m !! i = Some x → alter f i m = <[i := f x]> m.
Proof.
  intros Hi. apply map_eq. intros j.
  destruct (decide (i = j)) as [<-|Hne].
  - by rewrite lookup_alter_eq, lookup_insert_eq, Hi.
  - by rewrite lookup_alter_ne, lookup_insert_ne.
Qed.

Lemma alter_absent {A} (f : A → A) (m : gmap string A) (i : string) :
  m !! i = None → alter f i m = m.
Proof.
  intros Hi. apply map_eq. intros j.
  destruct (decide (i = j)) as [<-|Hne].
  - by rewrite lookup_alter_eq, Hi.
  - by rewrite lookup_alter_ne.
Qed.

Lemma world_eta (w : World) : mkWorld (posts w) (emptyHistory w) = w.
Proof. by destruct w. Qed.

(** ** [acceptTextVariation], step by step *)

Lemma acceptTextVariation_eq (env : Env) (postId variationId : string) (w : World) :
  acceptTextVariation env postId variationId w =
  match posts w !! postId with
  | None => (Thrown NotFound, w)
  | Some post =>
      let history := parseHistory (Post.history post) in
      match view w history with
      | JsonObject (Some tvs) ivs =>
          match List.find (λ v, bool_decide (TextVariation.id v = variationId)) tvs with
          | None => (Thrown VariationNotFound, w)
          | Some variation =>
              let tvs' := mark_accepted variationId <$> tvs in
              let post' := accepted_post env post variation (JsonObject (Some tvs') ivs) in
              (Returned (Some post'),
               mkWorld (<[postId := post']> (posts w))
                 (written_through history (emptyHistory w) tvs'
                    (imageVariations (emptyHistory w))))
          end
      | _ => (Thrown TypeError, w)
      end
  end.
Proof.
  unfold acceptTextVariation. unfold_async.
  destruct (posts w !! postId) as [post|] eqn:Hpost; [|done].
  cbn zeta. destruct (parseHistory (Post.history post)) as [|[|[tvs|] ivs]]; cbn; try done.
  - destruct (List.find _ _) as [variation|]; [|done]. cbn.
    rewrite (alter_present _ _ _ _ Hpost), lookup_insert_eq. done.
  - destruct (List.find _ _) as [variation|]; [|done]. cbn.
    rewrite (alter_present _ _ _ _ Hpost), lookup_insert_eq. done.
Qed.

Lemma accepted_post_fields env post variation stored :
  let post' := accepted_post env post variation stored in
  Post.hook post' = TextVariation.hook variation ∧
  Post.caption post' = TextVariation.caption variation ∧
  Post.hashtags post' = Some (JsonOf (TextVariation.hashtags variation)) ∧
  Post.history post' = Some (JsonOf stored) ∧
  Post.status post' = Post.status post ∧
  Post.id post' = Post.id post.
Proof. by destruct post. Qed.

Lemma textVariationsOf_stored post tvs ivs :
  Post.history post = Some (JsonOf (JsonObject (Some tvs) ivs)) →
  textVariationsOf post = tvs.
Proof. intros H. unfold textVariationsOf. by rewrite H. Qed.

(** *** Marking a log

    [variationId] is the id passed to [acceptTextVariation]. *)

Section MarkAccepted.
Variable variationId : string.
Implicit Types (tvs : list TextVariation.t) (v variation V : TextVariation.t).

Lemma mark_accepted_id v :
  TextVariation.id (mark_accepted variationId v) = TextVariation.id v.
Proof. done. Qed.

Lemma mark_accepted_ids tvs :
  TextVariation.id <$> (mark_accepted variationId <$> tvs) = TextVariation.id <$> tvs.
Proof. rewrite <- list_fmap_compose. by apply list_fmap_ext. Qed.

Lemma mark_accepted_flag tvs v :
  v ∈ mark_accepted variationId <$> tvs →
  TextVariation.accepted v = bool_decide (TextVariation.id v = variationId).
Proof. intros (u & -> & _)%list_elem_of_fmap. done. Qed.

(** [Array.prototype.find] returns an element that passes the test. *)
Lemma find_id_Some tvs variation :
  List.find (λ v, bool_decide (TextVariation.id v = variationId)) tvs = Some variation →
  variation ∈ tvs ∧ TextVariation.id variation = variationId.
Proof.
  intros [Hin Hid]%find_some. split.
  - by apply list_elem_of_In.
  - by apply bool_decide_eq_true in Hid.
Qed.

(** With pairwise distinct ids, [find] by the id of an entry is that entry. *)
Lemma find_id_NoDup tvs V :
  NoDup (TextVariation.id <$> tvs) → V ∈ tvs →
  List.find (λ v, bool_decide (TextVariation.id v = TextVariation.id V)) tvs = Some V.
Proof.
  induction tvs as [|u tvs IH]; intros Hnd Hin.
  - by apply elem_of_nil in Hin.
  - rewrite fmap_cons in Hnd. apply NoDup_cons in Hnd as [Hfresh Hnd].
    cbn. case_bool_decide as Hid.
    + apply elem_of_cons in Hin as [->|Hin]; [done|].
      exfalso. apply Hfresh. rewrite Hid. by apply list_elem_of_fmap_2.
    + apply elem_of_cons in Hin as [->|Hin]; [done|]. by apply IH.
Qed.

(** [find] sees only ids, and [mark_accepted] keeps them. *)
Lemma find_mark_accepted otherId tvs :
  List.find (λ v, bool_decide (TextVariation.id v = variationId))
    (mark_accepted otherId <$> tvs)
  = mark_accepted otherId <$>
      List.find (λ v, bool_decide (TextVariation.id v = variationId)) tvs.
Proof.
  induction tvs as [|u tvs IH]; [done|].
  cbn. by case_bool_decide.
Qed.

Lemma mark_accepted_idemp tvs :
  mark_accepted variationId <$> (mark_accepted variationId <$> tvs)
  = mark_accepted variationId <$> tvs.
Proof. rewrite <- list_fmap_compose. by apply list_fmap_ext. Qed.

(** [mark_accepted] over a log with an entry of the id and pairwise
    distinct ids leaves exactly that entry accepted. *)
Lemma mark_accepted_only tvs variation :
  variation ∈ tvs → TextVariation.id variation = variationId →
  NoDup (text_ids tvs) →
  only_accepted variationId (mark_accepted variationId <$> tvs).
Proof.
  intros Hin Hid Hnd. apply list_elem_of_lookup in Hin as [i Hi].
  exists i, (mark_accepted variationId variation).
  split; [by rewrite list_lookup_fmap, Hi|].
  split; [done|]. split; [cbn; by apply bool_decide_eq_true|].
  intros j v' Hj Hne.
  rewrite (mark_accepted_flag tvs v') by (by eapply list_elem_of_lookup_2).
  apply bool_decide_eq_false. intros Hid'. apply Hne.
  rewrite list_lookup_fmap in Hj.
  destruct (tvs !! j) as [u|] eqn:Hu; [|done]. injection Hj as <-.
  eapply NoDup_lookup; [exact Hnd| |]; unfold text_ids; rewrite list_lookup_fmap.
  - by rewrite Hu.
  - rewrite Hi. cbn in *. congruence.
Qed.

End MarkAccepted.

(** A post whose log, as clients read it, has an entry stores a document
    with that log. *)
Lemma textVariationsOf_nonempty (post : Post.t) (V : TextVariation.t) :
  V ∈ textVariationsOf post →
  ∃ ivs, Post.history post = Some (JsonOf (JsonObject (Some (textVariationsOf post)) ivs)).
Proof.
  unfold textVariationsOf, route_parseHistory.
  destruct (Post.history post) as [[raw|[|[tvs|] ivs]]|]; cbn;
    try (intros H; by apply elem_of_nil in H).
  - destruct (truthy_string raw); cbn; intros H; by apply elem_of_nil in H.
  - intros _. by exists ivs.
Qed.

(** Accepting again, right after a successful accept of the same variation,
    succeeds and writes the same canonical fields and the same log. *)
Lemma acceptTextVariation_again
    (env1 env2 : Env) (postId variationId : string) (w w1 : World) (p1 : Post.t) :
  acceptTextVariation env1 postId variationId w = (Returned (Some p1), w1) →
  ∃ p2 w2,
    acceptTextVariation env2 postId variationId w1 = (Returned (Some p2), w2) ∧
    Post.hook p2 = Post.hook p1 ∧
    Post.caption p2 = Post.caption p1 ∧
    Post.hashtags p2 = Post.hashtags p1 ∧
    Post.history p2 = Post.history p1.
Proof.
  rewrite acceptTextVariation_eq.
  destruct (posts w !! postId) as [post|]; [|done].
  cbn zeta. destruct (view w _) as [|[tvs|] ivs]; try done.
  destruct (List.find _ tvs) as [variation|] eqn:Hfind; [|done].
  intros [= <- <-].
  set (stored := JsonObject (Some (mark_accepted variationId <$> tvs)) ivs).
  destruct (accepted_post_fields env1 post variation stored)
    as (Hhook & Hcap & Htags & Hhist & _).
  rewrite acceptTextVariation_eq. cbn [posts]. rewrite lookup_insert_eq.
  rewrite Hhist. cbn [parseHistory truthy_text negb view].
  unfold stored at 1. rewrite find_mark_accepted, Hfind. cbn [fmap option_fmap option_map].
  do 2 eexists. split; [done|].
  rewrite mark_accepted_idemp. fold stored.
  destruct (accepted_post_fields env2 (accepted_post env1 post variation stored)
              (mark_accepted variationId variation) stored)
    as (Hhook2 & Hcap2 & Htags2 & Hhist2 & _).
  rewrite Hhook2, Hcap2, Htags2, Hhist2, ?Hhook, ?Hcap, ?Htags, ?Hhist. done.
Qed.

(** C7.  Whatever [acceptTextVariation] does on an existing post, succeed
    or throw, the post is still in the table with the status it had, and a
    successful call returns that stored post: a post that was [posted] stays
    [posted]. *)
Theorem acceptTextVariation_keeps_status
    (env : Env) (postId variationId : string) (w w' : World) (post : Post.t)
    (c : Completion (option Post.t)) :
  posts w !! postId = Some post →
  acceptTextVariation env postId variationId w = (c, w') →
  ∃ post',
    posts w' !! postId = Some post' ∧
    Post.status post' = Post.status post ∧
    (∀ r, c = Returned r → r = Some post').
Proof.
  intros Hpost. rewrite acceptTextVariation_eq, Hpost. cbn zeta.
  destruct (view w _) as [|[tvs|] ivs];
    try (intros [= <- <-]; exists post; by rewrite Hpost).
  destruct (List.find _ tvs) as [variation|];
    [|intros [= <- <-]; exists post; by rewrite Hpost].
  intros [= <- <-]. eexists. cbn [posts]. rewrite lookup_insert_eq.
  split; [done|]. split; [|by intros r [= <-]].
  apply accepted_post_fields.
Qed.

(** ** The failure paths of [acceptTextVariation] *)

Lemma acceptTextVariation_NotFound (env : Env) (postId variationId : string) (w : World) :
  posts w !! postId = None →
  acceptTextVariation env postId variationId w = (Thrown NotFound, w).
Proof. intros Hpost. by rewrite acceptTextVariation_eq, Hpost. Qed.

Lemma find_id_None variationId (tvs : list TextVariation.t) :
  (∀ v, v ∈ tvs → TextVariation.id v ≠ variationId) →
  List.find (λ v, bool_decide (TextVariation.id v = variationId)) tvs = None.
Proof.
  intros Hall. destruct (List.find _ tvs) as [v|] eqn:Hfind; [|done].
  apply find_id_Some in Hfind as [Hin Hid]. by destruct (Hall v Hin).
Qed.

(** No entry of the log that the call reads has the id: [Variation not
    found].  The log the call reads is the post's own when
    [reads_own_history] holds (lemma [textVariationsOf_own]). *)
Lemma acceptTextVariation_VariationNotFound
    (env : Env) (postId variationId : string) (w : World) (post : Post.t) tvs ivs :
  posts w !! postId = Some post →
  view w (parseHistory (Post.history post)) = JsonObject (Some tvs) ivs →
  (∀ v, v ∈ tvs → TextVariation.id v ≠ variationId) →
  acceptTextVariation env postId variationId w = (Thrown VariationNotFound, w).
Proof.
  intros Hpost Hview Hall. rewrite acceptTextVariation_eq, Hpost. cbn zeta.
  by rewrite Hview, (find_id_None _ _ Hall).
Qed.

(** A call that throws has written nothing. *)
Lemma acceptTextVariation_Thrown_no_write
    (env : Env) (postId variationId : string) (w w' : World) (e : Exception) :
  acceptTextVariation env postId variationId w = (Thrown e, w') → w' = w.
Proof.
  rewrite acceptTextVariation_eq.
  destruct (posts w !! postId) as [post|]; [|by intros [= _ <-]].
  cbn zeta. destruct (view w _) as [|[tvs|] ivs]; try by intros [= _ <-].
  destruct (List.find _ tvs); [done|by intros [= _ <-]].
Qed.

(** ** [createTextVariations], step by step *)

Lemma parse_hashtags_eq (post : Post.t) (w : World) :
  parse_hashtags (Post.hashtags post) w =
  match hashtagsOf post with
  | Some tags => (Returned tags, w)
  | None => (Thrown SyntaxError, w)
  end.
Proof.
  unfold parse_hashtags, hashtagsOf.
  destruct (Post.hashtags post) as [[raw|tags]|]; cbn; try done.
  by destruct (truthy_string raw).
Qed.

Lemma createTextVariations_eq (env : Env) (input : CreateTextVariationsInput.t) (w : World) :
  createTextVariations env input w =
  let postId := CreateTextVariationsInput.postId input in
  match posts w !! postId with
  | None => (Thrown NotFound, w)
  | Some post =>
      match hashtagsOf post with
      | None => (Thrown SyntaxError, w)
      | Some hashtags =>
          match generateTextVariationsWithAI env (variationsRequest input post hashtags) with
          | Thrown e => (Thrown e, w)
          | Returned variations =>
              let history := parseHistory (Post.history post) in
              let records := imap (variationRecord env input) variations in
              match view w history with
              | JsonObject (Some tvs) ivs =>
                  let stored := JsonObject (Some (tvs ++ records)) ivs in
                  (Returned (variationResult <$> records),
                   mkWorld
                     (<[postId := foldl assign post
                                    [SetHistory (Some (JsonOf stored));
                                     SetUpdatedAt (clock env (length variations))]]>
                        (posts w))
                     (written_through history (emptyHistory w) (tvs ++ records)
                        (imageVariations (emptyHistory w))))
              | _ => (Thrown TypeError, w)
              end
          end
      end
  end.
Proof.
  unfold createTextVariations. cbn zeta. unfold bind at 1. unfold getPost at 1.
  destruct (posts w !! _) as [post|] eqn:Hpost; [|done].
  unfold bind at 1. rewrite parse_hashtags_eq.
  destruct (hashtagsOf post) as [hashtags|]; [|done].
  fold (variationsRequest input post hashtags).
  unfold bind at 1, await at 1.
  destruct (generateTextVariationsWithAI env _) as [variations|e]; [|done].
  unfold push_textVariations. unfold_async.
  destruct (parseHistory (Post.history post)) as [|[|[tvs|] ivs]]; cbn; try done.
  - by rewrite (alter_present _ _ _ _ Hpost).
  - by rewrite (alter_present _ _ _ _ Hpost).
Qed.

Lemma textVariationsOf_own (w : World) (post : Post.t) tvs ivs :
  reads_own_history w post →
  view w (parseHistory (Post.history post)) = JsonObject (Some tvs) ivs →
  textVariationsOf post = tvs.
Proof.
  unfold reads_own_history, textVariationsOf, route_parseHistory, parseHistory.
  destruct (truthy_text (Post.history post)); cbn.
  - destruct (Post.history post) as [[raw|v]|]; cbn.
    + intros ->. by intros [= <- <-].
    + by intros _ ->.
    + intros ->. by intros [= <- <-].
  - intros ->. by intros [= <- <-].
Qed.

Lemma imageVariationsOf_own (w : World) (post : Post.t) tvs ivs :
  reads_own_history w post →
  view w (parseHistory (Post.history post)) = JsonObject tvs (Some ivs) →
  imageVariationsOf post = ivs.
Proof.
  unfold reads_own_history, imageVariationsOf, route_parseHistory, parseHistory.
  destruct (truthy_text (Post.history post)); cbn.
  - destruct (Post.history post) as [[raw|v]|]; cbn.
    + intros ->. by intros [= <- <-].
    + by intros _ ->.
    + intros ->. by intros [= <- <-].
  - intros ->. by intros [= <- <-].
Qed.


(** ** [regenerateImage], step by step *)

Lemma produceImage_eq env style prompt postId w :
  produceImage env style prompt postId w = (imageOutcome env style prompt postId, w).
Proof. by destruct style. Qed.

Lemma history_eta (h : VariationHistory) :
  mkHistory (textVariations h) (imageVariations h) = h.
Proof. by destruct h. Qed.

Lemma regenerateImage_eq (env : Env) (input : RegenerateImageInput.t) (w : World) :
  regenerateImage env input w =
  let postId := RegenerateImageInput.postId input in
  match posts w !! postId with
  | None => (Thrown NotFound, w)
  | Some post =>
      match generateImprovedImagePrompt env (promptRequest input post) with
      | Thrown e => (Thrown e, w)
      | Returned improved =>
          let imagePrompt := ImprovedImagePrompt.imagePrompt improved in
          let history := parseHistory (Post.history post) in
          let archive := truthy_opt_string (Post.imageUrl post) in
          let outcome := imageOutcome env (Post.imageStyle post) imagePrompt (Post.id post) in
          match view w history with
          | JsonObject tvs (Some ivs) =>
              let ivs1 := if archive then ivs ++ [archivedImage env post] else ivs in
              let shared ivs' :=
                written_through history (emptyHistory w)
                  (textVariations (emptyHistory w)) ivs' in
              match outcome with
              | Thrown e => (Thrown e, mkWorld (posts w) (shared ivs1))
              | Returned uploaded =>
                  let ivs2 := ivs1 ++ [regeneratedImage env input archive imagePrompt uploaded] in
                  let post' := regenerated_post env post imagePrompt uploaded
                                 (JsonObject tvs (Some ivs2)) in
                  (Returned (Some post'),
                   mkWorld (<[postId := post']> (posts w)) (shared ivs2))
              end
          | _ =>
              if archive then (Thrown TypeError, w)
              else match outcome with
                   | Thrown e => (Thrown e, w)
                   | Returned _ => (Thrown TypeError, w)
                   end
          end
      end
  end.
Proof.
  unfold regenerateImage. cbn zeta. unfold bind at 1. unfold getPost at 1.
  destruct (posts w !! _) as [post|] eqn:Hpost; [|done].
  fold (promptRequest input post). unfold bind at 1, await at 1.
  destruct (generateImprovedImagePrompt env _) as [improved|e]; [|done].
  unfold push_imageVariations, regeneratedImage, regenerated_post.
  destruct (truthy_opt_string (Post.imageUrl post));
    destruct (parseHistory (Post.history post)) as [|[|tvs [ivs|]]];
    unfold_async; cbn; rewrite ?produceImage_eq;
    destruct (imageOutcome env (Post.imageStyle post)
                (ImprovedImagePrompt.imagePrompt improved) (Post.id post))
      as [uploaded|e]; cbn;
    rewrite ?(alter_present _ _ _ _ Hpost), ?lookup_insert_eq, ?history_eta, ?world_eta;
    done.
Qed.

Lemma regenerated_post_fields env post imagePrompt uploaded stored :
  let post' := regenerated_post env post imagePrompt uploaded stored in
  Post.imagePrompt post' = imagePrompt ∧
  Post.imageUrl post' = Some (UploadedImage.url uploaded) ∧
  Post.imageKey post' = Some (UploadedImage.key uploaded) ∧
  Post.history post' = Some (JsonOf stored) ∧
  Post.status post' = Post.status post ∧
  Post.id post' = Post.id post.
Proof. by destruct post. Qed.

(** With its own history read, a successful [regenerateImage] extends the
    image log of the post by the archived current image, when the post has
    an image URL, and then by the new image. *)
Lemma regenerateImage_appends
    (env : Env) (input : RegenerateImageInput.t) (w w' : World) (post : Post.t)
    (r : option Post.t) :
  let postId := RegenerateImageInput.postId input in
  let archive := truthy_opt_string (Post.imageUrl post) in
  posts w !! postId = Some post →
  reads_own_history w post →
  regenerateImage env input w = (Returned r, w') →
  ∃ improved uploaded post',
    r = Some post' ∧ posts w' !! postId = Some post' ∧
    generateImprovedImagePrompt env (promptRequest input post) = Returned improved ∧
    imageVariationsOf post' =
      imageVariationsOf post
        ++ (if archive then [archivedImage env post] else [])
        ++ [regeneratedImage env input archive
              (ImprovedImagePrompt.imagePrompt improved) uploaded].
Proof.
  intros postId archive Hpost Hown. rewrite regenerateImage_eq. fold postId.
  cbn zeta. rewrite Hpost.
  destruct (generateImprovedImagePrompt env _) as [improved|e]; [|done].
  fold archive.
  destruct (view w _) as [|tvs [ivs|]] eqn:Hview;
    try (destruct archive; [done|]; by destruct (imageOutcome env _ _ _)).
  destruct (imageOutcome env _ _ _) as [uploaded|e]; [|done].
  intros [= <- <-]. exists improved, uploaded. eexists.
  split; [done|]. cbn [posts]. rewrite lookup_insert_eq. split; [done|].
  split; [done|].
  rewrite (imageVariationsOf_own w post tvs ivs Hown Hview).
  unfold imageVariationsOf.
  destruct (regenerated_post_fields env post (ImprovedImagePrompt.imagePrompt improved)
              uploaded (JsonObject tvs
       (Some ((if archive then ivs ++ [archivedImage env post] else ivs)
              ++ [regeneratedImage env input archive
                    (ImprovedImagePrompt.imagePrompt improved) uploaded]))))
    as (_ & _ & _ & -> & _).
  cbn. destruct archive; by rewrite <- ?app_assoc.
Qed.

(** ** Status changes and deletion *)

Lemma db_update_absent (sets : list Assignment) (id : string) (w : World) :
  posts w !! id = None → db_update sets id w = (Returned tt, w).
Proof.
  intros Hid. unfold db_update. by rewrite (alter_absent _ _ _ Hid), world_eta.
Qed.

(** C8, as amended.  On an id that is not in the table each status change
    ([approvePost], [rejectPost], [markPostAsPosted]) completes without an
    error, returns no post ([undefined]) and leaves the world as it was. *)
Theorem status_change_absent_post
    (env : Env) (id : string) (user : option User.t) (w : World) :
  posts w !! id = None →
  approvePost env id user w = (Returned None, w) ∧
  rejectPost env id user w = (Returned None, w) ∧
  markPostAsPosted env id user w = (Returned None, w).
Proof.
  intros Hid. unfold approvePost, rejectPost, markPostAsPosted, bind.
  rewrite !(db_update_absent _ _ _ Hid). unfold getPost. by rewrite Hid.
Qed.

Lemma deletePost_rows (env : Env) (id : string) (w : World) :
  posts (snd (deletePost env id w)) = delete id (posts w) ∧
  emptyHistory (snd (deletePost env id w)) = emptyHistory w.
Proof.
  unfold deletePost, bind, getPost.
  destruct (posts w !! id ≫= Post.imageKey) as [key|]; [|done].
  destruct (truthy_string key); [|done].
  unfold try_catch, await. by destruct (deleteImageFromR2 env key) as [[]|e].
Qed.

(** C10.  [deletePost(id)] returns normally for every id, world and
    behaviour of the blob store; the table afterwards is the old one without
    the key, and when the id was not in the table the world is unchanged. *)
Theorem deletePost_total (env : Env) (id : string) (w : World) :
  ∃ w',
    deletePost env id w = (Returned tt, w') ∧
    posts w' = delete id (posts w) ∧
    emptyHistory w' = emptyHistory w ∧
    (posts w !! id = None → w' = w).
Proof.
  exists (mkWorld (delete id (posts w)) (emptyHistory w)).
  split.
  - unfold deletePost, bind, getPost.
    destruct (posts w !! id ≫= Post.imageKey) as [key|]; [|done].
    destruct (truthy_string key); [|done].
    unfold try_catch, await. by destruct (deleteImageFromR2 env key) as [[]|e].
  - do 2 (split; [done|]). intros Hid. by rewrite (delete_id _ _ Hid), world_eta.
Qed.

(** ** [generatePostsBatch] *)

(** The [try]/[catch] never lets the exception of the image producer out. *)
Lemma candidateImage_eq env content postId w :
  candidateImage env content postId w =
  (Returned (imageColumns (imageOutcome env (GeneratedPost.imageStyle content)
                             (GeneratedPost.imagePrompt content) postId)), w).
Proof.
  unfold candidateImage, try_catch, bind. rewrite produceImage_eq.
  by destruct (imageOutcome env _ _ _).
Qed.

Lemma for_of_generateOne
    (env : Env) (options : option GeneratePostsBatchOptions.t)
    (cs : list GeneratedPost.t) (k : nat) (w : World) :
  (∀ i, i < length cs → posts w !! nanoid env (S (k + i)) = None) →
  (∀ i j, i < length cs → j < length cs →
          nanoid env (S (k + i)) = nanoid env (S (k + j)) → i = j) →
  ∃ w',
    for_of (generateOne env (nanoid env 0) (clock env 0)
              (User.id <$> (options ≫= GeneratePostsBatchOptions.createdBy))) k cs w
      = (Returned (imap (λ i, batchPost env options (k + i)) cs), w') ∧
    emptyHistory w' = emptyHistory w ∧
    (∀ i c, cs !! i = Some c →
            posts w' !! nanoid env (S (k + i)) = Some (batchPost env options (k + i) c)) ∧
    (∀ id, (∀ i, i < length cs → id ≠ nanoid env (S (k + i))) →
           posts w' !! id = posts w !! id).
Proof.
  revert k w. induction cs as [|c cs IH]; intros k w Hfresh Hinj.
  - exists w. cbn. repeat split; try done.
  - assert (Hhead : posts w !! nanoid env (S k) = None).
    { specialize (Hfresh 0). rewrite Nat.add_0_r in Hfresh. apply Hfresh. cbn. lia. }
    assert (Hdiff : ∀ i, i < length cs → nanoid env (S k) ≠ nanoid env (S (S k + i))).
    { intros i Hi Heq. specialize (Hinj 0 (S i)).
      rewrite Nat.add_0_r, Nat.add_succ_r in Hinj.
      cbn in Hinj. specialize (Hinj ltac:(lia) ltac:(lia) Heq). lia. }
    set (p := batchPost env options k c).
    set (w1 := mkWorld (<[nanoid env (S k) := p]> (posts w)) (emptyHistory w)).
    destruct (IH (S k) w1) as (w' & Hrun & Hempty & Hnew & Hold).
    { intros i Hi. cbn [posts w1]. rewrite lookup_insert_ne by by apply Hdiff.
      specialize (Hfresh (S i)). rewrite Nat.add_succ_r in Hfresh.
      apply Hfresh. cbn. lia. }
    { intros i j Hi Hj Heq. specialize (Hinj (S i) (S j)).
      rewrite !Nat.add_succ_r in Hinj. cbn in Hinj.
      specialize (Hinj ltac:(lia) ltac:(lia) Heq). lia. }
    exists w'. split; [|split; [|split]].
    + cbn [for_of]. unfold bind at 1. unfold generateOne at 1. unfold bind at 1.
      rewrite candidateImage_eq. unfold db_insert.
      cbn [Post.id newPost]. rewrite Hhead.
      fold (batchPost env options k c). fold p. fold w1.
      unfold bind at 1. rewrite Hrun. unfold ret.
      rewrite imap_cons, Nat.add_0_r. do 3 f_equal.
      apply imap_ext. intros i x _. cbn. f_equal. lia.
    + by rewrite Hempty.
    + intros [|i] x Hi.
      * cbn in Hi. injection Hi as <-. rewrite Nat.add_0_r.
        rewrite Hold; [by apply lookup_insert_eq|].
        intros i Hi. by apply Hdiff.
      * cbn in Hi. rewrite Nat.add_succ_r. by apply Hnew.
    + intros id Hid. rewrite Hold.
      * cbn [posts w1]. apply lookup_insert_ne.
        specialize (Hid 0). rewrite Nat.add_0_r in Hid.
        intros Heq. apply Hid; [cbn; lia|done].
      * intros i Hi. specialize (Hid (S i)). rewrite Nat.add_succ_r in Hid.
        apply Hid. cbn. lia.
Qed.

(** The row of a candidate is the same under two environments that draw
    the same ids at the same time and in which the image producer of this
    candidate settles the same way: how the producers of the other
    candidates settle does not enter. *)
Lemma batchPost_own_outcome
    (env env' : Env) (options : option GeneratePostsBatchOptions.t)
    (i : nat) (c : GeneratedPost.t) :
  nanoid env 0 = nanoid env' 0 →
  nanoid env (S i) = nanoid env' (S i) →
  clock env 0 = clock env' 0 →
  imageOutcome env (GeneratedPost.imageStyle c) (GeneratedPost.imagePrompt c)
      (nanoid env (S i))
    = imageOutcome env' (GeneratedPost.imageStyle c) (GeneratedPost.imagePrompt c)
        (nanoid env' (S i)) →
  batchPost env options i c = batchPost env' options i c.
Proof. unfold batchPost. cbn zeta. by intros -> -> -> ->. Qed.

(** C9.  When the content generator has returned the candidates [cs] and the
    ids drawn for them are new and pairwise distinct, [generatePostsBatch]
    returns, whatever the image producers do: one row per candidate, in
    order, each inserted with status [draft] and the batch id of the call;
    the row of a candidate carries the url and key of its own image when its
    producer returned and [null] in both columns when it threw, and is a
    function of that candidate and that outcome alone. *)
Theorem generatePostsBatch_partial_failure
    (env : Env) (options : option GeneratePostsBatchOptions.t) (w : World)
    (cs : list GeneratedPost.t) :
  generatePostsWithAI env (contentRequest options) = Returned cs →
  (∀ i, i < length cs → posts w !! nanoid env (S i) = None) →
  (∀ i j, i < length cs → j < length cs →
          nanoid env (S i) = nanoid env (S j) → i = j) →
  ∃ ps w',
    generatePostsBatch env options w
      = (Returned (GenerateBatchResult.mk (nanoid env 0) ps), w') ∧
    length ps = length cs ∧
    ∀ i c, cs !! i = Some c →
      ∃ p, ps !! i = Some p ∧
           posts w' !! nanoid env (S i) = Some p ∧
           p = batchPost env options i c ∧
           Post.id p = nanoid env (S i) ∧
           Post.status p = Draft ∧
           Post.batchId p = nanoid env 0 ∧
           Post.hook p = GeneratedPost.hook c ∧
           Post.caption p = GeneratedPost.caption c ∧
           match imageOutcome env (GeneratedPost.imageStyle c)
                   (GeneratedPost.imagePrompt c) (nanoid env (S i)) with
           | Returned uploaded =>
               Post.imageUrl p = Some (UploadedImage.url uploaded) ∧
               Post.imageKey p = Some (UploadedImage.key uploaded)
           | Thrown _ => Post.imageUrl p = None ∧ Post.imageKey p = None
           end.
Proof.
  intros Hgen Hfresh Hinj.
  destruct (for_of_generateOne env options cs 0 w Hfresh Hinj)
    as (w' & Hrun & _ & Hnew & _).
  eexists _, w'. split; [|split].
  - unfold generatePostsBatch. cbn zeta. fold (contentRequest options).
    unfold bind at 1, await. rewrite Hgen. unfold bind at 1. rewrite Hrun. done.
  - by rewrite length_imap.
  - intros i c Hi. exists (batchPost env options i c).
    split; [by rewrite list_lookup_imap, Hi|].
    split; [by apply (Hnew i c)|].
    split; [done|]. unfold batchPost, newPost. cbn.
    do 5 (split; [done|]).
    by destruct (imageOutcome env _ _ _).
Qed.

(** ** Distinct ids in every reachable world

    That the ids of a log are pairwise distinct is an invariant of the
    service, given that [nanoid] does not repeat. *)

Lemma variationRecord_ids env input (variations : list TextVariationOutput.t) :
  text_ids (imap (variationRecord env input) variations)
  = nanoid env <$> seq 0 (length variations).
Proof.
  unfold text_ids. apply list_eq. intros i.
  rewrite !list_lookup_fmap, list_lookup_imap.
  destruct (variations !! i) as [v|] eqn:Hi; cbn.
  - apply lookup_lt_Some in Hi. by rewrite lookup_seq_lt.
  - apply lookup_ge_None in Hi. by rewrite lookup_seq_ge.
Qed.

Lemma appended_ids_distinct env input (tvs : list TextVariation.t)
    (variations : list TextVariationOutput.t) :
  (∀ i j, nanoid env i = nanoid env j → i = j) →
  (∀ i, nanoid env i ∉ text_ids tvs) →
  NoDup (text_ids tvs) →
  NoDup (text_ids (tvs ++ imap (variationRecord env input) variations)).
Proof.
  intros Hinj Hnew Hnd. unfold text_ids. rewrite fmap_app.
  fold (text_ids tvs). fold (text_ids (imap (variationRecord env input) variations)).
  rewrite variationRecord_ids. apply NoDup_app. split; [done|]. split.
  - intros x Hx (i & -> & _)%list_elem_of_fmap. by apply (Hnew i).
  - apply NoDup_fmap_2_strong; [|apply NoDup_seq].
    intros i j _ _. apply Hinj.
Qed.

Lemma textVariationsOf_history (post : Post.t) tvs ivs :
  Post.history post = Some (JsonOf (JsonObject tvs ivs)) →
  textVariationsOf post = default [] tvs.
Proof. intros H. unfold textVariationsOf. rewrite H. cbn. by destruct tvs. Qed.

(** The log a call reads is the shared one or the post's own. *)
Lemma view_log (w : World) (post : Post.t) tvs ivs :
  view w (parseHistory (Post.history post)) = JsonObject tvs ivs →
  (parseHistory (Post.history post) = EmptyHistoryObject ∧
   tvs = Some (textVariations (emptyHistory w))) ∨
  ((∃ v, parseHistory (Post.history post) = ParsedObject v) ∧
   textVariationsOf post = default [] tvs).
Proof.
  unfold parseHistory, textVariationsOf, route_parseHistory.
  destruct (truthy_text (Post.history post)); cbn.
  - destruct (Post.history post) as [[raw|v]|]; cbn.
    + intros [= <- _]. by left.
    + intros ->. right. split; [by eexists|]. by destruct tvs.
    + intros [= <- _]. by left.
  - intros [= <- _]. by left.
Qed.

Lemma view_log_distinct (w : World) (key : string) (post : Post.t) tvs ivs :
  distinct_ids w → posts w !! key = Some post →
  view w (parseHistory (Post.history post)) = JsonObject tvs ivs →
  NoDup (text_ids (default [] tvs)).
Proof.
  intros [Hshared Hrows] Hpost [[_ ->]|[_ <-]]%view_log; [done|].
  by apply (Hrows key).
Qed.

Lemma view_log_unused (w : World) (key : string) (post : Post.t) tvs ivs x :
  unused_id w x → posts w !! key = Some post →
  view w (parseHistory (Post.history post)) = JsonObject tvs ivs →
  x ∉ text_ids (default [] tvs).
Proof.
  intros [Hshared Hrows] Hpost [[_ ->]|[_ <-]]%view_log; [done|].
  by apply (Hrows key).
Qed.

Lemma distinct_ids_write (w : World) (key : string) (post' : Post.t)
    (shared : VariationHistory) :
  distinct_ids w →
  NoDup (text_ids (textVariations shared)) →
  NoDup (text_ids (textVariationsOf post')) →
  distinct_ids (mkWorld (<[key := post']> (posts w)) shared).
Proof.
  intros [_ Hrows] Hshared Hpost'. split; [done|].
  intros k p. cbn [posts]. rewrite lookup_insert. case_decide.
  - by intros [= <-].
  - apply Hrows.
Qed.

Lemma written_through_distinct history (w : World) tvs tvs' ivs ivs' :
  distinct_ids w →
  view w history = JsonObject tvs ivs →
  (history = EmptyHistoryObject → NoDup (text_ids tvs')) →
  NoDup (text_ids (textVariations (written_through history (emptyHistory w) tvs' ivs'))).
Proof.
  intros [Hshared _] Hview Htvs'. destruct history; cbn; [by apply Htvs'|done].
Qed.

Lemma createTextVariations_distinct_ids env input (w : World) :
  distinct_ids w → draws_new_ids env w →
  distinct_ids (snd (createTextVariations env input w)).
Proof.
  intros Hinv [Hinj Hnew]. rewrite createTextVariations_eq. cbn zeta.
  destruct (posts w !! _) as [post|] eqn:Hpost; [|done].
  destruct (hashtagsOf post); [|done].
  destruct (generateTextVariationsWithAI env _) as [variations|]; [|done].
  destruct (view w _) as [|[tvs|] ivs] eqn:Hview; try done.
  assert (Hlog : NoDup (text_ids (tvs ++ imap (variationRecord env input) variations))).
  { apply appended_ids_distinct; [done| |].
    - intros i. apply (view_log_unused w _ post (Some tvs) ivs _ (Hnew i) Hpost Hview).
    - apply (view_log_distinct w _ post (Some tvs) ivs Hinv Hpost Hview). }
  cbn [snd]. apply distinct_ids_write; [done| |].
  - by eapply written_through_distinct.
  - rewrite (textVariationsOf_history _
      (Some (tvs ++ imap (variationRecord env input) variations)) ivs);
      [exact Hlog|by destruct post].
Qed.

Lemma acceptTextVariation_distinct_ids env postId variationId (w : World) :
  distinct_ids w → distinct_ids (snd (acceptTextVariation env postId variationId w)).
Proof.
  intros Hinv. rewrite acceptTextVariation_eq.
  destruct (posts w !! postId) as [post|] eqn:Hpost; [|done].
  cbn zeta. destruct (view w _) as [|[tvs|] ivs] eqn:Hview; try done.
  destruct (List.find _ tvs) as [variation|]; [|done].
  assert (Hlog : NoDup (text_ids (mark_accepted variationId <$> tvs))).
  { unfold text_ids. rewrite mark_accepted_ids.
    apply (view_log_distinct w _ post (Some tvs) ivs Hinv Hpost Hview). }
  cbn [snd]. apply distinct_ids_write; [done| |].
  - by eapply written_through_distinct.
  - rewrite (textVariationsOf_history _ (Some (mark_accepted variationId <$> tvs)) ivs);
      [exact Hlog|apply accepted_post_fields].
Qed.

Lemma regenerateImage_distinct_ids env input (w : World) :
  distinct_ids w → distinct_ids (snd (regenerateImage env input w)).
Proof.
  intros Hinv. rewrite regenerateImage_eq. cbn zeta.
  destruct (posts w !! _) as [post|] eqn:Hpost; [|done].
  destruct (generateImprovedImagePrompt env _) as [improved|]; [|done].
  destruct (view w _) as [|tvs [ivs|]] eqn:Hview;
    try (destruct (truthy_opt_string _); [done|]; by destruct (imageOutcome env _ _ _)).
  assert (Hshared : ∀ ivs',
    NoDup (text_ids (textVariations
      (written_through (parseHistory (Post.history post)) (emptyHistory w)
         (textVariations (emptyHistory w)) ivs')))).
  { intros ivs'. eapply written_through_distinct; [done..|]. intros _. apply Hinv. }
  destruct (imageOutcome env _ _ _) as [uploaded|e]; cbn [snd].
  - apply distinct_ids_write; [done|apply Hshared|].
    erewrite (textVariationsOf_history _ tvs); [|apply regenerated_post_fields].
    apply (view_log_distinct w _ post tvs (Some ivs) Hinv Hpost Hview).
  - split; [apply Hshared|apply Hinv].
Qed.

Lemma db_update_distinct_ids (sets : list Assignment) (id : string) (w : World) :
  (∀ post, Post.history (foldl assign post sets) = Post.history post) →
  distinct_ids w → distinct_ids (snd (db_update sets id w)).
Proof.
  intros Hsame [Hshared Hrows]. split; [done|].
  intros key post. cbn. rewrite lookup_alter. case_decide as Hkey.
  - subst key. destruct (posts w !! id) as [old|] eqn:Hold; [|done].
    intros [= <-]. unfold textVariationsOf. rewrite Hsame. by apply (Hrows id).
  - apply Hrows.
Qed.

Lemma for_of_generateOne_distinct_ids env batchId now createdBy
    (cs : list GeneratedPost.t) (k : nat) (w : World) :
  distinct_ids w →
  distinct_ids (snd (for_of (generateOne env batchId now createdBy) k cs w)).
Proof.
  revert k w. induction cs as [|c cs IH]; intros k w Hinv; [done|].
  cbn [for_of]. unfold bind at 1. unfold generateOne at 1. unfold bind at 1.
  rewrite candidateImage_eq. unfold db_insert. cbn [Post.id newPost].
  destruct (posts w !! nanoid env (S k)); [done|].
  unfold bind at 1.
  match goal with
  | |- context [for_of ?body ?i cs ?w1] =>
      specialize (IH i w1); destruct (for_of body i cs w1) as [[ps|e] w2]
  end.
  - cbn in *. apply IH. apply distinct_ids_write; [done|apply Hinv|]. constructor.
  - cbn in *. apply IH. apply distinct_ids_write; [done|apply Hinv|]. constructor.
Qed.

Lemma handle_distinct_ids env request (w : World) :
  distinct_ids w → draws_new_ids env w → distinct_ids (handle env request w).
Proof.
  intros Hinv Hnew. destruct request as [options|id user|id user|id user|id| | |]; cbn [handle].
  - unfold generatePostsBatch. cbn zeta. unfold bind at 1, await.
    destruct (generatePostsWithAI env _) as [cs|]; [|done].
    unfold bind.
    pose proof (for_of_generateOne_distinct_ids env (nanoid env 0) (clock env 0)
      (User.id <$> (options ≫= GeneratePostsBatchOptions.createdBy)) cs 0 w Hinv) as H.
    by destruct (for_of _ 0 cs w) as [[ps|e] w'].
  - unfold approvePost, bind, getPost.
    apply (db_update_distinct_ids _ id w); [by intros []|done].
  - unfold rejectPost, bind, getPost.
    apply (db_update_distinct_ids _ id w); [by intros []|done].
  - unfold markPostAsPosted, bind, getPost.
    apply (db_update_distinct_ids _ id w); [by intros []|done].
  - destruct (deletePost_rows env id w) as [Hrows Hshared].
    unfold distinct_ids. rewrite Hrows, Hshared.
    split; [apply Hinv|]. intros key post [_ Hkey]%lookup_delete_Some.
    by apply (proj2 Hinv key).
  - by apply createTextVariations_distinct_ids.
  - by apply acceptTextVariation_distinct_ids.
  - by apply regenerateImage_distinct_ids.
Qed.

(** In every reachable world the ids of each log are pairwise distinct. *)
Lemma reachable_distinct_ids (w : World) : reachable w → distinct_ids w.
Proof.
  induction 1 as [|w env request _ IH Hnew|w _ IH].
  - split; [constructor|]. intros key post Hpost. cbn in Hpost.
    by rewrite lookup_empty in Hpost.
  - by apply handle_distinct_ids.
  - split; [constructor|apply IH].
Qed.

(** C1.  After a successful [acceptTextVariation(postId, variationId)] the
    post returned and stored has, in its text-variation log, [accepted] true
    on the entries whose id is [variationId] and false on every other entry.
    With the ids of the log pairwise distinct that is exactly one entry, the
    one with id [variationId]; and the ids are distinct in every world the
    service reaches while [nanoid] does not repeat. *)
Theorem acceptTextVariation_exclusive
    (env : Env) (postId variationId : string) (w w' : World) (r : option Post.t) :
  acceptTextVariation env postId variationId w = (Returned r, w') →
  ∃ post',
    r = Some post' ∧ posts w' !! postId = Some post' ∧
    (∀ v, v ∈ textVariationsOf post' →
          TextVariation.accepted v = bool_decide (TextVariation.id v = variationId)) ∧
    (NoDup (TextVariation.id <$> textVariationsOf post') →
     only_accepted variationId (textVariationsOf post')) ∧
    (reachable w → only_accepted variationId (textVariationsOf post')).
Proof.
  intros Hrun.
  assert (Hreach : reachable w → distinct_ids w') .
  { intros Hw%reachable_distinct_ids.
    pose proof (acceptTextVariation_distinct_ids env postId variationId w Hw) as H.
    by rewrite Hrun in H. }
  revert Hrun Hreach. rewrite acceptTextVariation_eq.
  destruct (posts w !! postId) as [post|]; [|done].
  cbn zeta. destruct (view w _) as [|[tvs|] ivs]; try done.
  destruct (List.find _ tvs) as [variation|] eqn:Hfind; [|done].
  intros [= <- <-] Hreach. eexists. split; [done|].
  cbn [posts] in *. rewrite lookup_insert_eq.
  split; [done|].
  destruct (accepted_post_fields env post variation
              (JsonObject (Some (mark_accepted variationId <$> tvs)) ivs))
    as (_ & _ & _ & Hhist & _).
  rewrite (textVariationsOf_stored _ _ _ Hhist) in *.
  apply find_id_Some in Hfind as [Hin Hid].
  split; [apply mark_accepted_flag|].
  assert (Honly : NoDup (TextVariation.id <$> (mark_accepted variationId <$> tvs)) →
                  only_accepted variationId (mark_accepted variationId <$> tvs)).
  { rewrite mark_accepted_ids. by apply (mark_accepted_only _ _ variation). }
  split; [exact Honly|].
  intros Hw. apply Honly.
  destruct (Hreach Hw) as [_ Hrows].
  specialize (Hrows postId _ (lookup_insert_eq _ _ _)).
  by rewrite (textVariationsOf_stored _ _ _ Hhist) in Hrows.
Qed.

(** C2.  For a post [P] of the table and an entry [V] of its log, the ids
    of the log being pairwise distinct (as they are in every reachable
    world), [acceptTextVariation(P.id, V.id)] succeeds and the post it
    returns has [V]'s hook and caption and the JSON text of [V]'s hashtags;
    accepting [V] once more succeeds with the same three canonical fields
    and the same stored log, flags included. *)
Theorem acceptTextVariation_copies_idempotent
    (env1 env2 : Env) (w : World) (postId : string) (P : Post.t) (V : TextVariation.t) :
  posts w !! postId = Some P →
  V ∈ textVariationsOf P →
  NoDup (TextVariation.id <$> textVariationsOf P) ∨ reachable w →
  ∃ p1 w1,
    acceptTextVariation env1 postId (TextVariation.id V) w = (Returned (Some p1), w1) ∧
    posts w1 !! postId = Some p1 ∧
    Post.hook p1 = TextVariation.hook V ∧
    Post.caption p1 = TextVariation.caption V ∧
    Post.hashtags p1 = Some (JsonOf (TextVariation.hashtags V)) ∧
    ∃ p2 w2,
      acceptTextVariation env2 postId (TextVariation.id V) w1 = (Returned (Some p2), w2) ∧
      Post.hook p2 = Post.hook p1 ∧
      Post.caption p2 = Post.caption p1 ∧
      Post.hashtags p2 = Post.hashtags p1 ∧
      Post.history p2 = Post.history p1.
Proof.
  intros HP HV Hids.
  assert (Hnd : NoDup (TextVariation.id <$> textVariationsOf P)).
  { destruct Hids as [Hnd|Hw]; [done|].
    by apply (proj2 (reachable_distinct_ids w Hw) postId). }
  destruct (textVariationsOf_nonempty P V HV) as [ivs Hhist].
  pose proof (acceptTextVariation_eq env1 postId (TextVariation.id V) w) as Hrun.
  rewrite HP in Hrun. cbn zeta in Hrun. rewrite Hhist in Hrun.
  cbn [parseHistory truthy_text negb view] in Hrun.
  rewrite (find_id_NoDup _ V Hnd HV) in Hrun.
  do 2 eexists. split; [exact Hrun|].
  cbn [posts]. rewrite lookup_insert_eq. split; [done|].
  destruct (accepted_post_fields env1 P V
    (JsonObject (Some (mark_accepted (TextVariation.id V) <$> textVariationsOf P)) ivs))
    as (Hhook & Hcap & Htags & _).
  do 3 (split; [done|]).
  exact (acceptTextVariation_again env1 env2 _ _ _ _ _ Hrun).
Qed.

(** ** Image URLs in every reachable world

    Both producers return the public URL of the key they stored, a text
    that is never empty; so the test [if (post.imageUrl)] of
    [regenerateImage] separates the posts with an image URL from those
    with [NULL]. *)

Lemma uploadBufferToR2_url env filename uploaded :
  uploadBufferToR2 env filename = Returned uploaded →
  UploadedImage.url uploaded ≠ "".
Proof.
  unfold uploadBufferToR2. cbn zeta. destruct (BUCKET_put env _); [|done].
  intros [= <-]. cbn. by destruct (CDN_URL env).
Qed.

Lemma imageOutcome_url env style prompt postId uploaded :
  imageOutcome env style prompt postId = Returned uploaded →
  UploadedImage.url uploaded ≠ "".
Proof.
  destruct style; cbn.
  - unfold generateAndUploadImage. destruct (generateImageBuffer env prompt); [|done].
    apply uploadBufferToR2_url.
  - unfold generateTextCard. cbn zeta. destruct (BUCKET_put env _); [|done].
    by intros [= <-].
Qed.

Lemma image_urls_write (w : World) (key : string) (post' : Post.t)
    (shared : VariationHistory) :
  image_urls_nonempty w → Post.imageUrl post' ≠ Some "" →
  image_urls_nonempty (mkWorld (<[key := post']> (posts w)) shared).
Proof. intros Hinv Hpost'. by apply map_Forall_insert_2. Qed.

Lemma db_update_image_urls (sets : list Assignment) (id : string) (w : World) :
  (∀ post, Post.imageUrl (foldl assign post sets) = Post.imageUrl post) →
  image_urls_nonempty w → image_urls_nonempty (snd (db_update sets id w)).
Proof.
  intros Hsame Hinv key post. cbn. rewrite lookup_alter. case_decide as Hkey.
  - subst key. destruct (posts w !! id) as [old|] eqn:Hold; [|done].
    intros [= <-]. rewrite Hsame. by apply (Hinv id).
  - apply Hinv.
Qed.

Lemma for_of_generateOne_image_urls env batchId now createdBy
    (cs : list GeneratedPost.t) (k : nat) (w : World) :
  image_urls_nonempty w →
  image_urls_nonempty (snd (for_of (generateOne env batchId now createdBy) k cs w)).
Proof.
  revert k w. induction cs as [|c cs IH]; intros k w Hinv; [done|].
  cbn [for_of]. unfold bind at 1. unfold generateOne at 1. unfold bind at 1.
  rewrite candidateImage_eq. unfold db_insert. cbn [Post.id newPost].
  destruct (posts w !! nanoid env (S k)); [done|].
  unfold bind at 1.
  match goal with
  | |- context [for_of ?body ?i cs ?w1] =>
      specialize (IH i w1); destruct (for_of body i cs w1) as [[ps|e] w2]
  end; cbn in *; apply IH; apply image_urls_write; try done;
    destruct (imageOutcome env _ _ _) as [uploaded|] eqn:Hout; cbn; try done;
    intros [= Hurl]; by apply imageOutcome_url in Hout.
Qed.

Lemma handle_image_urls env request (w : World) :
  image_urls_nonempty w → image_urls_nonempty (handle env request w).
Proof.
  intros Hinv. destruct request as [options|id user|id user|id user|id|input|postId vid|input];
    cbn [handle].
  - unfold generatePostsBatch. cbn zeta. unfold bind at 1, await.
    destruct (generatePostsWithAI env _) as [cs|]; [|done].
    unfold bind.
    pose proof (for_of_generateOne_image_urls env (nanoid env 0) (clock env 0)
      (User.id <$> (options ≫= GeneratePostsBatchOptions.createdBy)) cs 0 w Hinv) as H.
    by destruct (for_of _ 0 cs w) as [[ps|e] w'].
  - unfold approvePost, bind, getPost.
    apply (db_update_image_urls _ id w); [by intros []|done].
  - unfold rejectPost, bind, getPost.
    apply (db_update_image_urls _ id w); [by intros []|done].
  - unfold markPostAsPosted, bind, getPost.
    apply (db_update_image_urls _ id w); [by intros []|done].
  - destruct (deletePost_rows env id w) as [Hrows _].
    unfold image_urls_nonempty. rewrite Hrows. by apply map_Forall_delete.
  - rewrite createTextVariations_eq. cbn zeta.
    destruct (posts w !! _) as [post|] eqn:Hpost; [|done].
    destruct (hashtagsOf post); [|done].
    destruct (generateTextVariationsWithAI env _) as [variations|]; [|done].
    destruct (view w _) as [|[tvs|] ivs]; try done.
    cbn [snd]. apply image_urls_write; [done|].
    specialize (Hinv _ _ Hpost). by destruct post.
  - rewrite acceptTextVariation_eq.
    destruct (posts w !! postId) as [post|] eqn:Hpost; [|done].
    cbn zeta. destruct (view w _) as [|[tvs|] ivs]; try done.
    destruct (List.find _ tvs) as [variation|]; [|done].
    cbn [snd]. apply image_urls_write; [done|].
    specialize (Hinv _ _ Hpost). by destruct post.
  - rewrite regenerateImage_eq. cbn zeta.
    destruct (posts w !! _) as [post|] eqn:Hpost; [|done].
    destruct (generateImprovedImagePrompt env _) as [improved|]; [|done].
    destruct (view w _) as [|tvs [ivs|]];
      try (destruct (truthy_opt_string _); [done|]; by destruct (imageOutcome env _ _ _)).
    destruct (imageOutcome env _ _ _) as [uploaded|e] eqn:Hout; [|done].
    cbn [snd]. apply image_urls_write; [done|].
    destruct (regenerated_post_fields env post (ImprovedImagePrompt.imagePrompt improved)
                uploaded (JsonObject tvs (Some
                  ((if truthy_opt_string (Post.imageUrl post)
                    then ivs ++ [archivedImage env post] else ivs)
                   ++ [regeneratedImage env input (truthy_opt_string (Post.imageUrl post))
                         (ImprovedImagePrompt.imagePrompt improved) uploaded]))))
      as (_ & -> & _).
    intros [= Hurl]. by apply imageOutcome_url in Hout.
Qed.

Lemma reachable_image_urls (w : World) : reachable w → image_urls_nonempty w.
Proof.
  induction 1 as [|w env request _ IH _|w _ IH].
  - apply map_Forall_empty.
  - by apply handle_image_urls.
  - exact IH.
Qed.

(** In a reachable world [regenerateImage] archives the current image
    exactly when the post has an image URL. *)
Lemma reachable_archives (w : World) (key : string) (post : Post.t) :
  reachable w → posts w !! key = Some post →
  truthy_opt_string (Post.imageUrl post) = bool_decide (is_Some (Post.imageUrl post)).
Proof.
  intros Hw%reachable_image_urls Hpost. specialize (Hw key post Hpost). cbn in Hw.
  destruct (Post.imageUrl post) as [url|]; cbn; [|done].
  unfold truthy_string. by rewrite bool_decide_eq_false_2 by congruence.
Qed.

(** The image log where the call reads the post's own history, in a
    reachable world: with an image URL the log grows by the archived image, marked
    "original", not accepted and dated at the creation of the post, and then
    by the new image, accepted, with the caller's feedback and dated now;
    without one it grows by the new image only. *)
Lemma regenerateImage_appends_reachable
    (env : Env) (input : RegenerateImageInput.t) (w w' : World) (post : Post.t)
    (r : option Post.t) :
  let postId := RegenerateImageInput.postId input in
  reachable w →
  posts w !! postId = Some post →
  reads_own_history w post →
  regenerateImage env input w = (Returned r, w') →
  ∃ post' new,
    r = Some post' ∧ posts w' !! postId = Some post' ∧
    ImageVariation.feedback new = RegenerateImageInput.feedback input ∧
    ImageVariation.accepted new = true ∧
    ImageVariation.createdAt new = toISOString (clock env 0) ∧
    (is_Some (Post.imageUrl post) →
     imageVariationsOf post' =
       imageVariationsOf post
         ++ [ImageVariation.mk (nanoid env 0) (Post.imagePrompt post)
               (Post.imageUrl post) (Post.imageKey post) "original"
               (toISOString (Post.createdAt post)) false;
             new]) ∧
    (Post.imageUrl post = None →
     imageVariationsOf post' = imageVariationsOf post ++ [new]).
Proof.
  intros postId Hw Hpost Hown Hrun.
  destruct (regenerateImage_appends env input w w' post r Hpost Hown Hrun)
    as (improved & uploaded & post' & Hr & Hstored & _ & Hlog).
  rewrite (reachable_archives w postId post Hw Hpost) in Hlog.
  destruct (bool_decide (is_Some (Post.imageUrl post))) eqn:Hb.
  - apply bool_decide_eq_true in Hb.
    exists post', (regeneratedImage env input true
                     (ImprovedImagePrompt.imagePrompt improved) uploaded).
    do 5 (split; [done|]). split; [done|].
    intros Hnone. rewrite Hnone in Hb. by destruct Hb.
  - apply bool_decide_eq_false in Hb.
    exists post', (regeneratedImage env input false
                     (ImprovedImagePrompt.imagePrompt improved) uploaded).
    by do 5 (split; [done|]).
Qed.

(** * The scenario

    The worlds of the scenario are reachable: they come from the new
    isolate by the batch and one more request, with ids that never repeat. *)

Import Scenario.

Lemma append_inj_l (prefix s t : string) : prefix +:+ s = prefix +:+ t → s = t.
Proof. induction prefix as [|a prefix IH]; cbn; [done|]. intros [= H]. by apply IH. Qed.

Lemma answers_nanoid_inj tag now drafts lost (i j : nat) :
  nanoid (answers tag now drafts lost) i = nanoid (answers tag now drafts lost) j → i = j.
Proof. cbn. intros H%append_inj_l%append_inj_l. by apply (inj pretty). Qed.

(** Where no log has an entry every id is unused. *)
Lemma draws_new_ids_no_variations tag now drafts lost (w : World) :
  textVariations (emptyHistory w) = [] →
  map_Forall (λ _ post, textVariationsOf post = []) (posts w) →
  draws_new_ids (answers tag now drafts lost) w.
Proof.
  intros Hshared Hrows. split; [apply answers_nanoid_inj|].
  intros i. split.
  - rewrite Hshared. apply not_elem_of_nil.
  - intros key post Hpost. rewrite (Hrows key post Hpost). apply not_elem_of_nil.
Qed.

Lemma after_batch_no_variations :
  textVariations (emptyHistory after_batch) = [] ∧
  map_Forall (λ _ post, textVariationsOf post = []) (posts after_batch).
Proof.
  split; [vm_compute; reflexivity|].
  apply (bool_decide_unpack _). vm_compute. exact I.
Qed.

Lemma reachable_after_batch : reachable after_batch.
Proof.
  apply (reachable_step isolate batch_env (GeneratePostsBatch two_posts)).
  - apply reachable_start.
  - apply draws_new_ids_no_variations; [done|]. apply map_Forall_empty.
Qed.

Lemma reachable_after_shorter : reachable after_shorter.
Proof.
  apply (reachable_step after_batch shorter_env (CreateTextVariations shorter)).
  - apply reachable_after_batch.
  - apply draws_new_ids_no_variations; apply after_batch_no_variations.
Qed.

Lemma reachable_after_brighter : reachable after_brighter.
Proof.
  apply (reachable_step after_batch brighter_env (RegenerateImage brighter)).
  - apply reachable_after_batch.
  - apply draws_new_ids_no_variations; apply after_batch_no_variations.
Qed.

(** The ids of a call are unused when they carry a tag that no id of the
    world carries. *)
Lemma draws_new_ids_tag tag now drafts lost (w : World) (used : list string) :
  (∀ i : nat, tag +:+ "-" +:+ pretty i ∉ used) →
  Forall (λ x, x ∈ used) (text_ids (textVariations (emptyHistory w))) →
  map_Forall (λ _ post, Forall (λ x, x ∈ used) (text_ids (textVariationsOf post)))
    (posts w) →
  draws_new_ids (answers tag now drafts lost) w.
Proof.
  intros Htag Hshared Hrows. split; [apply answers_nanoid_inj|].
  intros i. split.
  - intros Hin. apply (Htag i). by apply (proj1 (Forall_forall _ _) Hshared).
  - intros key post Hpost Hin. apply (Htag i).
    by apply (proj1 (Forall_forall _ _) (Hrows key post Hpost)).
Qed.

Lemma after_shorter_ids :
  Forall (λ x, x ∈ ["va-0"; "va-1"; "va-2"])
    (text_ids (textVariations (emptyHistory after_shorter))) ∧
  map_Forall (λ _ post, Forall (λ x, x ∈ ["va-0"; "va-1"; "va-2"])
                          (text_ids (textVariationsOf post)))
    (posts after_shorter).
Proof. split; apply (bool_decide_unpack _); vm_compute; exact I. Qed.

Ltac other_tag :=
  let i := fresh "i" in
  let H := fresh "H" in
  intros i H;
  repeat (apply elem_of_cons in H as [H|H]; [by cbn in H|]);
  by apply elem_of_nil in H.

(** The two calls that go wrong on [after_shorter] are steps like any
    other: their ids are new too. *)
Lemma warmer_draws_new_ids : draws_new_ids warmer_env after_shorter.
Proof.
  apply (draws_new_ids_tag _ _ _ _ _ ["va-0"; "va-1"; "va-2"]);
    [other_tag|apply after_shorter_ids..].
Qed.

Lemma accept_draws_new_ids : draws_new_ids accept_env after_shorter.
Proof.
  apply (draws_new_ids_tag _ _ _ _ _ ["va-0"; "va-1"; "va-2"]);
    [other_tag|apply after_shorter_ids..].
Qed.

Lemma after_brighter_no_variations :
  textVariations (emptyHistory after_brighter) = [] ∧
  map_Forall (λ _ post, textVariationsOf post = []) (posts after_brighter).
Proof.
  split; [vm_compute; reflexivity|].
  apply (bool_decide_unpack _). vm_compute. exact I.
Qed.

Lemma bolder_draws_new_ids : draws_new_ids bolder_env after_brighter.
Proof. apply draws_new_ids_no_variations; apply after_brighter_no_variations. Qed.

(** ** The claims on the scenario *)

Lemma acceptTextVariation_exclusive_witness :
  ∃ r post',
    acceptTextVariation accept_env "post-1" "va-1" after_shorter
      = (Returned r, snd (acceptTextVariation accept_env "post-1" "va-1" after_shorter)) ∧
    r = Some post' ∧
    (TextVariation.accepted <$> textVariationsOf post') = [false; true; false].
Proof.
  eexists.
  assert (Hrun : acceptTextVariation accept_env "post-1" "va-1" after_shorter
    = (Returned (posts (snd (acceptTextVariation accept_env "post-1" "va-1" after_shorter))
                   !! "post-1"),
       snd (acceptTextVariation accept_env "post-1" "va-1" after_shorter)))
    by (vm_compute; reflexivity).
  destruct (acceptTextVariation_exclusive _ _ _ _ _ _ Hrun)
    as (post' & Hr & Hstored & _).
  exists post'. split; [exact Hrun|]. split; [exact Hr|].
  assert (Hpost' : Some post' = posts (snd (acceptTextVariation accept_env "post-1" "va-1"
                                             after_shorter)) !! "post-1")
    by (by rewrite Hstored).
  vm_compute in Hpost'. injection Hpost' as ->. vm_compute. reflexivity.
Defined.

Lemma acceptTextVariation_copies_idempotent_witness :
  ∃ P p1 w1,
    posts after_shorter !! "post-1" = Some P ∧
    second_draft ∈ textVariationsOf P ∧
    NoDup (TextVariation.id <$> textVariationsOf P) ∧
    acceptTextVariation accept_env "post-1" "va-1" after_shorter
      = (Returned (Some p1), w1) ∧
    Post.hook p1 = "Ten-minute lunchboxes" ∧
    Post.caption p1 = "Short mornings, full boxes." ∧
    Post.hashtags p1 = Some (JsonOf ["mealprep"]).
Proof.
  assert (HP : ∃ P, posts after_shorter !! "post-1" = Some P ∧
                    second_draft ∈ textVariationsOf P ∧
                    NoDup (TextVariation.id <$> textVariationsOf P)).
  { eexists. split; [vm_compute; reflexivity|]. split.
    - apply (list_elem_of_lookup_2 _ 1). vm_compute. reflexivity.
    - apply (bool_decide_unpack _). vm_compute. exact I. }
  destruct HP as (P & HP & HV & Hnd).
  destruct (acceptTextVariation_copies_idempotent accept_env publish_env
              after_shorter "post-1" P second_draft HP HV (or_introl Hnd))
    as (p1 & w1 & Hrun & _ & Hhook & Hcap & Htags & _).
  exists P, p1, w1. by repeat split.
Defined.

Lemma acceptTextVariation_keeps_status_witness :
  ∃ post post',
    posts after_publish !! "post-1" = Some post ∧
    Post.status post = Posted ∧
    posts (snd (acceptTextVariation accept_env "post-1" "va-1" after_publish)) !! "post-1"
      = Some post' ∧
    Post.status post' = Posted.
Proof.
  assert (HP : ∃ post, posts after_publish !! "post-1" = Some post ∧
                       Post.status post = Posted).
  { eexists. split; vm_compute; reflexivity. }
  destruct HP as (post & Hpost & Hstatus).
  destruct (acceptTextVariation_keeps_status accept_env "post-1" "va-1" after_publish
              (snd (acceptTextVariation accept_env "post-1" "va-1" after_publish))
              post
              (fst (acceptTextVariation accept_env "post-1" "va-1" after_publish))
              Hpost (surjective_pairing _))
    as (post' & Hstored & Hsame & _).
  exists post, post'. repeat split; try done. by rewrite Hsame.
Defined.



(** C8, as stated, fails on an id that is not in the table: the three
    operations return [undefined], none throws. *)
Lemma status_change_absent_returns :
  posts after_batch !! "post-404" = None ∧
  fst (approvePost publish_env "post-404" (Some alice) after_batch) = Returned None ∧
  fst (rejectPost publish_env "post-404" (Some alice) after_batch) = Returned None ∧
  fst (markPostAsPosted publish_env "post-404" (Some alice) after_batch) = Returned None ∧
  fst (approvePost publish_env "post-404" (Some alice) after_batch) ≠ Thrown NotFound.
Proof. vm_compute. by repeat split. Qed.

Lemma status_change_absent_post_witness :
  posts after_batch !! "post-404" = None ∧
  approvePost publish_env "post-404" (Some alice) after_batch = (Returned None, after_batch) ∧
  rejectPost publish_env "post-404" None after_batch = (Returned None, after_batch) ∧
  markPostAsPosted publish_env "post-404" None after_batch = (Returned None, after_batch).
Proof.
  assert (Hid : posts after_batch !! "post-404" = None) by (vm_compute; reflexivity).
  split; [exact Hid|]. split; [|split].
  - apply (status_change_absent_post publish_env "post-404" (Some alice) after_batch Hid).
  - apply (status_change_absent_post publish_env "post-404" None after_batch Hid).
  - apply (status_change_absent_post publish_env "post-404" None after_batch Hid).
Defined.

Lemma generatePostsBatch_partial_failure_witness :
  generatePostsWithAI failing_env (contentRequest two_posts) = Returned [lunchbox; bedtime] ∧
  generateTextCard failing_env "Bath. Book. Bed." "post-2"
    = Thrown (Error "bucket unavailable") ∧
  ∃ first second w',
    generatePostsBatch failing_env two_posts isolate
      = (Returned (GenerateBatchResult.mk "post-0" [first; second]), w') ∧
    Post.imageUrl first = Some "https://cdn.example/posts/1700000000000-post-1.jpg" ∧
    Post.imageUrl second = None ∧ Post.imageKey second = None ∧
    Post.status first = Draft ∧ Post.status second = Draft ∧
    Post.batchId first = "post-0" ∧ Post.batchId second = "post-0".
Proof.
  assert (Hgen : generatePostsWithAI failing_env (contentRequest two_posts)
                 = Returned [lunchbox; bedtime]) by reflexivity.
  assert (Hfresh : ∀ i, i < length [lunchbox; bedtime] →
                        posts isolate !! nanoid failing_env (S i) = None)
    by (intros i _; apply lookup_empty).
  assert (Hinj : ∀ i j, i < length [lunchbox; bedtime] → j < length [lunchbox; bedtime] →
                        nanoid failing_env (S i) = nanoid failing_env (S j) → i = j).
  { intros [|[|i]] [|[|j]] Hi Hj; cbn in Hi, Hj; try lia; vm_compute; congruence. }
  destruct (generatePostsBatch_partial_failure failing_env two_posts isolate
              [lunchbox; bedtime] Hgen Hfresh Hinj)
    as (ps & w' & Hrun & Hlen & Hrows).
  split; [exact Hgen|]. split; [reflexivity|].
  destruct (Hrows 0 lunchbox eq_refl) as (first & Hfirst & _ & -> & _).
  destruct (Hrows 1 bedtime eq_refl) as (second & Hsecond & _ & -> & _).
  destruct ps as [|p1 [|p2 [|p3 ps]]]; try discriminate Hlen.
  injection Hfirst as ->. injection Hsecond as ->.
  do 2 eexists. exists w'. split; [exact Hrun|]. vm_compute. by repeat split.
Defined.

Lemma deletePost_total_witness :
  posts after_batch !! "post-404" = None ∧
  deletePost batch_env "post-404" after_batch = (Returned tt, after_batch) ∧
  ∃ w', deletePost batch_env "post-1" after_batch = (Returned tt, w') ∧
        posts w' !! "post-1" = None.
Proof.
  assert (Hid : posts after_batch !! "post-404" = None) by (vm_compute; reflexivity).
  split; [exact Hid|]. split.
  - destruct (deletePost_total batch_env "post-404" after_batch)
      as (w' & Hrun & _ & _ & Hsame).
    by rewrite Hrun, (Hsame Hid).
  - destruct (deletePost_total batch_env "post-1" after_batch)
      as (w' & Hrun & Hposts & _).
    exists w'. split; [exact Hrun|]. rewrite Hposts. apply lookup_delete_eq.
Defined.

(** ** The shared [emptyHistory] object

    [parseHistory] hands the one module-level object to every call that
    finds no usable history text, and the calls write into it.  After the
    first of them the object is not empty any more, and the next post without
    a history starts from the leftovers.  The statements below run the
    scenario: a batch of two posts (both with [history] NULL, as
    [generatePostsBatch] inserts them), an operation on the first post, the
    same operation on the second. *)

(** C6.  [createTextVariations] for [post-2], whose history is NULL, after
    the same for [post-1]: the history stored for [post-2] begins with the
    three variations of [post-1] (their feedback is "shorter", the call was
    made with "warmer").  And on a row whose history text is the JSON
    document of an object without the two arrays, the call throws
    [TypeError]. *)
Theorem createTextVariations_history_not_empty :
  reachable after_shorter ∧ draws_new_ids warmer_env after_shorter ∧
  (Post.history <$> posts after_shorter !! "post-2") = Some None ∧
  (∃ results w' post',
     createTextVariations warmer_env warmer after_shorter = (Returned results, w') ∧
     posts w' !! "post-2" = Some post' ∧
     (TextVariation.id <$> textVariationsOf post')
       = ["va-0"; "va-1"; "va-2"; "vb-0"; "vb-1"; "vb-2"] ∧
     (TextVariation.feedback <$> textVariationsOf post')
       = ["shorter"; "shorter"; "shorter"; "warmer"; "warmer"; "warmer"]) ∧
  Post.history bare_object_post = Some (JsonOf (JsonObject None None)) ∧
  createTextVariations shorter_env bare_object_input bare_object_world
    = (Thrown TypeError, bare_object_world).
Proof.
  split; [apply reachable_after_shorter|].
  split; [apply warmer_draws_new_ids|].
  split; [vm_compute; reflexivity|]. split.
  - do 3 eexists. split; [vm_compute; reflexivity|].
    split; [vm_compute; reflexivity|]. vm_compute. by split.
  - split; [reflexivity|]. vm_compute. reflexivity.
Qed.

(** C5.  [post-2] exists and its log is empty, so no entry of it has the id
    [va-1], a variation of [post-1]; yet [acceptTextVariation("post-2",
    "va-1")] does not throw: it returns [post-2] with the hook, caption and
    hashtags of that variation of [post-1] written over its own. *)
Theorem acceptTextVariation_foreign_variation :
  reachable after_shorter ∧ draws_new_ids accept_env after_shorter ∧
  (textVariationsOf <$> posts after_shorter !! "post-2") = Some [] ∧
  (Post.hook <$> posts after_shorter !! "post-2")
    = Some "Bedtime is a routine, not a fight" ∧
  ∃ post' w',
    acceptTextVariation accept_env "post-2" "va-1" after_shorter
      = (Returned (Some post'), w') ∧
    posts w' !! "post-2" = Some post' ∧
    Post.hook post' = "Ten-minute lunchboxes" ∧
    Post.caption post' = "Short mornings, full boxes." ∧
    Post.hashtags post' = Some (JsonOf ["mealprep"]) ∧
    (TextVariation.id <$> textVariationsOf post') = ["va-0"; "va-1"; "va-2"].
Proof.
  split; [apply reachable_after_shorter|].
  split; [apply accept_draws_new_ids|].
  split; [vm_compute; reflexivity|]. split; [vm_compute; reflexivity|].
  do 2 eexists. split; [vm_compute; reflexivity|].
  split; [vm_compute; reflexivity|]. vm_compute. by repeat split.
Qed.

(** C3.  [post-2] has an image URL and an empty image log.  Its first
    [regenerateImage], made after one for [post-1], succeeds and leaves a
    log of four entries, not two: the archived and the new image of
    [post-1], then its own. *)
Theorem regenerateImage_foreign_images :
  reachable after_brighter ∧ draws_new_ids bolder_env after_brighter ∧
  (imageVariationsOf <$> posts after_brighter !! "post-2") = Some [] ∧
  (Post.imageUrl <$> posts after_brighter !! "post-2")
    = Some (Some "https://cdn-ssm.momwise.ai/posts/1700000000000-post-2-card.svg") ∧
  ∃ post' w',
    regenerateImage bolder_env bolder after_brighter = (Returned (Some post'), w') ∧
    posts w' !! "post-2" = Some post' ∧
    length (imageVariationsOf post') = 4 ∧
    (ImageVariation.id <$> imageVariationsOf post') = ["ia-0"; "ia-1"; "ib-0"; "ib-1"] ∧
    (ImageVariation.feedback <$> imageVariationsOf post')
      = ["original"; "brighter"; "original"; "bolder"].
Proof.
  split; [apply reachable_after_brighter|].
  split; [apply bolder_draws_new_ids|].
  split; [vm_compute; reflexivity|]. split; [vm_compute; reflexivity|].
  do 2 eexists. split; [vm_compute; reflexivity|].
  split; [vm_compute; reflexivity|]. vm_compute. by repeat split.
Qed.

(** * Further properties of the service *)

(** ** Status changes on a post that exists *)

Lemma status_change_run (sets : list Assignment) (id : string) (w : World) (post : Post.t) :
  posts w !! id = Some post →
  bind (db_update sets id) (λ _, getPost id) w
  = (Returned (Some (foldl assign post sets)),
     mkWorld (<[id := foldl assign post sets]> (posts w)) (emptyHistory w)).
Proof.
  intros Hpost. unfold bind, db_update, getPost. cbn.
  by rewrite (alter_present _ _ _ _ Hpost), lookup_insert_eq.
Qed.

(** X1.  On a post that exists, whatever its status, each status change
    succeeds, stores and returns the post with the new status and the
    acting user (or [null]) in the actor column of that status; the two
    other actor columns keep what they held, and the text, the image, the
    history and the columns of origin are untouched; no other row and
    nothing of the shared object changes. *)
Theorem status_change_existing
    (env : Env) (id : string) (user : option User.t) (w : World) (post : Post.t) :
  posts w !! id = Some post →
  ∃ approved rejected posted,
    approvePost env id user w
      = (Returned (Some approved), mkWorld (<[id := approved]> (posts w)) (emptyHistory w)) ∧
    rejectPost env id user w
      = (Returned (Some rejected), mkWorld (<[id := rejected]> (posts w)) (emptyHistory w)) ∧
    markPostAsPosted env id user w
      = (Returned (Some posted), mkWorld (<[id := posted]> (posts w)) (emptyHistory w)) ∧
    (Post.status approved = Approved ∧ Post.approvedBy approved = User.id <$> user ∧
     Post.rejectedBy approved = Post.rejectedBy post ∧
     Post.postedBy approved = Post.postedBy post) ∧
    (Post.status rejected = Rejected ∧ Post.rejectedBy rejected = User.id <$> user ∧
     Post.approvedBy rejected = Post.approvedBy post ∧
     Post.postedBy rejected = Post.postedBy post) ∧
    (Post.status posted = Posted ∧ Post.postedBy posted = User.id <$> user ∧
     Post.approvedBy posted = Post.approvedBy post ∧
     Post.rejectedBy posted = Post.rejectedBy post) ∧
    Forall (λ p', Post.history p' = Post.history post ∧
                  same_origin post p' ∧ same_text post p' ∧ same_image post p')
      [approved; rejected; posted].
Proof.
  intros Hpost. do 3 eexists.
  split; [apply (status_change_run _ _ _ _ Hpost)|].
  split; [apply (status_change_run _ _ _ _ Hpost)|].
  split; [apply (status_change_run _ _ _ _ Hpost)|].
  destruct post. cbn. repeat split; repeat constructor; done.
Qed.

Lemma status_change_existing_witness :
  ∃ post posted,
    posts after_shorter !! "post-1" = Some post ∧
    markPostAsPosted publish_env "post-1" (Some alice) after_shorter
      = (Returned (Some posted), after_publish) ∧
    Post.status post = Draft ∧ Post.status posted = Posted ∧
    Post.postedBy posted = Some "user-1".
Proof.
  assert (HP : ∃ post, posts after_shorter !! "post-1" = Some post ∧ Post.status post = Draft).
  { eexists. split; vm_compute; reflexivity. }
  destruct HP as (post & Hpost & Hdraft).
  destruct (status_change_existing publish_env "post-1" (Some alice) after_shorter post Hpost)
    as (approved & rejected & posted & _ & _ & Hrun & _ & _ & (Hst & Hby & _) & _).
  exists post, posted. split; [exact Hpost|]. split.
  - rewrite Hrun. f_equal. unfold after_publish. rewrite Hrun. reflexivity.
  - clear Hrun Hpost. rewrite Hby. split; [exact Hdraft|]. split; [exact Hst|reflexivity].
Defined.

(** X2.  Status changes compose without a guard: after [approvePost] by one
    user and [rejectPost] by another the post is [rejected], [rejectedBy]
    names the second user, and [approvedBy] still names the first. *)
Theorem approve_then_reject
    (env1 env2 : Env) (id : string) (approver rejector : option User.t)
    (w : World) (post : Post.t) :
  posts w !! id = Some post →
  ∃ p1 w1 p2 w2,
    approvePost env1 id approver w = (Returned (Some p1), w1) ∧
    rejectPost env2 id rejector w1 = (Returned (Some p2), w2) ∧
    posts w2 !! id = Some p2 ∧
    Post.status p2 = Rejected ∧
    Post.rejectedBy p2 = User.id <$> rejector ∧
    Post.approvedBy p2 = User.id <$> approver ∧
    Post.postedBy p2 = Post.postedBy post.
Proof.
  intros Hpost. do 4 eexists.
  split; [apply (status_change_run _ _ _ _ Hpost)|].
  split; [apply status_change_run; cbn [posts]; apply lookup_insert_eq|].
  cbn [posts]. rewrite lookup_insert_eq. split; [done|]. by destruct post.
Qed.

Lemma approve_then_reject_witness :
  ∃ post p2 w2,
    posts after_batch !! "post-2" = Some post ∧
    rejectPost accept_env "post-2" (Some Cases.bob)
      (snd (approvePost publish_env "post-2" (Some alice) after_batch))
      = (Returned (Some p2), w2) ∧
    Post.status p2 = Rejected ∧
    Post.rejectedBy p2 = Some "user-2" ∧
    Post.approvedBy p2 = Some "user-1".
Proof.
  assert (HP : ∃ post, posts after_batch !! "post-2" = Some post).
  { eexists. vm_compute. reflexivity. }
  destruct HP as (post & Hpost).
  destruct (approve_then_reject publish_env accept_env "post-2" (Some alice)
              (Some Cases.bob) after_batch post Hpost)
    as (p1 & w1 & p2 & w2 & Hrun1 & Hrun2 & _ & Hst & Hrej & Happ & _).
  exists post, p2, w2. split; [exact Hpost|]. rewrite Hrun1. cbn [snd].
  split; [exact Hrun2|]. clear Hrun1 Hrun2 Hpost.
  split; [exact Hst|]. split; [rewrite Hrej|rewrite Happ]; reflexivity.
Defined.

(** ** After [deletePost] *)

(** X3.  [deletePostFn] answers [success: true] for every id, whether
    there was such a post or not and whatever the bucket did.  Afterwards the
    row is gone: [getPost(id)] returns [undefined], and
    [createTextVariations], [acceptTextVariation] and [regenerateImage] on
    that id throw [Post not found] and change nothing; the rows under other
    ids are as before. *)
Theorem deletePost_then_gone
    (env env' : Env) (id feedback variationId : string) (tone : option ToneOption)
    (w : World) :
  let w' := snd (deletePost env id w) in
  deletePostFn env id w = (Returned true, w') ∧
  getPost id w' = (Returned None, w') ∧
  createTextVariations env' (CreateTextVariationsInput.mk id feedback tone) w'
    = (Thrown NotFound, w') ∧
  acceptTextVariation env' id variationId w' = (Thrown NotFound, w') ∧
  regenerateImage env' (RegenerateImageInput.mk id feedback) w' = (Thrown NotFound, w') ∧
  ∀ other, other ≠ id → posts w' !! other = posts w !! other.
Proof.
  intros w'. destruct (deletePost_rows env id w) as [Hrows _]. fold w' in Hrows.
  assert (Hgone : posts w' !! id = None) by (rewrite Hrows; apply lookup_delete_eq).
  assert (Hrun : deletePost env id w = (Returned tt, w')).
  { unfold w', deletePost, bind, getPost.
    destruct (posts w !! id ≫= Post.imageKey) as [key|]; [|done].
    destruct (truthy_string key); [|done].
    unfold try_catch, await. by destruct (deleteImageFromR2 env key) as [[]|e]. }
  split; [unfold deletePostFn, bind; by rewrite Hrun|].
  split; [unfold getPost; by rewrite Hgone|].
  split; [rewrite createTextVariations_eq; cbn; by rewrite Hgone|].
  split; [by apply acceptTextVariation_NotFound|].
  split; [rewrite regenerateImage_eq; cbn; by rewrite Hgone|].
  intros other Hne. rewrite Hrows. by apply lookup_delete_ne.
Qed.

(** ** The failures of [createTextVariations] and [regenerateImage] *)

(** X4.  Each failure of [createTextVariations] that comes before its
    database update leaves everything as it was, the table and the shared
    object: a missing post ([NotFound]); a [hashtags] text that is not JSON
    and not empty (the [SyntaxError] of [JSON.parse], whatever the generator
    would have answered); a generator that fails (its exception); and a
    history that has no [textVariations] array to push to, a stored [null]
    or an object without it ([TypeError]).  The update itself is taken to be
    carried out; see [db_update]. *)
Theorem createTextVariations_failures
    (env : Env) (input : CreateTextVariationsInput.t) (w : World) :
  let postId := CreateTextVariationsInput.postId input in
  (posts w !! postId = None →
   createTextVariations env input w = (Thrown NotFound, w)) ∧
  (∀ post raw,
     posts w !! postId = Some post →
     Post.hashtags post = Some (NotJson raw) → raw ≠ "" →
     createTextVariations env input w = (Thrown SyntaxError, w)) ∧
  (∀ post hashtags e,
     posts w !! postId = Some post →
     hashtagsOf post = Some hashtags →
     generateTextVariationsWithAI env (variationsRequest input post hashtags) = Thrown e →
     createTextVariations env input w = (Thrown e, w)) ∧
  (∀ post hashtags variations,
     posts w !! postId = Some post →
     hashtagsOf post = Some hashtags →
     generateTextVariationsWithAI env (variationsRequest input post hashtags)
       = Returned variations →
     (view w (parseHistory (Post.history post)) = JsonNull ∨
      ∃ ivs, view w (parseHistory (Post.history post)) = JsonObject None ivs) →
     createTextVariations env input w = (Thrown TypeError, w)).
Proof.
  intros postId. rewrite createTextVariations_eq. fold postId. cbn zeta.
  split; [by intros ->|].
  split.
  { intros post raw -> Htags Hraw. unfold hashtagsOf. rewrite Htags.
    unfold truthy_string. by rewrite bool_decide_eq_false_2. }
  split.
  { intros post hashtags e -> -> Hgen. by rewrite Hgen. }
  intros post hashtags variations -> -> Hgen Hview. rewrite Hgen.
  by destruct Hview as [->|[ivs ->]].
Qed.

(** X5.  A [regenerateImage] that throws has written no row.  When the
    post is missing or the prompt improvement fails nothing at all has
    changed; and when the post stores a JSON history, a failure of the image
    producer changes nothing either. *)
Theorem regenerateImage_failures
    (env : Env) (input : RegenerateImageInput.t) (w w' : World) (e : Exception) :
  regenerateImage env input w = (Thrown e, w') →
  posts w' = posts w ∧
  (posts w !! RegenerateImageInput.postId input = None → e = NotFound ∧ w' = w) ∧
  (∀ post e',
     posts w !! RegenerateImageInput.postId input = Some post →
     generateImprovedImagePrompt env (promptRequest input post) = Thrown e' →
     e = e' ∧ w' = w) ∧
  (∀ post,
     posts w !! RegenerateImageInput.postId input = Some post →
     stored_document post → w' = w).
Proof.
  intros Hrun. rewrite regenerateImage_eq in Hrun. cbn zeta in Hrun.
  destruct (posts w !! _) as [post|] eqn:Hpost.
  2: { injection Hrun as <- <-. by repeat split. }
  destruct (generateImprovedImagePrompt env _) as [improved|e'] eqn:Himp.
  2: { injection Hrun as <- <-. split; [done|]. split; [done|].
       split; [|done]. intros post' e'' [= <-]. rewrite Himp. by intros [= <-]. }
  assert (Hfail : w' = w →
            posts w' = posts w ∧
            (Some post = None → e = NotFound ∧ w' = w) ∧
            (∀ post0 e',
               Some post = Some post0 →
               generateImprovedImagePrompt env (promptRequest input post0) = Thrown e' →
               e = e' ∧ w' = w) ∧
            (∀ post0, Some post = Some post0 → stored_document post0 → w' = w)).
  { intros ->. split; [done|]. split; [done|]. split; [|done].
    intros post0 e' [= <-]. by rewrite Himp. }
  destruct (view w _) as [|tvs [ivs|]] eqn:Hview.
  - apply Hfail.
    destruct (truthy_opt_string _); [|destruct (imageOutcome env _ _ _)]; congruence.
  - destruct (imageOutcome env _ _ _); [done|]. injection Hrun as <- <-.
    split; [done|]. split; [done|]. split.
    { intros post0 e' [= <-]. by rewrite Himp. }
    intros post0 [= <-] [v Hv]. rewrite Hv. cbn. by rewrite world_eta.
  - apply Hfail.
    destruct (truthy_opt_string _); [|destruct (imageOutcome env _ _ _)]; congruence.
Qed.

Lemma regenerateImage_failures_witness :
  fst (regenerateImage Cases.dark_env brighter after_shorter)
    = Thrown (Error "bucket unavailable") ∧
  snd (regenerateImage Cases.dark_env brighter after_shorter) = after_shorter.
Proof.
  assert (Hrun : regenerateImage Cases.dark_env brighter after_shorter
                 = (Thrown (Error "bucket unavailable"),
                    snd (regenerateImage Cases.dark_env brighter after_shorter)))
    by (vm_compute; reflexivity).
  assert (HP : ∃ post, posts after_shorter !! "post-1" = Some post ∧ stored_document post).
  { eexists. split; [vm_compute; reflexivity|]. eexists. vm_compute. reflexivity. }
  destruct HP as (post & Hpost & Hdoc).
  split; [rewrite Hrun; reflexivity|].
  exact (proj2 (proj2 (proj2 (regenerateImage_failures _ _ _ _ _ Hrun))) post Hpost Hdoc).
Defined.

(** ** A successful [regenerateImage] *)

Lemma accepted_images_app (ivs ivs' : list ImageVariation.t) :
  accepted_images (ivs ++ ivs') = accepted_images ivs + accepted_images ivs'.
Proof. unfold accepted_images. by rewrite filter_app, length_app. Qed.

(** X6.  A successful [regenerateImage] on a post whose own history is
    read replaces the canonical image: the stored and returned post has the
    improved prompt and the url and key of the image produced for it, while
    its text, status, actors and columns of origin and its log of text
    variations are as before.  The new entry of the image log is accepted
    and no older entry is reset, so the number of accepted image entries
    grows by one with every regeneration. *)
Theorem regenerateImage_replaces_image
    (env : Env) (input : RegenerateImageInput.t) (w w' : World) (post : Post.t)
    (r : option Post.t) :
  let postId := RegenerateImageInput.postId input in
  posts w !! postId = Some post →
  reads_own_history w post →
  regenerateImage env input w = (Returned r, w') →
  ∃ improved uploaded post',
    r = Some post' ∧ posts w' = <[postId := post']> (posts w) ∧
    generateImprovedImagePrompt env (promptRequest input post) = Returned improved ∧
    imageOutcome env (Post.imageStyle post) (ImprovedImagePrompt.imagePrompt improved)
      (Post.id post) = Returned uploaded ∧
    Post.imagePrompt post' = ImprovedImagePrompt.imagePrompt improved ∧
    Post.imageUrl post' = Some (UploadedImage.url uploaded) ∧
    Post.imageKey post' = Some (UploadedImage.key uploaded) ∧
    Post.status post' = Post.status post ∧
    same_text post post' ∧ same_origin post post' ∧ same_actors post post' ∧
    textVariationsOf post' = textVariationsOf post ∧
    accepted_images (imageVariationsOf post') = S (accepted_images (imageVariationsOf post)).
Proof.
  intros postId Hpost Hown Hrun.
  destruct (regenerateImage_appends env input w w' post r Hpost Hown Hrun)
    as (improved' & uploaded' & post'' & _ & _ & _ & Hlog).
  revert Hrun Hlog. rewrite regenerateImage_eq. fold postId. cbn zeta. rewrite Hpost.
  destruct (generateImprovedImagePrompt env _) as [improved|e]; [|done].
  destruct (view w _) as [|tvs [ivs|]] eqn:Hview;
    try (destruct (truthy_opt_string _); [done|]; by destruct (imageOutcome env _ _ _)).
  destruct (imageOutcome env _ _ _) as [uploaded|e] eqn:Hout; [|done].
  intros [= <- <-] Hlog. exists improved, uploaded. eexists.
  split; [done|]. split; [done|]. split; [done|]. split; [done|].
  set (stored := JsonObject tvs _).
  destruct (regenerated_post_fields env post (ImprovedImagePrompt.imagePrompt improved)
              uploaded stored) as (Hprompt & Hurl & Hkey & Hhist & Hstatus & Hid).
  do 4 (split; [done|]).
  split; [by destruct post|]. split; [by destruct post|]. split; [by destruct post|].
  split.
  - unfold textVariationsOf at 1. rewrite Hhist. cbn.
    destruct tvs as [tvs|].
    + by rewrite (textVariationsOf_own w post tvs (Some ivs) Hown Hview).
    + revert Hown Hview. unfold reads_own_history, textVariationsOf, route_parseHistory,
        parseHistory.
      destruct (truthy_text (Post.history post)); cbn;
        [destruct (Post.history post) as [[raw|v]|]; cbn|]; try done.
      by intros _ ->.
  - unfold imageVariationsOf at 1. rewrite Hhist.
    change (route_parseHistory (Some (JsonOf stored))) with stored. unfold stored.
    rewrite (imageVariationsOf_own w post tvs ivs Hown Hview).
    rewrite accepted_images_app.
    destruct (truthy_opt_string _); rewrite ?accepted_images_app;
      change (accepted_images [archivedImage env post]) with 0;
      change (accepted_images [regeneratedImage env input _ _ uploaded]) with 1; lia.
Qed.

Lemma regenerateImage_replaces_image_witness :
  ∃ post post',
    posts after_batch !! "post-1" = Some post ∧
    posts after_brighter !! "post-1" = Some post' ∧
    Post.imageUrl post' = Some "https://cdn.example/posts/1700000500000-post-1.jpg" ∧
    same_text post post' ∧
    accepted_images (imageVariationsOf post') = S (accepted_images (imageVariationsOf post)).
Proof.
  assert (HP : ∃ post, posts after_batch !! "post-1" = Some post ∧
                       reads_own_history after_batch post).
  { eexists. split; vm_compute; reflexivity. }
  destruct HP as (post & Hpost & Hown).
  assert (Hrun : regenerateImage brighter_env brighter after_batch
                 = (Returned (posts after_brighter !! "post-1"), after_brighter))
    by (vm_compute; reflexivity).
  destruct (regenerateImage_replaces_image brighter_env brighter after_batch after_brighter
              post (posts after_brighter !! "post-1") Hpost Hown Hrun)
    as (improved & uploaded & post' & Hr & _ & _ & Hout & _ & Hurl & _ & _ & Htext & _ & _
        & _ & Hacc).
  assert (Hnew : Post.imageUrl <$> posts after_brighter !! "post-1"
                 = Some (Some "https://cdn.example/posts/1700000500000-post-1.jpg"))
    by (vm_compute; reflexivity).
  clear Hrun. exists post, post'. split; [exact Hpost|]. split; [exact Hr|].
  split; [|split; [exact Htext|exact Hacc]].
  rewrite Hr in Hnew. injection Hnew as Hnew. exact Hnew.
Defined.

(** ** Generating variations, then accepting one *)

(** X7.  The two operations compose: in a reachable world, every variation
    a successful [createTextVariations] returns can be accepted right away.
    [acceptTextVariation] with the returned id succeeds, the post then has
    the hook, the caption and the hashtags of that variation, and in its
    log the entry with that id, and no other, is accepted. *)
Theorem create_then_accept
    (env env' : Env) (input : CreateTextVariationsInput.t) (w w1 : World)
    (results : list TextVariationResult.t) (k : nat) (result : TextVariationResult.t) :
  let postId := CreateTextVariationsInput.postId input in
  reachable w → draws_new_ids env w →
  createTextVariations env input w = (Returned results, w1) →
  results !! k = Some result →
  ∃ p2 w2,
    acceptTextVariation env' postId (TextVariationResult.id result) w1
      = (Returned (Some p2), w2) ∧
    posts w2 !! postId = Some p2 ∧
    Post.hook p2 = TextVariationResult.hook result ∧
    Post.caption p2 = TextVariationResult.caption result ∧
    Post.hashtags p2 = Some (JsonOf (TextVariationResult.hashtags result)) ∧
    only_accepted (TextVariationResult.id result) (textVariationsOf p2).
Proof.
  intros postId Hw Hnew. pose proof (reachable_distinct_ids w Hw) as Hdistinct.
  rewrite createTextVariations_eq. fold postId. cbn zeta.
  destruct (posts w !! postId) as [post|] eqn:Hpost; [|done].
  destruct (hashtagsOf post) as [hashtags|]; [|done].
  destruct (generateTextVariationsWithAI env _) as [variations|]; [|done].
  destruct (view w _) as [|[tvs|] ivs] eqn:Hview; try done.
  intros [= <- <-] Hk.
  apply list_lookup_fmap_Some in Hk as (V & -> & HV).
  set (records := imap (variationRecord env input) variations) in *.
  assert (Hlog : NoDup (text_ids (tvs ++ records))).
  { destruct Hnew as [Hinj Hunused]. apply appended_ids_distinct; [done| |].
    - intros i. apply (view_log_unused w postId post (Some tvs) ivs _ (Hunused i) Hpost Hview).
    - apply (view_log_distinct w postId post (Some tvs) ivs Hdistinct Hpost Hview). }
  assert (Hin : V ∈ tvs ++ records).
  { apply elem_of_app. right. by eapply list_elem_of_lookup_2. }
  set (post1 := assign (assign post _) _).
  assert (Hh1 : Post.history post1 = Some (JsonOf (JsonObject (Some (tvs ++ records)) ivs)))
    by (by destruct post).
  rewrite acceptTextVariation_eq. cbn [posts]. rewrite lookup_insert_eq. cbn zeta.
  rewrite Hh1.
  change (parseHistory (Some (JsonOf ?v))) with (ParsedObject v). cbn [view].
  change (TextVariationResult.id (variationResult V)) with (TextVariation.id V).
  rewrite (find_id_NoDup _ V Hlog Hin).
  do 2 eexists. split; [done|]. cbn [posts]. rewrite lookup_insert_eq. split; [done|].
  set (stored := JsonObject _ ivs).
  destruct (accepted_post_fields env' post1 V stored) as (-> & -> & -> & Hhist & _).
  do 3 (split; [done|]).
  rewrite (textVariationsOf_stored _ _ _ Hhist).
  by apply (mark_accepted_only _ _ V).
Qed.

Lemma create_then_accept_witness :
  ∃ p2 w2,
    acceptTextVariation accept_env "post-1" "va-1" after_shorter = (Returned (Some p2), w2) ∧
    Post.hook p2 = "Ten-minute lunchboxes" ∧
    only_accepted "va-1" (textVariationsOf p2).
Proof.
  assert (Hrun : createTextVariations shorter_env shorter after_batch
                 = (Returned (variationResult <$>
                                imap (variationRecord shorter_env shorter) three_drafts),
                    after_shorter))
    by (vm_compute; reflexivity).
  destruct (create_then_accept shorter_env accept_env shorter after_batch after_shorter _ 1
              (TextVariationResult.mk "va-1" "Ten-minute lunchboxes"
                 "Short mornings, full boxes." ["mealprep"])
              reachable_after_batch
              (draws_new_ids_no_variations _ _ _ _ _ (proj1 after_batch_no_variations)
                 (proj2 after_batch_no_variations))
              Hrun eq_refl)
    as (p2 & w2 & Haccept & _ & Hhook & _ & _ & Honly).
  exists p2, w2. split; [exact Haccept|]. split; [exact Hhook|exact Honly].
Defined.

(** ** What a batch does to the table *)

Lemma for_of_generateOne_adds (env : Env) (options : option GeneratePostsBatchOptions.t)
    (cs : list GeneratedPost.t) (k : nat) (w w' : World) (r : Completion (list Post.t)) :
  for_of (generateOne env (nanoid env 0) (clock env 0)
            (User.id <$> (options ≫= GeneratePostsBatchOptions.createdBy))) k cs w
    = (r, w') →
  emptyHistory w' = emptyHistory w ∧
  (∀ id post, posts w !! id = Some post → posts w' !! id = Some post) ∧
  (∀ id post, posts w !! id = None → posts w' !! id = Some post →
     ∃ i c, cs !! i = Some c ∧ id = nanoid env (S (k + i)) ∧
            post = batchPost env options (k + i) c).
Proof.
  revert k w w' r. induction cs as [|c cs IH]; intros k w w' r.
  { intros [= <- <-]. split; [done|]. split; [done|]. intros id post Hnone.
    by rewrite Hnone. }
  cbn [for_of]. unfold bind at 1. unfold generateOne at 1. unfold bind at 1.
  rewrite candidateImage_eq. unfold db_insert. cbn [Post.id newPost].
  destruct (posts w !! nanoid env (S k)) eqn:Hfree.
  { intros [= <- <-]. split; [done|]. split; [done|]. intros id post Hnone.
    by rewrite Hnone. }
  unfold bind at 1.
  match goal with
  | |- context [for_of ?body ?i cs ?w1] =>
      specialize (IH i w1); destruct (for_of body i cs w1) as [r1 w2]
  end.
  destruct (IH w2 r1 eq_refl) as (Hshared & Hkept & Hadded). cbn [posts emptyHistory] in *.
  intros Hrun. assert (w' = w2) as -> by (destruct r1; by injection Hrun). clear Hrun.
  split; [done|]. split.
  { intros id post Hpost. apply Hkept. rewrite lookup_insert_ne; [done|congruence]. }
  intros id post Hnone Hpost. destruct (decide (id = nanoid env (S k))) as [->|Hne].
  - exists 0, c. split; [done|]. rewrite Nat.add_0_r. split; [done|].
    specialize (Hkept _ _ (lookup_insert_eq _ _ _)). unfold batchPost. congruence.
  - destruct (Hadded id post) as (i & c' & Hc & -> & ->); [by rewrite lookup_insert_ne|done|].
    exists (S i), c'. split; [done|]. by rewrite Nat.add_succ_r.
Qed.

Lemma batch_row_batchPost (env : Env) (options : option GeneratePostsBatchOptions.t)
    (i : nat) (content : GeneratedPost.t) :
  batch_row env options i content (batchPost env options i content).
Proof.
  unfold batch_row, content_of, batchPost, newPost. cbn.
  by destruct (imageColumns _).
Qed.

(** The loop over [l1 ++ l2] is the loop over [l1], then the one over [l2]
    from where the first stopped, unless the first threw. *)
Lemma for_of_app {A B} (body : nat → A → Async B) (k : nat) (l1 l2 : list A) (w : World) :
  for_of body k (l1 ++ l2) w =
  match for_of body k l1 w with
  | (Returned bs, w1) =>
      match for_of body (k + length l1) l2 w1 with
      | (Returned bs', w2) => (Returned (bs ++ bs'), w2)
      | (Thrown e, w2) => (Thrown e, w2)
      end
  | (Thrown e, w1) => (Thrown e, w1)
  end.
Proof.
  revert k w. induction l1 as [|a l1 IH]; intros k w.
  - cbn. rewrite Nat.add_0_r. by destruct (for_of body k l2 w) as [[bs'|e] w2].
  - cbn [app for_of length]. unfold bind, ret.
    destruct (body k a w) as [[b|e] w0]; [|done].
    rewrite IH.
    destruct (for_of body (S k) l1 w0) as [[bs|e] w1]; [|done].
    rewrite Nat.add_succ_r. cbn [Nat.add].
    by destruct (for_of body (S (k + length l1)) l2 w1) as [[bs'|e] w2].
Qed.

Lemma drawn_before (ids : nat → string) (k : nat) (id : string) :
  (∃ i, i < k ∧ id = ids i) ∨ (∀ i, i < k → id ≠ ids i).
Proof.
  induction k as [|k [(i & Hi & Heq)|Hnone]].
  - right. lia.
  - left. exists i. split; [lia|done].
  - destruct (decide (id = ids k)) as [Heq|Hne].
    + left. exists k. split; [lia|done].
    + right. intros i Hi. destruct (decide (i = k)) as [->|]; [done|]. apply Hnone. lia.
Qed.

(** The insert of candidate [k] is refused, after [k] inserts that went
    through: the loop stops there, with the [k] rows in the table. *)
Lemma for_of_generateOne_refused
    (env : Env) (options : option GeneratePostsBatchOptions.t)
    (cs : list GeneratedPost.t) (k : nat) (w : World) :
  k < length cs →
  (∀ i, i < k → posts w !! nanoid env (S i) = None) →
  (∀ i j, i < k → j < k → nanoid env (S i) = nanoid env (S j) → i = j) →
  is_Some (posts w !! nanoid env (S k)) ∨ (∃ i, i < k ∧ nanoid env (S k) = nanoid env (S i)) →
  ∃ w',
    for_of (generateOne env (nanoid env 0) (clock env 0)
              (User.id <$> (options ≫= GeneratePostsBatchOptions.createdBy))) 0 cs w
      = (Thrown (ConstraintError "UNIQUE constraint failed: posts.id"), w') ∧
    emptyHistory w' = emptyHistory w ∧
    (∀ i c, i < k → cs !! i = Some c →
            posts w' !! nanoid env (S i) = Some (batchPost env options i c)) ∧
    (∀ id, (∀ i, i < k → id ≠ nanoid env (S i)) → posts w' !! id = posts w !! id).
Proof.
  intros Hk Hfresh Hinj Htaken.
  destruct (lookup_lt_is_Some_2 cs k Hk) as [c Hc].
  assert (Hlen : length (take k cs) = k) by (rewrite length_take; lia).
  destruct (for_of_generateOne env options (take k cs) 0 w) as (w1 & Hrun & Hshared & Hnew & Hold).
  { intros i. rewrite Hlen. apply Hfresh. }
  { intros i j. rewrite Hlen. apply Hinj. }
  cbn [Nat.add] in Hrun, Hnew, Hold. rewrite Hlen in Hold.
  exists w1. split; [|split; [done|split; [|done]]].
  - rewrite <- (take_drop_middle cs k c Hc) at 1. rewrite for_of_app, Hrun.
    rewrite Hlen. cbn [Nat.add for_of]. unfold bind at 1. unfold generateOne at 1.
    unfold bind at 1. rewrite candidateImage_eq. unfold db_insert. cbn [Post.id newPost].
    assert (Hthere : is_Some (posts w1 !! nanoid env (S k))).
    { destruct Htaken as [Hin|(i & Hi & Heq)].
      - destruct (drawn_before (λ i, nanoid env (S i)) k (nanoid env (S k)))
          as [(i & Hi & Heq)|Hnone].
        + destruct (lookup_lt_is_Some_2 (take k cs) i) as [c' Hc']; [lia|].
          rewrite Heq, (Hnew i c' Hc'). by eexists.
        + by rewrite Hold.
      - destruct (lookup_lt_is_Some_2 (take k cs) i) as [c' Hc']; [lia|].
        rewrite Heq, (Hnew i c' Hc'). by eexists. }
    by destruct Hthere as [existing ->].
  - intros i c' Hi Hc'. apply Hnew. by rewrite lookup_take_lt.
Qed.

(** X8.  A batch only ever adds rows, whatever comes of it: rows that were
    in the table are found unchanged afterwards, the shared object is not
    touched, and every row that is new is the row of one of the generated
    candidates: filed under the id of its [nanoid()] call, with the
    candidate's content, a draft of this batch, with no history and no
    approver, rejector or poster.  When the content generator fails the
    batch fails with its error and nothing changes.  And the rows are
    inserted one by one, with nothing to take them back: when the insert of
    candidate [k] is refused, its id being that of a row of the table or of
    an earlier candidate, after [k] inserts under new and distinct ids, the
    batch throws the error of the database, the rows of the first [k]
    candidates are in the table, and every other row is as it was. *)
Theorem generatePostsBatch_only_adds
    (env : Env) (options : option GeneratePostsBatchOptions.t) (w : World) :
  emptyHistory (snd (generatePostsBatch env options w)) = emptyHistory w ∧
  (∀ id post, posts w !! id = Some post →
              posts (snd (generatePostsBatch env options w)) !! id = Some post) ∧
  (∀ id post,
     posts w !! id = None →
     posts (snd (generatePostsBatch env options w)) !! id = Some post →
     ∃ cs i c, generatePostsWithAI env (contentRequest options) = Returned cs ∧
               cs !! i = Some c ∧ id = nanoid env (S i) ∧ batch_row env options i c post) ∧
  (∀ e, generatePostsWithAI env (contentRequest options) = Thrown e →
        generatePostsBatch env options w = (Thrown e, w)) ∧
  (∀ cs k,
     generatePostsWithAI env (contentRequest options) = Returned cs →
     k < length cs →
     (∀ i, i < k → posts w !! nanoid env (S i) = None) →
     (∀ i j, i < k → j < k → nanoid env (S i) = nanoid env (S j) → i = j) →
     is_Some (posts w !! nanoid env (S k)) ∨
       (∃ i, i < k ∧ nanoid env (S k) = nanoid env (S i)) →
     fst (generatePostsBatch env options w)
       = Thrown (ConstraintError "UNIQUE constraint failed: posts.id") ∧
     (∀ i c, i < k → cs !! i = Some c →
        ∃ post, posts (snd (generatePostsBatch env options w)) !! nanoid env (S i) = Some post ∧
                batch_row env options i c post) ∧
     (∀ id, (∀ i, i < k → id ≠ nanoid env (S i)) →
        posts (snd (generatePostsBatch env options w)) !! id = posts w !! id)).
Proof.
  pose proof (for_of_generateOne_adds env options) as Hloop.
  pose proof (for_of_generateOne_refused env options) as Hrefused.
  unfold generatePostsBatch. cbn zeta. fold (contentRequest options).
  unfold bind at 1 3 5 7 9 11 13, await.
  destruct (generatePostsWithAI env (contentRequest options)) as [cs|e] eqn:Hcs.
  2: { cbn [snd]. split; [done|]. split; [done|]. split; [|split; [by intros ? [= <-]|done]].
       intros id post Hnone. by rewrite Hnone. }
  specialize (Hloop cs 0 w). specialize (Hrefused cs). unfold bind.
  destruct (for_of _ 0 cs w) as [[ps|e] w'] eqn:Hrun; cbn [fst snd].
  all: destruct (Hloop _ _ eq_refl) as (Hshared & Hkept & Hadded).
  all: split; [done|]; split; [done|]; split; [|split; [done|]].
  1, 3: intros id post Hnone Hpost;
    destruct (Hadded id post Hnone Hpost) as (i & c & Hc & -> & ->);
    exists cs, i, c; do 3 (split; [done|]); apply batch_row_batchPost.
  all: intros cs' k [= <-] Hk Hfresh Hinj Htaken.
  all: destruct (Hrefused k w Hk Hfresh Hinj Htaken) as (w'' & Hrun' & _ & Hnew & Hold).
  all: rewrite Hrun in Hrun'.
  1: discriminate Hrun'.
  injection Hrun' as -> <-.
  split; [done|]. split; [|done].
  intros i c Hi Hc. eexists. split; [by apply Hnew|]. apply batch_row_batchPost.
Qed.

(** While the second post of a batch draws the id of [post-1], the batch
    fails, and the row of its first post stays in the table. *)
Lemma generatePostsBatch_only_adds_witness :
  fst (generatePostsBatch Cases.colliding_env two_posts after_batch)
    = Thrown (ConstraintError "UNIQUE constraint failed: posts.id") ∧
  ∃ post,
    posts (snd (generatePostsBatch Cases.colliding_env two_posts after_batch)) !! "next-1"
      = Some post ∧
    batch_row Cases.colliding_env two_posts 0 lunchbox post.
Proof.
  destruct (proj2 (proj2 (proj2 (proj2
              (generatePostsBatch_only_adds Cases.colliding_env two_posts after_batch))))
              [lunchbox; bedtime] 1 eq_refl) as (Hthrown & Hrows & _).
  - cbn. lia.
  - intros i Hi. replace i with 0 by lia. vm_compute. reflexivity.
  - intros i j Hi Hj _. lia.
  - left. vm_compute. eexists. reflexivity.
  - split; [exact Hthrown|]. exact (Hrows 0 lunchbox (Nat.lt_0_1) eq_refl).
Defined.

(** ** The rows of a reachable world *)

Lemma service_row_view (w : World) (key : string) (post : Post.t) :
  service_row key post →
  ∃ tvs ivs, view w (parseHistory (Post.history post)) = JsonObject (Some tvs) (Some ivs).
Proof.
  intros (_ & _ & [Hnull|[h Hdoc]]).
  - rewrite Hnull. cbn. by eexists _, _.
  - rewrite Hdoc. cbn. by eexists _, _.
Qed.

Lemma service_rows_write (w : World) (key : string) (post' : Post.t)
    (shared : VariationHistory) :
  service_rows w → service_row key post' →
  service_rows (mkWorld (<[key := post']> (posts w)) shared).
Proof. intros Hrows Hrow. by apply map_Forall_insert_2. Qed.

Lemma db_update_service_rows (sets : list Assignment) (id : string) (w : World) :
  (∀ key post, service_row key post → service_row key (foldl assign post sets)) →
  service_rows w → service_rows (snd (db_update sets id w)).
Proof.
  intros Hsets Hrows. unfold db_update. cbn [snd].
  destruct (posts w !! id) as [post|] eqn:Hpost.
  - rewrite (alter_present _ _ _ _ Hpost). apply service_rows_write; [done|].
    apply Hsets. by apply (Hrows id).
  - rewrite (alter_absent _ _ _ Hpost). by rewrite world_eta.
Qed.

Lemma for_of_generateOne_service_rows env batchId now createdBy
    (cs : list GeneratedPost.t) (k : nat) (w : World) :
  service_rows w →
  service_rows (snd (for_of (generateOne env batchId now createdBy) k cs w)).
Proof.
  revert k w. induction cs as [|c cs IH]; intros k w Hinv; [done|].
  cbn [for_of]. unfold bind at 1. unfold generateOne at 1. unfold bind at 1.
  rewrite candidateImage_eq. unfold db_insert. cbn [Post.id newPost].
  destruct (posts w !! nanoid env (S k)); [done|].
  unfold bind at 1.
  match goal with
  | |- context [for_of ?body ?i cs ?w1] =>
      specialize (IH i w1); destruct (for_of body i cs w1) as [[ps|e] w2]
  end.
  all: cbn in *; apply IH; apply service_rows_write; [done|].
  all: split; [done|]; split; [by eexists|by left].
Qed.

Lemma handle_service_rows env request (w : World) :
  service_rows w → service_rows (handle env request w).
Proof.
  intros Hinv. destruct request as [options|id user|id user|id user|id|input|postId vid|input];
    cbn [handle].
  - unfold generatePostsBatch. cbn zeta. unfold bind at 1, await.
    destruct (generatePostsWithAI env _) as [cs|]; [|done].
    unfold bind.
    pose proof (for_of_generateOne_service_rows env (nanoid env 0) (clock env 0)
      (User.id <$> (options ≫= GeneratePostsBatchOptions.createdBy)) cs 0 w Hinv) as H.
    by destruct (for_of _ 0 cs w) as [[ps|e] w'].
  - unfold approvePost, bind, getPost.
    apply (db_update_service_rows _ id w); [by intros ? []|done].
  - unfold rejectPost, bind, getPost.
    apply (db_update_service_rows _ id w); [by intros ? []|done].
  - unfold markPostAsPosted, bind, getPost.
    apply (db_update_service_rows _ id w); [by intros ? []|done].
  - destruct (deletePost_rows env id w) as [Hrows _].
    unfold service_rows. rewrite Hrows. by apply map_Forall_delete.
  - rewrite createTextVariations_eq. cbn zeta.
    destruct (posts w !! _) as [post|] eqn:Hpost; [|done].
    destruct (hashtagsOf post); [|done].
    destruct (generateTextVariationsWithAI env _) as [variations|]; [|done].
    destruct (service_row_view w _ post (Hinv _ _ Hpost)) as (tvs & ivs & ->).
    cbn [snd]. apply service_rows_write; [done|].
    destruct (Hinv _ _ Hpost) as (Hid & Htags & _).
    split; [by destruct post|]. split; [by destruct post|].
    right. exists (mkHistory (tvs ++ imap (variationRecord env input) variations) ivs).
    by destruct post.
  - rewrite acceptTextVariation_eq.
    destruct (posts w !! postId) as [post|] eqn:Hpost; [|done].
    cbn zeta. destruct (service_row_view w _ post (Hinv _ _ Hpost)) as (tvs & ivs & ->).
    destruct (List.find _ tvs) as [variation|]; [|done].
    cbn [snd]. apply service_rows_write; [done|].
    destruct (Hinv _ _ Hpost) as (Hid & _).
    split; [by destruct post|]. split; [destruct post; by eexists|].
    right. exists (mkHistory (mark_accepted vid <$> tvs) ivs). by destruct post.
  - rewrite regenerateImage_eq. cbn zeta.
    destruct (posts w !! _) as [post|] eqn:Hpost; [|done].
    destruct (generateImprovedImagePrompt env _) as [improved|]; [|done].
    destruct (service_row_view w _ post (Hinv _ _ Hpost)) as (tvs & ivs & ->).
    destruct (imageOutcome env _ _ _) as [uploaded|e] eqn:Hout; [|done].
    cbn [snd]. apply service_rows_write; [done|].
    destruct (Hinv _ _ Hpost) as (Hid & Htags & _).
    split; [by destruct post|]. split; [by destruct post|].
    right. eexists (mkHistory tvs _). by destruct post.
Qed.

Lemma reachable_service_rows (w : World) : reachable w → service_rows w.
Proof.
  induction 1 as [|w env request _ IH Hnew|w _ IH].
  - apply map_Forall_empty.
  - by apply handle_service_rows.
  - done.
Qed.

(** X9.  On the rows of a reachable world the three edit operations fail
    only for the reasons they name (a database statement that is rejected
    aside, see [db_update]).  [createTextVariations] throws only when the
    post is missing or the generator fails; [acceptTextVariation] throws
    only when the post is missing, or when the post is there and no entry
    has the id, neither in the log the call reads nor in the post's own
    log, and it leaves everything as it was; [regenerateImage] throws only
    when the post is missing, the prompt improvement fails or the image
    producer fails.  No [SyntaxError] of [JSON.parse] and no [TypeError] of
    a missing array can come up. *)
Theorem reachable_failures (env : Env) (w : World) :
  reachable w →
  (∀ input e w',
     createTextVariations env input w = (Thrown e, w') →
     (e = NotFound ∧ posts w !! CreateTextVariationsInput.postId input = None) ∨
     ∃ post hashtags,
       posts w !! CreateTextVariationsInput.postId input = Some post ∧
       Post.hashtags post = Some (JsonOf hashtags) ∧
       generateTextVariationsWithAI env (variationsRequest input post hashtags) = Thrown e) ∧
  (∀ postId variationId e w',
     acceptTextVariation env postId variationId w = (Thrown e, w') →
     w' = w ∧
     ((e = NotFound ∧ posts w !! postId = None) ∨
      (e = VariationNotFound ∧
       ∃ post tvs ivs,
         posts w !! postId = Some post ∧
         view w (parseHistory (Post.history post)) = JsonObject (Some tvs) ivs ∧
         (∀ v, v ∈ tvs → TextVariation.id v ≠ variationId) ∧
         (∀ v, v ∈ textVariationsOf post → TextVariation.id v ≠ variationId)))) ∧
  (∀ input e w',
     regenerateImage env input w = (Thrown e, w') →
     (e = NotFound ∧ posts w !! RegenerateImageInput.postId input = None) ∨
     ∃ post,
       posts w !! RegenerateImageInput.postId input = Some post ∧
       (generateImprovedImagePrompt env (promptRequest input post) = Thrown e ∨
        ∃ improved,
          generateImprovedImagePrompt env (promptRequest input post) = Returned improved ∧
          imageOutcome env (Post.imageStyle post)
            (ImprovedImagePrompt.imagePrompt improved) (Post.id post) = Thrown e)).
Proof.
  intros Hrows%reachable_service_rows. split; [|split].
  - intros input e w'. rewrite createTextVariations_eq. cbn zeta.
    destruct (posts w !! _) as [post|] eqn:Hpost; [|intros [= <- <-]; by left].
    destruct (Hrows _ _ Hpost) as (_ & [tags Htags] & _).
    destruct (service_row_view w _ post (Hrows _ _ Hpost)) as (tvs & ivs & ->).
    unfold hashtagsOf. rewrite Htags.
    destruct (generateTextVariationsWithAI env _) as [variations|e'] eqn:Hgen; [done|].
    intros [= <- <-]. right. by exists post, tags.
  - intros postId variationId e w'. rewrite acceptTextVariation_eq.
    destruct (posts w !! postId) as [post|] eqn:Hpost;
      [|intros [= <- <-]; split; [done|by left]].
    cbn zeta.
    destruct (service_row_view w _ post (Hrows _ _ Hpost)) as (tvs & ivs & Hview).
    rewrite Hview. destruct (List.find _ tvs) eqn:Hfind; [done|].
    intros [= <- <-]. split; [done|]. right. split; [done|].
    assert (Hread : ∀ v, v ∈ tvs → TextVariation.id v ≠ variationId).
    { intros v Hv%list_elem_of_In. apply (find_none _ _ Hfind) in Hv.
      by apply bool_decide_eq_false in Hv. }
    exists post, tvs, (Some ivs). do 3 (split; [done|]).
    destruct (view_log w post _ _ Hview) as [[Hempty _]|[_ Hown]].
    + intros v. unfold textVariationsOf, route_parseHistory.
      revert Hempty. unfold parseHistory.
      destruct (truthy_text (Post.history post)); cbn;
        [destruct (Post.history post) as [[raw|h]|]; cbn; try done|];
        intros _ Hv; by apply elem_of_nil in Hv.
    + by rewrite Hown.
  - intros input e w'. rewrite regenerateImage_eq. cbn zeta.
    destruct (posts w !! _) as [post|] eqn:Hpost; [|intros [= <- <-]; by left].
    destruct (generateImprovedImagePrompt env _) as [improved|e'] eqn:Himp.
    2: { intros [= <- <-]. right. exists post. split; [done|]. by left. }
    destruct (service_row_view w _ post (Hrows _ _ Hpost)) as (tvs & ivs & ->).
    destruct (imageOutcome env _ _ _) as [uploaded|e'] eqn:Hout; [done|].
    intros [= <- _]. right. exists post. split; [done|]. right. by exists improved.
Qed.

Lemma reachable_failures_witness :
  fst (acceptTextVariation accept_env "post-2" "va-9" after_brighter)
    = Thrown VariationNotFound ∧
  ∃ post tvs ivs,
    posts after_brighter !! "post-2" = Some post ∧
    view after_brighter (parseHistory (Post.history post)) = JsonObject (Some tvs) ivs ∧
    (∀ v, v ∈ tvs → TextVariation.id v ≠ "va-9") ∧
    (∀ v, v ∈ textVariationsOf post → TextVariation.id v ≠ "va-9").
Proof.
  assert (Hrun : acceptTextVariation accept_env "post-2" "va-9" after_brighter
                 = (Thrown VariationNotFound, after_brighter))
    by (vm_compute; reflexivity).
  split; [rewrite Hrun; reflexivity|].
  destruct (proj1 (proj2 (reachable_failures accept_env after_brighter
                            reachable_after_brighter))
              "post-2" "va-9" VariationNotFound after_brighter Hrun)
    as [_ [[Hne _]|[_ Hrows]]].
  - clear Hrun. discriminate Hne.
  - exact Hrows.
Defined.

(** ** The server functions on the rows of a reachable world *)

Lemma parsePost_service_row (key : string) (post : Post.t) :
  service_row key post → parsePost post = Returned (client_view post).
Proof.
  intros (_ & [tags Htags] & _). unfold parsePost, client_view, parseHashtags, hashtagsOf.
  by rewrite Htags.
Qed.

Lemma null_or_parsed_row (key : string) (r : option Post.t) (w : World) :
  (∀ post, r = Some post → service_row key post) →
  null_or_parsed r w = (Returned (client_view <$> r), w).
Proof.
  destruct r as [post|]; [|done]. intros Hrow. unfold null_or_parsed, bind, await.
  by rewrite (parsePost_service_row key post (Hrow post eq_refl)).
Qed.

Lemma map_parsePost_rows (ps : list Post.t) :
  Forall (λ post, service_row (Post.id post) post) ps →
  map_parsePost ps = Returned (client_view <$> ps).
Proof.
  induction 1 as [|post ps Hrow _ IH]; [done|]. cbn [map_parsePost].
  by rewrite (parsePost_service_row _ post Hrow), IH.
Qed.

Lemma status_change_returns (sets : list Assignment) (id : string) (w : World) :
  ∃ w', bind (db_update sets id) (λ _, getPost id) w = (Returned (posts w' !! id), w').
Proof. by eexists. Qed.

Lemma acceptTextVariation_returns env postId variationId (w w' : World) r :
  acceptTextVariation env postId variationId w = (Returned r, w') → r = posts w' !! postId.
Proof.
  rewrite acceptTextVariation_eq.
  destruct (posts w !! postId) as [post|]; [|done]. cbn zeta.
  destruct (view w _) as [|[tvs|] ivs]; try done.
  destruct (List.find _ tvs); [|done]. intros [= <- <-]. cbn. by rewrite lookup_insert_eq.
Qed.

Lemma regenerateImage_returns env input (w w' : World) r :
  regenerateImage env input w = (Returned r, w') →
  r = posts w' !! RegenerateImageInput.postId input.
Proof.
  rewrite regenerateImage_eq. cbn zeta.
  destruct (posts w !! _) as [post|]; [|done].
  destruct (generateImprovedImagePrompt env _); [|done].
  destruct (view w _) as [|tvs [ivs|]];
    try (destruct (truthy_opt_string _); [done|]; by destruct (imageOutcome env _ _ _)).
  destruct (imageOutcome env _ _ _); [|done].
  intros [= <- <-]. cbn. by rewrite lookup_insert_eq.
Qed.

Lemma for_of_generateOne_returns env batchId now createdBy
    (cs : list GeneratedPost.t) (k : nat) (w w' : World) (ps : list Post.t) :
  for_of (generateOne env batchId now createdBy) k cs w = (Returned ps, w') →
  Forall (λ post, service_row (Post.id post) post) ps.
Proof.
  revert k w ps. induction cs as [|c cs IH]; intros k w ps.
  { intros [= <- _]. constructor. }
  cbn [for_of]. unfold bind at 1. unfold generateOne at 1. unfold bind at 1.
  rewrite candidateImage_eq. unfold db_insert. cbn [Post.id newPost].
  destruct (posts w !! nanoid env (S k)); [done|].
  unfold bind at 1.
  match goal with
  | |- context [for_of ?body ?i cs ?w1] =>
      specialize (IH i w1); destruct (for_of body i cs w1) as [[ps'|e] w2]
  end; [|done].
  intros [= <- <-]. constructor; [|by apply IH].
  split; [done|]. split; [by eexists|by left].
Qed.

Lemma generatePostsBatch_parses (env : Env) (options : option GeneratePostsBatchOptions.t)
    (w : World) :
  bind (generatePostsBatch env options)
    (λ result, bind (await (map_parsePost (GenerateBatchResult.posts result)))
                 (λ parsed, ret (GenerateBatchResult.batchId result, parsed))) w
  = answers_as (λ result, (GenerateBatchResult.batchId result,
                           client_view <$> GenerateBatchResult.posts result))
      (generatePostsBatch env options w).
Proof.
  unfold bind at 1.
  destruct (generatePostsBatch env options w) as [[result|e] w'] eqn:Hrun; [|done].
  cbn [answers_as]. unfold bind, await, ret.
  enough (Hrows : Forall (λ post, service_row (Post.id post) post)
                    (GenerateBatchResult.posts result))
    by (by rewrite (map_parsePost_rows _ Hrows)).
  revert Hrun. unfold generatePostsBatch. cbn zeta. unfold bind at 1, await.
  destruct (generatePostsWithAI env _) as [cs|e]; [|done].
  unfold bind.
  destruct (for_of _ 0 cs w) as [[ps|e] w''] eqn:Hloop; [|done].
  intros [= <- _]. apply (for_of_generateOne_returns _ _ _ _ _ _ _ _ _ Hloop).
Qed.

(** X10.  In a reachable world no handler fails in [parsePost]: it fails
    exactly when the service call fails, returns [null] exactly when the
    service returned [undefined], and otherwise returns the post with its
    hashtags as an array and its history as an object with both arrays.
    The rows of a generated batch parse as well. *)
Theorem handlers_answer_as_service (env : Env) (user : option User.t) (w : World) :
  reachable w →
  (∀ id, getPostFn id w = (Returned (client_view <$> posts w !! id), w)) ∧
  (∀ id, approvePostFn env user id w
         = answers_as (fmap client_view) (approvePost env id user w)) ∧
  (∀ id, rejectPostFn env user id w
         = answers_as (fmap client_view) (rejectPost env id user w)) ∧
  (∀ id, markPostedFn env user id w
         = answers_as (fmap client_view) (markPostAsPosted env id user w)) ∧
  (∀ postId variationId,
     acceptTextVariationFn env postId variationId w
     = answers_as (fmap client_view) (acceptTextVariation env postId variationId w)) ∧
  (∀ postId feedback,
     regenerateImageFn env postId feedback w
     = answers_as (fmap client_view)
         (regenerateImage env (RegenerateImageInput.mk postId feedback) w)) ∧
  generatePostsFn env user w
    = answers_as (λ result, (GenerateBatchResult.batchId result,
                             client_view <$> GenerateBatchResult.posts result))
        (generatePostsBatch env (Some (GeneratePostsBatchOptions.mk None None user)) w) ∧
  (∀ prompt count,
     generatePostsWithPromptFn env user prompt count w
     = answers_as (λ result, (GenerateBatchResult.batchId result,
                              client_view <$> GenerateBatchResult.posts result))
         (generatePostsBatch env
            (Some (GeneratePostsBatchOptions.mk (Some prompt) (Some count) user)) w)) ∧
  (∀ id post, posts w !! id = Some post →
     ∃ tags h, ParsedPost.hashtags (client_view post) = tags ∧
               Post.hashtags post = Some (JsonOf tags) ∧
               ParsedPost.history (client_view post) = history_value h).
Proof.
  intros Hrows%reachable_service_rows.
  assert (Hstatus : ∀ request sets id,
            handle env request w = snd (bind (db_update sets id) (λ _, getPost id) w) →
            bind (bind (db_update sets id) (λ _, getPost id)) null_or_parsed w
            = answers_as (fmap client_view) (bind (db_update sets id) (λ _, getPost id) w)).
  { intros request sets id Hhandle. pose proof (handle_service_rows env request w Hrows) as H.
    rewrite Hhandle in H. unfold bind at 1.
    destruct (status_change_returns sets id w) as [w' Hrun]. rewrite Hrun in *.
    cbn [answers_as snd] in *. apply (null_or_parsed_row id). intros post Hpost.
    by apply (H id). }
  split; [|split; [|split; [|split; [|split; [|split; [|split; [|split]]]]]]].
  - intros id. unfold getPostFn, bind, getPost. apply (null_or_parsed_row id).
    intros post Hpost. by apply (Hrows id).
  - intros id. by apply (Hstatus (ApprovePost id user)).
  - intros id. by apply (Hstatus (RejectPost id user)).
  - intros id. by apply (Hstatus (MarkPostAsPosted id user)).
  - intros postId variationId. unfold acceptTextVariationFn, bind.
    pose proof (handle_service_rows env (AcceptTextVariation postId variationId) w Hrows) as H.
    cbn [handle] in H.
    destruct (acceptTextVariation env postId variationId w) as [[r|e] w'] eqn:Hrun; [|done].
    cbn [answers_as snd] in *. apply (null_or_parsed_row postId). intros post ->.
    apply (H postId). by rewrite (acceptTextVariation_returns _ _ _ _ _ _ Hrun).
  - intros postId feedback. unfold regenerateImageFn, bind.
    pose proof (handle_service_rows env
                  (RegenerateImage (RegenerateImageInput.mk postId feedback)) w Hrows) as H.
    cbn [handle] in H.
    destruct (regenerateImage env _ w) as [[r|e] w'] eqn:Hrun; [|done].
    cbn [answers_as snd] in *. apply (null_or_parsed_row postId). intros post ->.
    apply (H postId). by rewrite (regenerateImage_returns _ _ _ _ _ Hrun).
  - apply generatePostsBatch_parses.
  - intros prompt count. apply generatePostsBatch_parses.
  - intros id post Hpost. destruct (Hrows id post Hpost) as (_ & [tags Htags] & Hhist).
    unfold client_view, hashtagsOf. rewrite Htags. cbn.
    destruct Hhist as [->|[h ->]]; by eexists _, _.
Qed.

Lemma handlers_answer_as_service_witness :
  ∃ parsed,
    getPostFn "post-1" after_shorter = (Returned (Some parsed), after_shorter) ∧
    ParsedPost.hashtags parsed = ["lunchbox"; "mealprep"] ∧
    length (textVariationsOf (ParsedPost.row parsed)) = 3.
Proof.
  assert (HP : ∃ post, posts after_shorter !! "post-1" = Some post ∧
                       ParsedPost.hashtags (client_view post) = ["lunchbox"; "mealprep"] ∧
                       length (textVariationsOf post) = 3).
  { eexists. split; [|split]; vm_compute; reflexivity. }
  destruct HP as (post & Hpost & Htags & Hlog).
  exists (client_view post).
  rewrite (proj1 (handlers_answer_as_service batch_env None after_shorter
                    reachable_after_shorter) "post-1").
  rewrite Hpost. split; [reflexivity|]. split; [exact Htags|exact Hlog].
Defined.

(** ** [parsePost] on columns that are not JSON *)

(** X11.  [parsePost] treats its two JSON columns differently.  A history
    that is [NULL], empty or not JSON is read as the empty history; hashtags
    that are [NULL] or empty are read as no hashtags; but a hashtags text
    that is not JSON makes [parsePost] throw the [SyntaxError] of
    [JSON.parse], and with it [getPostFn] for that post. *)
Theorem parsePost_malformed_columns (post : Post.t) :
  (∀ raw, Post.hashtags post = Some (NotJson raw) → raw ≠ "" →
     parsePost post = Thrown SyntaxError ∧
     ∀ id w, posts w !! id = Some post → getPostFn id w = (Thrown SyntaxError, w)) ∧
  (Post.hashtags post = None ∨ Post.hashtags post = Some (NotJson "") →
     ∃ parsed, parsePost post = Returned parsed ∧ ParsedPost.hashtags parsed = []) ∧
  (∀ parsed, parsePost post = Returned parsed →
     ParsedPost.row parsed = post ∧
     ((Post.history post = None ∨ ∃ raw, Post.history post = Some (NotJson raw)) →
      ParsedPost.history parsed = JsonObject (Some []) (Some [])) ∧
     (∀ v, Post.history post = Some (JsonOf v) → ParsedPost.history parsed = v)).
Proof.
  split; [|split].
  - intros raw Htags Hraw.
    assert (Hthrow : parsePost post = Thrown SyntaxError).
    { unfold parsePost, parseHashtags. rewrite Htags. cbn. unfold truthy_string.
      by rewrite bool_decide_eq_false_2. }
    split; [done|]. intros id w Hpost. unfold getPostFn, bind, getPost. rewrite Hpost.
    cbn. unfold bind, await. by rewrite Hthrow.
  - unfold parsePost, parseHashtags. intros [->| ->]; by eexists.
  - intros parsed. unfold parsePost.
    destruct (parseHashtags (Post.hashtags post)) as [tags|]; [|done].
    intros [= <-]. cbn. split; [done|]. split.
    + intros [->|[raw ->]]; [done|]. unfold route_parseHistory. cbn.
      by destruct (truthy_string raw).
    + by intros v ->.
Qed.

(** ** Posts that store a history document *)

Lemma stored_document_parsed (post : Post.t) :
  stored_document post →
  ∃ v, Post.history post = Some (JsonOf v) ∧ parseHistory (Post.history post) = ParsedObject v.
Proof. intros [v Hv]. exists v. by rewrite Hv. Qed.

(** X12.  A post whose history column holds a JSON document is out of reach
    of the shared empty-history object: what [createTextVariations],
    [acceptTextVariation] and [regenerateImage] return for it and write to
    the table is the same whatever that object holds, and they leave the
    object as it is. *)
Theorem stored_document_isolated (env : Env) (w1 w2 : World) (id : string) (post : Post.t) :
  posts w1 = posts w2 →
  posts w1 !! id = Some post →
  stored_document post →
  (∀ feedback tone,
     let input := CreateTextVariationsInput.mk id feedback tone in
     fst (createTextVariations env input w1) = fst (createTextVariations env input w2) ∧
     posts (snd (createTextVariations env input w1))
       = posts (snd (createTextVariations env input w2)) ∧
     emptyHistory (snd (createTextVariations env input w1)) = emptyHistory w1) ∧
  (∀ variationId,
     fst (acceptTextVariation env id variationId w1)
       = fst (acceptTextVariation env id variationId w2) ∧
     posts (snd (acceptTextVariation env id variationId w1))
       = posts (snd (acceptTextVariation env id variationId w2)) ∧
     emptyHistory (snd (acceptTextVariation env id variationId w1)) = emptyHistory w1) ∧
  (∀ feedback,
     let input := RegenerateImageInput.mk id feedback in
     fst (regenerateImage env input w1) = fst (regenerateImage env input w2) ∧
     posts (snd (regenerateImage env input w1)) = posts (snd (regenerateImage env input w2)) ∧
     emptyHistory (snd (regenerateImage env input w1)) = emptyHistory w1).
Proof.
  intros Hrows Hpost (v & Hv & Hparsed)%stored_document_parsed.
  assert (Hpost2 : posts w2 !! id = Some post) by (by rewrite <- Hrows).
  split; [|split].
  - intros feedback tone input. rewrite !createTextVariations_eq. cbn zeta.
    cbn [CreateTextVariationsInput.postId input]. rewrite Hpost, Hpost2, Hparsed.
    destruct (hashtagsOf post); [|done].
    destruct (generateTextVariationsWithAI env _); [|done].
    cbn [view written_through]. destruct v as [|[tvs|] ivs]; try done.
    cbn [fst snd posts emptyHistory]. by rewrite Hrows.
  - intros variationId. rewrite !acceptTextVariation_eq. rewrite Hpost, Hpost2. cbn zeta.
    rewrite Hparsed. cbn [view written_through]. destruct v as [|[tvs|] ivs]; try done.
    destruct (List.find _ tvs); [|done].
    cbn [fst snd posts emptyHistory]. by rewrite Hrows.
  - intros feedback input. rewrite !regenerateImage_eq. cbn zeta.
    cbn [RegenerateImageInput.postId input]. rewrite Hpost, Hpost2, Hparsed.
    destruct (generateImprovedImagePrompt env _); [|done].
    cbn [view written_through].
    destruct v as [|tvs [ivs|]];
      try (destruct (truthy_opt_string _); [done|]; by destruct (imageOutcome env _ _ _)).
    destruct (imageOutcome env _ _ _); [|done].
    cbn [fst snd posts emptyHistory]. by rewrite Hrows.
Qed.

Lemma stored_document_isolated_witness :
  length (textVariations (emptyHistory after_shorter)) = 3 ∧
  fst (acceptTextVariation accept_env "post-1" "va-1" after_shorter)
    = fst (acceptTextVariation accept_env "post-1" "va-1" (fresh_world (posts after_shorter))) ∧
  emptyHistory (snd (acceptTextVariation accept_env "post-1" "va-1" after_shorter))
    = emptyHistory after_shorter.
Proof.
  assert (HP : ∃ post, posts after_shorter !! "post-1" = Some post ∧ stored_document post).
  { eexists. split; [vm_compute; reflexivity|]. eexists. vm_compute. reflexivity. }
  destruct HP as (post & Hpost & Hdoc).
  split; [vm_compute; reflexivity|].
  destruct (proj1 (proj2 (stored_document_isolated accept_env after_shorter
                            (fresh_world (posts after_shorter)) "post-1" post
                            eq_refl Hpost Hdoc)) "va-1")
    as (Hsame & _ & Hshared).
  split; [exact Hsame|exact Hshared].
Defined.

Lemma generatePostsBatch_keeps_rows (env : Env)
    (options : option GeneratePostsBatchOptions.t) (w : World) (id : string) (post : Post.t) :
  posts w !! id = Some post →
  posts (snd (generatePostsBatch env options w)) !! id = Some post.
Proof.
  unfold generatePostsBatch. cbn zeta. unfold bind at 1, await.
  destruct (generatePostsWithAI env _) as [cs|e]; [|done].
  pose proof (for_of_generateOne_adds env options cs 0 w) as Hloop.
  unfold bind. destruct (for_of _ 0 cs w) as [[ps|e] w'];
    destruct (Hloop _ _ eq_refl) as (_ & Hkept & _); apply Hkept.
Qed.

Lemma status_change_keeps_document (sets : list Assignment) (key id : string) (w : World)
    (post : Post.t) :
  (∀ p, Post.history (foldl assign p sets) = Post.history p) →
  posts w !! id = Some post → stored_document post →
  ∃ post', posts (snd (bind (db_update sets key) (λ _, getPost key) w)) !! id = Some post' ∧
           stored_document post'.
Proof.
  intros Hsets Hpost Hdoc. unfold bind, db_update, getPost. cbn [snd posts].
  rewrite lookup_alter. destruct (decide (key = id)) as [->|Hne].
  - rewrite Hpost. eexists. split; [done|]. unfold stored_document. by rewrite Hsets.
  - by exists post.
Qed.

(** X13.  Once a post stores a history document it keeps one: after any
    request the row still holds a JSON document, unless the request deleted
    the post.  And a successful [createTextVariations],
    [acceptTextVariation] or [regenerateImage] leaves its post with a stored
    document, whatever the column held before. *)
Theorem stored_document_kept (env : Env) (request : Request) (w : World) :
  (∀ id post,
     posts w !! id = Some post → stored_document post →
     (∃ post', posts (handle env request w) !! id = Some post' ∧ stored_document post') ∨
     (request = DeletePost id ∧ posts (handle env request w) !! id = None)) ∧
  (∀ input results w',
     createTextVariations env input w = (Returned results, w') →
     ∃ post', posts w' !! CreateTextVariationsInput.postId input = Some post' ∧
              stored_document post') ∧
  (∀ postId variationId r w',
     acceptTextVariation env postId variationId w = (Returned r, w') →
     ∃ post', r = Some post' ∧ posts w' !! postId = Some post' ∧ stored_document post') ∧
  (∀ input r w',
     regenerateImage env input w = (Returned r, w') →
     ∃ post', r = Some post' ∧ posts w' !! RegenerateImageInput.postId input = Some post' ∧
              stored_document post').
Proof.
  assert (Hcreate : ∀ input,
    match createTextVariations env input w with
    | (Returned _, w') =>
        ∃ post', posts w' = <[CreateTextVariationsInput.postId input := post']> (posts w) ∧
                 stored_document post'
    | (Thrown _, w') => w' = w
    end).
  { intros input. rewrite createTextVariations_eq. cbn zeta.
    destruct (posts w !! _) as [post|]; [|done].
    destruct (hashtagsOf post); [|done].
    destruct (generateTextVariationsWithAI env _); [|done].
    destruct (view w _) as [|[tvs|] ivs]; try done.
    eexists. split; [done|]. destruct post. by eexists. }
  assert (Haccept : ∀ postId variationId,
    match acceptTextVariation env postId variationId w with
    | (Returned r, w') =>
        ∃ post', r = Some post' ∧ posts w' = <[postId := post']> (posts w) ∧
                 stored_document post'
    | (Thrown _, w') => w' = w
    end).
  { intros postId variationId. rewrite acceptTextVariation_eq.
    destruct (posts w !! postId) as [post|]; [|done]. cbn zeta.
    destruct (view w _) as [|[tvs|] ivs]; try done.
    destruct (List.find _ tvs); [|done].
    eexists. split; [done|]. split; [done|]. destruct post. by eexists. }
  assert (Hregenerate : ∀ input,
    match regenerateImage env input w with
    | (Returned r, w') =>
        ∃ post', r = Some post' ∧
                 posts w' = <[RegenerateImageInput.postId input := post']> (posts w) ∧
                 stored_document post'
    | (Thrown _, w') => posts w' = posts w
    end).
  { intros input. rewrite regenerateImage_eq. cbn zeta.
    destruct (posts w !! _) as [post|]; [|done].
    destruct (generateImprovedImagePrompt env _); [|done].
    destruct (view w _) as [|tvs [ivs|]];
      try (destruct (truthy_opt_string _); [done|]; by destruct (imageOutcome env _ _ _)).
    destruct (imageOutcome env _ _ _); [|done].
    eexists. split; [done|]. split; [done|]. destruct post. by eexists. }
  split; [|split; [|split]].
  - intros id post Hpost Hdoc.
    destruct request as [options|key user|key user|key user|key|input|postId vid|input];
      cbn [handle].
    + left. exists post. split; [|done]. by apply generatePostsBatch_keeps_rows.
    + left. apply (status_change_keeps_document _ _ _ _ post); [by intros []|done..].
    + left. apply (status_change_keeps_document _ _ _ _ post); [by intros []|done..].
    + left. apply (status_change_keeps_document _ _ _ _ post); [by intros []|done..].
    + destruct (deletePost_rows env key w) as [-> _].
      destruct (decide (key = id)) as [->|Hne].
      * right. by rewrite lookup_delete_eq.
      * left. exists post. by rewrite lookup_delete_ne.
    + left. specialize (Hcreate input).
      destruct (createTextVariations env input w) as [[results|e] w']; cbn [snd].
      * destruct Hcreate as (post' & -> & Hdoc').
        destruct (decide (CreateTextVariationsInput.postId input = id)) as [->|Hne].
        -- exists post'. by rewrite lookup_insert_eq.
        -- exists post. by rewrite lookup_insert_ne.
      * subst w'. by exists post.
    + left. specialize (Haccept postId vid).
      destruct (acceptTextVariation env postId vid w) as [[r|e] w']; cbn [snd].
      * destruct Haccept as (post' & _ & -> & Hdoc').
        destruct (decide (postId = id)) as [->|Hne].
        -- exists post'. by rewrite lookup_insert_eq.
        -- exists post. by rewrite lookup_insert_ne.
      * subst w'. by exists post.
    + left. specialize (Hregenerate input).
      destruct (regenerateImage env input w) as [[r|e] w']; cbn [snd].
      * destruct Hregenerate as (post' & _ & -> & Hdoc').
        destruct (decide (RegenerateImageInput.postId input = id)) as [->|Hne].
        -- exists post'. by rewrite lookup_insert_eq.
        -- exists post. by rewrite lookup_insert_ne.
      * rewrite Hregenerate. by exists post.
  - intros input results w' Hrun. specialize (Hcreate input). rewrite Hrun in Hcreate.
    destruct Hcreate as (post' & -> & Hdoc'). exists post'. by rewrite lookup_insert_eq.
  - intros postId variationId r w' Hrun. specialize (Haccept postId variationId).
    rewrite Hrun in Haccept. destruct Haccept as (post' & -> & -> & Hdoc').
    exists post'. by rewrite lookup_insert_eq.
  - intros input r w' Hrun. specialize (Hregenerate input). rewrite Hrun in Hregenerate.
    destruct Hregenerate as (post' & -> & -> & Hdoc'). exists post'.
    by rewrite lookup_insert_eq.
Qed.

(** * Text cards *)

(** ** [escapeXml] *)

Lemma replaceAll_app c replacement (s t : JsString) :
  replaceAll c replacement (s ++ t)
  = replaceAll c replacement s ++ replaceAll c replacement t.
Proof. apply flat_map_app. Qed.

Lemma escapeXml_app (s t : JsString) : escapeXml (s ++ t) = escapeXml s ++ escapeXml t.
Proof. unfold escapeXml. by rewrite !replaceAll_app. Qed.

Lemma escapeXml_unit (c : N) : escapeXml [c] = default [c] (entity c).
Proof.
  unfold entity.
  destruct (N.eqb_spec c 38) as [->|H38]; [done|].
  destruct (N.eqb_spec c 60) as [->|H60]; [done|].
  destruct (N.eqb_spec c 62) as [->|H62]; [done|].
  destruct (N.eqb_spec c 34) as [->|H34]; [done|].
  destruct (N.eqb_spec c 39) as [->|H39]; [done|].
  unfold escapeXml, replaceAll. cbn.
  apply N.eqb_neq in H38, H60, H62, H34, H39.
  rewrite H38. cbn. rewrite H60. cbn. rewrite H62. cbn. rewrite H34. cbn. by rewrite H39.
Qed.

Lemma escapeXml_cons (c : N) (text : JsString) :
  escapeXml (c :: text) = default [c] (entity c) ++ escapeXml text.
Proof. by rewrite <- escapeXml_unit, <- escapeXml_app. Qed.

Lemma entity_Some (c : N) (e : JsString) :
  entity c = Some e →
  c ∈ [38; 60; 62; 34; 39]%N ∧
  ∃ rest, e = 38%N :: rest ∧ Forall (λ x, x ∉ [38; 60; 62; 34; 39]%N) rest.
Proof.
  unfold entity.
  destruct (N.eqb_spec c 38) as [->|?]; [|destruct (N.eqb_spec c 60) as [->|?];
    [|destruct (N.eqb_spec c 62) as [->|?]; [|destruct (N.eqb_spec c 34) as [->|?];
      [|destruct (N.eqb_spec c 39) as [->|?]; [|done]]]]].
  all: intros [= <-]; split; [apply (bool_decide_unpack _); vm_compute; exact I|].
  all: eexists; split; [vm_compute; reflexivity|].
  all: apply (bool_decide_unpack _); vm_compute; exact I.
Qed.

Lemma entity_None (c : N) : entity c = None → c ∉ [38; 60; 62; 34; 39]%N.
Proof.
  unfold entity.
  destruct (N.eqb_spec c 38); [done|]. destruct (N.eqb_spec c 60); [done|].
  destruct (N.eqb_spec c 62); [done|]. destruct (N.eqb_spec c 34); [done|].
  destruct (N.eqb_spec c 39); [done|].
  intros _. rewrite !not_elem_of_cons. repeat split; try done. apply not_elem_of_nil.
Qed.

Lemma entity_prefix_free (c d : N) (e1 e2 s1 s2 : JsString) :
  entity c = Some e1 → entity d = Some e2 → e1 ++ s1 = e2 ++ s2 → c = d.
Proof.
  unfold entity.
  destruct (N.eqb_spec c 38) as [->|?]; [|destruct (N.eqb_spec c 60) as [->|?];
    [|destruct (N.eqb_spec c 62) as [->|?]; [|destruct (N.eqb_spec c 34) as [->|?];
      [|destruct (N.eqb_spec c 39) as [->|?]; [|done]]]]].
  all: intros [= <-].
  all: destruct (N.eqb_spec d 38) as [->|?]; [|destruct (N.eqb_spec d 60) as [->|?];
    [|destruct (N.eqb_spec d 62) as [->|?]; [|destruct (N.eqb_spec d 34) as [->|?];
      [|destruct (N.eqb_spec d 39) as [->|?]; [|done]]]]].
  all: intros [= <-]; try done.
  all: vm_compute; intros H; discriminate H.
Qed.

(** X14.  [escapeXml] writes every [&], [<], [>], double quote and
    apostrophe of the text as its entity and copies every other code unit:
    the five replacements in a row do what one pass over the text does,
    because [&] goes first and no entity contains a character replaced
    later.  The result has none of [<], [>], the double quote and the
    apostrophe, a text without the five characters comes back unchanged, and
    different texts have different results. *)
Theorem escapeXml_entities (text : JsString) :
  escapeXml text = flat_map (λ c, default [c] (entity c)) text ∧
  Forall (λ c, c ∉ [60; 62; 34; 39]%N) (escapeXml text) ∧
  (Forall (λ c, c ∉ [38; 60; 62; 34; 39]%N) text → escapeXml text = text) ∧
  (∀ other, escapeXml text = escapeXml other → text = other).
Proof.
  split; [|split; [|split]].
  - induction text as [|c text IH]; [done|]. rewrite escapeXml_cons, IH. done.
  - induction text as [|c text IH]; [constructor|]. rewrite escapeXml_cons.
    apply Forall_app. split; [|done].
    destruct (entity c) as [e|] eqn:He; cbn.
    + destruct (entity_Some c e He) as (_ & rest & -> & Hrest). constructor.
      * apply (bool_decide_unpack _). vm_compute. exact I.
      * eapply Forall_impl; [exact Hrest|]. intros x Hx Hin. apply Hx. by right.
    + constructor; [|constructor]. apply entity_None in He. intros Hin. apply He. by right.
  - induction 1 as [|c text Hc _ IH]; [done|]. rewrite escapeXml_cons, IH.
    destruct (entity c) as [e|] eqn:He; [|done].
    by destruct (entity_Some c e He) as (Hin & _).
  - induction text as [|c text IH]; intros [|d other].
    + done.
    + rewrite escapeXml_cons. destruct (entity d) as [e|] eqn:He; [|done].
      by destruct (entity_Some d e He) as (_ & rest & -> & _).
    + rewrite escapeXml_cons. destruct (entity c) as [e|] eqn:He; [|done].
      by destruct (entity_Some c e He) as (_ & rest & -> & _).
    + rewrite !escapeXml_cons.
      destruct (entity c) as [e1|] eqn:Hc; destruct (entity d) as [e2|] eqn:Hd; cbn.
      * intros Heq. pose proof (entity_prefix_free c d _ _ _ _ Hc Hd Heq) as ->.
        rewrite Hc in Hd. injection Hd as ->. apply app_inv_head in Heq.
        by rewrite (IH other Heq).
      * destruct (entity_Some c e1 Hc) as (_ & rest & -> & _). intros [= <- _].
        by apply entity_None in Hd; destruct Hd; left.
      * destruct (entity_Some d e2 Hd) as (_ & rest & -> & _). intros [= -> _].
        by apply entity_None in Hc; destruct Hc; left.
      * intros [= -> Heq]. by rewrite (IH other Heq).
Qed.

(** ** The lines of a card *)

Lemma split_no_sep (sep : N) (s piece : JsString) : piece ∈ split sep s → sep ∉ piece.
Proof.
  revert piece. induction s as [|c s IH]; intros piece; cbn [split].
  - intros ->%list_elem_of_singleton. apply not_elem_of_nil.
  - destruct (N.eqb_spec c sep) as [->|Hne].
    + intros [->|Hin]%elem_of_cons; [apply not_elem_of_nil|by apply IH].
    + destruct (split sep s) as [|p ps] eqn:Hs.
      * intros ->%list_elem_of_singleton. by intros ->%list_elem_of_singleton.
      * intros [->|Hin]%elem_of_cons.
        -- intros [->|Hin]%elem_of_cons; [done|]. apply (IH p); [by left|done].
        -- apply IH. by right.
Qed.

Lemma wrap_word_wrapped (words lines : list JsString) (currentLine word : JsString) :
  word ∈ words →
  Forall (wrapped words) lines → (currentLine = [] ∨ wrapped words currentLine) →
  Forall (wrapped words) (fst (wrap_word (lines, currentLine) word)) ∧
  (snd (wrap_word (lines, currentLine) word) = [] ∨
   wrapped words (snd (wrap_word (lines, currentLine) word))).
Proof.
  intros Hword Hlines Hcur. unfold wrap_word.
  destruct (bool_decide (length (trim _) ≤ maxCharsPerLine)) eqn:Hfits; cbn [fst snd].
  - apply bool_decide_eq_true in Hfits. split; [done|].
    destruct (trim _) as [|c joined] eqn:Hjoined; [by left|]. right. split; [done|by left].
  - split.
    + destruct (bool_decide (currentLine ≠ [])) eqn:Hopen; [|done].
      apply bool_decide_eq_true in Hopen. apply Forall_app. split; [done|].
      constructor; [|constructor]. by destruct Hcur.
    + destruct word as [|c word]; [by left|]. right. split; [done|by right].
Qed.

Lemma foldl_wrap_word_wrapped (words ws lines : list JsString) (currentLine : JsString) :
  ws ⊆ words →
  Forall (wrapped words) lines → (currentLine = [] ∨ wrapped words currentLine) →
  Forall (wrapped words) (fst (foldl wrap_word (lines, currentLine) ws)) ∧
  (snd (foldl wrap_word (lines, currentLine) ws) = [] ∨
   wrapped words (snd (foldl wrap_word (lines, currentLine) ws))).
Proof.
  revert lines currentLine. induction ws as [|word ws IH]; intros lines currentLine Hws;
    [done|].
  intros Hlines Hcur. cbn [foldl].
  destruct (wrap_word_wrapped words lines currentLine word) as [Hlines' Hcur'];
    [apply Hws; by left|done..|].
  destruct (wrap_word (lines, currentLine) word) as [lines' currentLine'].
  apply IH; [|done..]. intros w Hw. apply Hws. by right.
Qed.

(** X15.  Every line of a card has something in it, and it has at most 30
    code units unless it is a single word of the text, which is never
    broken: a line longer than 30 is one of the pieces of
    [text.split(" ")], without a space in it. *)
Theorem wrapLines_lines (text : JsString) :
  Forall (λ line,
            line ≠ [] ∧
            (length line ≤ 30 ∨ (line ∈ split 32 text ∧ 32%N ∉ line)))
    (wrapLines text).
Proof.
  unfold wrapLines. cbn zeta.
  destruct (foldl_wrap_word_wrapped (split 32 text) (split 32 text) [] [])
    as [Hlines Hcur]; [done|constructor|by left|].
  destruct (foldl wrap_word _ _) as [lines currentLine]. cbn [fst snd] in *.
  assert (Hshape : ∀ line, wrapped (split 32 text) line →
            line ≠ [] ∧ (length line ≤ 30 ∨ (line ∈ split 32 text ∧ 32%N ∉ line))).
  { intros line [Hne [Hfits|Hword]]; (split; [done|]); [by left|right].
    split; [done|]. by apply (split_no_sep 32 text). }
  destruct (bool_decide (currentLine ≠ [])) eqn:Hopen.
  - apply bool_decide_eq_true in Hopen. apply Forall_app. split.
    + eapply Forall_impl; [exact Hlines|exact Hshape].
    + constructor; [|constructor]. apply Hshape. by destruct Hcur.
  - eapply Forall_impl; [exact Hlines|exact Hshape].
Qed.

(** ** No word is lost *)

Lemma trim_tight (s : JsString) : tight s → trim s = s.
Proof.
  intros [Hhead Hlast]. unfold trim.
  assert (Hstart : trimStart s = s).
  { destruct s as [|c s]; [done|]. cbn. by rewrite (Hhead c eq_refl). }
  rewrite Hstart. unfold trimEnd.
  destruct (reverse s) as [|d r] eqn:Hr.
  - apply (f_equal reverse) in Hr. by rewrite reverse_involutive in Hr.
  - assert (Hs : s = reverse r ++ [d]).
    { apply (f_equal reverse) in Hr. by rewrite reverse_involutive, reverse_cons in Hr. }
    cbn [trimStart]. rewrite (Hlast d); [by rewrite reverse_cons, <- Hs|].
    rewrite Hs. apply last_snoc.
Qed.

Lemma tight_nil : tight [].
Proof. by split. Qed.

Lemma solid_tight (word : JsString) : solid word → tight word.
Proof.
  intros [Hne Hall]. split; intros c Hc.
  - apply (proj1 (Forall_forall _ _) Hall). destruct word; [done|]. injection Hc as ->. by left.
  - apply (proj1 (Forall_forall _ _) Hall). apply last_Some in Hc as [l' ->].
    apply elem_of_app. right. by left.
Qed.

Lemma tight_join (s word : JsString) :
  tight s → s ≠ [] → solid word → tight (s ++ units " " ++ word).
Proof.
  intros [Hhead _] Hs Hword. pose proof (solid_tight word Hword) as [_ Hlast].
  destruct Hword as [Hne _]. split; intros c.
  - destruct s; [done|]. apply Hhead.
  - rewrite app_assoc. rewrite last_app. destruct (last word) eqn:Hw; [by apply Hlast|].
    apply last_None in Hw. done.
Qed.

Lemma join_words_snoc (ws : list JsString) (word : JsString) :
  ws ≠ [] → join_words (ws ++ [word]) = join_words ws ++ units " " ++ word.
Proof.
  induction ws as [|w ws IH]; [done|]. intros _. destruct ws as [|w' ws]; [done|].
  change (join_words ((w :: w' :: ws) ++ [word]))
    with (w ++ units " " ++ join_words ((w' :: ws) ++ [word])).
  rewrite IH; [|done]. change (join_words (w :: w' :: ws))
    with (w ++ units " " ++ join_words (w' :: ws)).
  by rewrite <- !app_assoc.
Qed.

Lemma join_words_tight (ws : list JsString) :
  Forall solid ws → tight (join_words ws) ∧ (ws ≠ [] → join_words ws ≠ []).
Proof.
  induction ws as [|word ws IH] using rev_ind; [by split; [apply tight_nil|]|].
  intros [Hws [Hword _]%Forall_cons]%Forall_app. destruct (IH Hws) as [Htight Hne].
  destruct ws as [|w ws].
  - cbn. split; [by apply solid_tight|]. intros _. apply Hword.
  - rewrite join_words_snoc by done. split.
    + apply tight_join; [done|by apply Hne|done].
    + intros _ Hnil. apply app_eq_nil in Hnil as [Hnil _]. by apply Hne.
Qed.

Lemma trim_space_tight (s : JsString) : tight s → trim (units " " ++ s) = s.
Proof. intros Hs. rewrite <- (trim_tight s Hs) at 2. done. Qed.

Lemma trim_tight_space (s : JsString) : tight s → trim (s ++ units " ") = s.
Proof.
  intros Hs. destruct s as [|c s]; [done|].
  pose proof (trim_tight _ Hs) as Htrim. destruct Hs as [Hhead _].
  unfold trim in *. cbn [trimStart app] in *. rewrite (Hhead c eq_refl) in *.
  unfold trimEnd in *. change (c :: s ++ units " ") with ((c :: s) ++ [32%N]).
  by rewrite reverse_app.
Qed.

Lemma split_units (sep : N) (s piece : JsString) (c : N) :
  piece ∈ split sep s → c ∈ piece → c ∈ s.
Proof.
  revert piece. induction s as [|d s IH]; intros piece; cbn [split].
  - by intros ->%list_elem_of_singleton.
  - destruct (N.eqb_spec d sep) as [->|Hne].
    + intros [->|Hin]%elem_of_cons; [by intros ?%elem_of_nil|].
      intros Hc. right. by apply (IH piece).
    + destruct (split sep s) as [|p ps] eqn:Hs.
      * intros ->%list_elem_of_singleton. intros ->%list_elem_of_singleton. by left.
      * intros [->|Hin]%elem_of_cons.
        -- intros [->|Hc]%elem_of_cons; [by left|]. right. apply (IH p); [by left|done].
        -- intros Hc. right. apply (IH piece); [by right|done].
Qed.

Lemma split_spaced (text : JsString) :
  spaced text → Forall (λ word, word = [] ∨ solid word) (split 32 text).
Proof.
  intros Htext. apply Forall_forall. intros word Hword.
  destruct word as [|c word]; [by left|]. right. split; [done|].
  apply Forall_forall. intros x Hx.
  destruct (isWhiteSpace x) eqn:Hws; [|done].
  pose proof (split_units 32 text _ x Hword Hx) as Hin.
  rewrite (proj1 (Forall_forall _ _) Htext x Hin Hws) in Hx.
  by destruct (split_no_sep 32 text _ Hword).
Qed.

(** The loop keeps the words: the closed lines and the open one are groups
    of the words seen so far, in order, each group joined by single spaces. *)
Lemma foldl_wrap_word_groups (ws : list JsString) (groups : list (list JsString))
    (open : list JsString) :
  Forall (λ word, word = [] ∨ solid word) ws →
  Forall (λ group, group ≠ [] ∧ Forall solid group) groups → Forall solid open →
  ∃ groups' open',
    foldl wrap_word (join_words <$> groups, join_words open) ws
      = (join_words <$> groups', join_words open') ∧
    Forall (λ group, group ≠ [] ∧ Forall solid group) groups' ∧ Forall solid open' ∧
    concat groups' ++ open' = concat groups ++ open ++ filter (λ word, word ≠ []) ws.
Proof.
  revert groups open. induction ws as [|word ws IH]; intros groups open Hws Hgroups Hopen.
  { exists groups, open. by rewrite filter_nil, app_nil_r. }
  apply Forall_cons in Hws as [Hword Hws]. cbn [foldl].
  destruct (join_words_tight open Hopen) as [Htight Hne].
  assert (Hstep : ∃ groups1 open1,
            wrap_word (join_words <$> groups, join_words open) word
              = (join_words <$> groups1, join_words open1) ∧
            Forall (λ group, group ≠ [] ∧ Forall solid group) groups1 ∧
            Forall solid open1 ∧
            concat groups1 ++ open1
              = concat groups ++ open ++ filter (λ word, word ≠ []) [word]).
  { unfold wrap_word. destruct Hword as [->|Hword].
    - rewrite app_nil_r, (trim_tight_space _ Htight).
      rewrite filter_cons_False by (by intros []). rewrite filter_nil, app_nil_r.
      destruct (bool_decide (length (join_words open) ≤ maxCharsPerLine)).
      + by exists groups, open.
      + destruct (bool_decide (join_words open ≠ [])) eqn:Hcur.
        * apply bool_decide_eq_true in Hcur. exists (groups ++ [open]), [].
          rewrite fmap_app, concat_app. cbn. rewrite !app_nil_r.
          split; [done|]. split; [|done]. apply Forall_app. split; [done|].
          constructor; [|constructor]. split; [|done]. by intros ->.
        * apply bool_decide_eq_false in Hcur. exists groups, [].
          split; [done|]. split; [done|]. split; [constructor|].
          destruct open; [done|]. destruct Hcur. intros Hnil. by apply Hne.
    - rewrite filter_cons_True by apply Hword. rewrite filter_nil.
      destruct open as [|w open].
      + cbn [join_words app]. rewrite (trim_space_tight _ (solid_tight _ Hword)).
        exists groups, [word]. split; [|split; [done|split; [by constructor|done]]].
        destruct (bool_decide (length word ≤ maxCharsPerLine)); [done|].
        by rewrite bool_decide_eq_false_2 by (by intros []).
      + assert (Hcur : join_words (w :: open) ≠ []) by (by apply Hne).
        rewrite <- (join_words_snoc (w :: open) word) by done.
        rewrite trim_tight.
        2: { apply join_words_tight. apply Forall_app. split; [done|]. by constructor. }
        destruct (bool_decide (length _ ≤ maxCharsPerLine)).
        * exists groups, ((w :: open) ++ [word]). split; [done|]. split; [done|].
          split; [|done]. apply Forall_app. split; [done|]. by constructor.
        * rewrite bool_decide_eq_true_2 by done. exists (groups ++ [w :: open]), [word].
          rewrite fmap_app, concat_app. cbn [fmap list_fmap concat]. rewrite !app_nil_r.
          split; [done|]. split; [|split; [by constructor|by rewrite <- app_assoc]].
          apply Forall_app. split; [done|]. constructor; [|constructor]. by split. }
  destruct Hstep as (groups1 & open1 & -> & Hgroups1 & Hopen1 & Hwords).
  destruct (IH groups1 open1 Hws Hgroups1 Hopen1) as (groups' & open' & -> & ? & ? & Hall).
  exists groups', open'. split; [done|]. split; [done|]. split; [done|].
  rewrite Hall, app_assoc, Hwords, <- !app_assoc. f_equal. f_equal.
  by rewrite <- filter_app.
Qed.

(** X16.  When the space is the only white space of the text, wrapping
    loses nothing: the lines are groups of the words of the text, each line
    its words joined by single spaces, and the words of all lines, in order,
    are exactly the words of the text that are not empty. *)
Theorem wrapLines_keeps_words (text : JsString) :
  spaced text →
  ∃ groups : list (list JsString),
    wrapLines text = join_words <$> groups ∧
    Forall (λ group, group ≠ [] ∧ Forall solid group) groups ∧
    concat groups = filter (λ word, word ≠ []) (split 32 text).
Proof.
  intros Htext. unfold wrapLines. cbn zeta.
  destruct (foldl_wrap_word_groups (split 32 text) [] [] (split_spaced text Htext))
    as (groups & open & Hrun & Hgroups & Hopen & Hwords); [constructor..|].
  cbn [fmap list_fmap join_words] in Hrun.
  destruct (foldl wrap_word _ _) as [lines currentLine] eqn:Hfold.
  injection Hrun as -> ->. clear Hfold.
  destruct (join_words_tight open Hopen) as [_ Hne].
  destruct (bool_decide (join_words open ≠ [])) eqn:Hcur.
  - apply bool_decide_eq_true in Hcur. exists (groups ++ [open]).
    rewrite fmap_app, concat_app. cbn. rewrite app_nil_r. split; [done|].
    split; [|done]. apply Forall_app. split; [done|].
    constructor; [|constructor]. split; [|done]. by intros ->.
  - apply bool_decide_eq_false in Hcur. exists groups. split; [done|]. split; [done|].
    destruct open; [by rewrite app_nil_r in Hwords|]. destruct Hcur. intros Hnil.
    by apply Hne.
Qed.

Lemma wrapLines_keeps_words_witness :
  ∃ groups : list (list JsString),
    wrapLines Cases.card_text = join_words <$> groups ∧
    Forall (λ group, group ≠ [] ∧ Forall solid group) groups ∧
    concat groups = filter (λ word, word ≠ []) (split 32 Cases.card_text).
Proof.
  apply wrapLines_keeps_words. unfold spaced.
  apply (bool_decide_unpack _). vm_compute. exact I.
Defined.

(** ** The font size *)

(** X17.  The font size of a card is a whole number from 0 to 64.  It is
    64 for up to twelve lines and shrinks from the thirteenth line on, so
    that the number of lines times the font size never exceeds 800 (at 1.4
    font sizes a line, the block of text is at most 1120 of the 1350 units
    of the card); with more than 800 lines it is 0. *)
Theorem fontSize_bounds (lines : list JsString) :
  (0 ≤ fontSize lines ≤ 64)%Z ∧
  (fontSize lines = 64%Z ↔ length lines ≤ 12) ∧
  (fontSize lines = 0%Z ↔ 800 < length lines) ∧
  (Z.of_nat (length lines) * fontSize lines ≤ 800)%Z ∧
  (13 ≤ length lines → fontSize lines = (800 / Z.of_nat (length lines))%Z).
Proof.
  unfold fontSize. set (n := Z.of_nat (length lines)).
  assert (Hn : (0 ≤ n)%Z) by lia.
  assert (Hlen : length lines = Z.to_nat n) by lia. rewrite Hlen. clearbody n. clear Hlen.
  set (m := Z.max n 3). assert (Hm : (3 ≤ m ∧ n ≤ m ∧ (m = n ∨ m = 3))%Z) by lia.
  clearbody m.
  pose proof (Z.mul_div_le 800 m ltac:(lia)) as Hle.
  pose proof (Z.mul_succ_div_gt 800 m ltac:(lia)) as Hgt.
  assert (Hq : (0 ≤ 800 / m)%Z) by (apply Z.div_pos; lia).
  remember (800 / m)%Z as q eqn:Hdef.
  split; [lia|]. split; [|split; [|split]].
  - split; intros H; [|nia]. assert (64 ≤ q)%Z by lia. nia.
  - split; intros H; [|nia]. assert (q = 0)%Z by lia. nia.
  - nia.
  - intros H. assert (m = n) as -> by lia. rewrite <- Hdef. nia.
Qed.

(** * The three [parseHistory] *)

Lemma array_parse_typed {A} (entries : list A) :
  array_parse (Some <$> entries) = Some entries.
Proof. induction entries as [|entry entries IH]; [done|]. cbn. by rewrite IH. Qed.

Lemma array_parse_Some {A} (entries : list (option A)) (parsed : list A) :
  array_parse entries = Some parsed → entries = Some <$> parsed.
Proof.
  revert parsed. induction entries as [|[entry|] entries IH]; intros parsed; cbn.
  - by intros [= <-].
  - destruct (array_parse entries) as [rest|]; [|done].
    intros [= <-]. by rewrite (IH rest eq_refl).
  - done.
Qed.

Lemma array_parse_None {A} (entries : list (option A)) :
  None ∈ entries → array_parse entries = None.
Proof.
  intros Hin. destruct (array_parse entries) as [parsed|] eqn:Hparse; [|done].
  apply array_parse_Some in Hparse. rewrite Hparse in Hin.
  by apply list_elem_of_fmap in Hin as (entry & ? & _).
Qed.

(** X18.  The validated [parseHistory] of [schema.ts] and the unvalidated
    ones of [posts.ts] and of the server functions read the same history
    from a column that is [NULL], empty or not JSON, and from a document
    with both arrays whose entries all pass their schemas, and so from every
    row of a reachable world.  They differ on a document that lacks an
    array: the validated one reads the empty history, the others hand on the
    value as it is.  The validated one also reads the empty history from a
    document in which some entry of an array fails its schema: the only
    documents it reads as they are have both arrays and well-typed entries
    throughout.  (What [posts.ts] does with an ill-typed entry is outside
    its model, which has well-typed entries only.) *)
Theorem parseHistory_validated (val : option (JsonText HistoryValue)) :
  (∀ h, val = Some (JsonOf (history_value h)) →
     schema_parseHistory (raw_text val) = h ∧ route_parseHistory val = history_value h ∧
     parseHistory val = ParsedObject (history_value h)) ∧
  (val = None ∨ (∃ text, val = Some (NotJson text)) →
     schema_parseHistory (raw_text val) = mkHistory [] [] ∧
     route_parseHistory val = history_value (mkHistory [] []) ∧
     parseHistory val = EmptyHistoryObject) ∧
  (∀ v, val = Some (JsonOf v) → (∀ h, v ≠ history_value h) →
     schema_parseHistory (raw_text val) = mkHistory [] [] ∧ route_parseHistory val = v ∧
     parseHistory val = ParsedObject v ∧
     route_parseHistory val ≠ history_value (schema_parseHistory (raw_text val))) ∧
  (∀ tvs ivs, None ∈ tvs ∨ None ∈ ivs →
     schema_parseHistory (Some (JsonOf (RawObject (Some tvs) (Some ivs)))) = mkHistory [] []) ∧
  (∀ document h,
     variationHistorySchema_parse document = Some h → document = raw (history_value h)) ∧
  (∀ w key post, reachable w → posts w !! key = Some post → val = Post.history post →
     route_parseHistory val = history_value (schema_parseHistory (raw_text val))).
Proof.
  assert (Htyped : ∀ h, schema_parseHistory (raw_text (Some (JsonOf (history_value h)))) = h).
  { intros [tvs ivs]. unfold schema_parseHistory. cbn.
    by rewrite !array_parse_typed. }
  split; [|split; [|split; [|split; [|split]]]].
  - intros h ->. by rewrite Htyped.
  - intros [->|[text ->]]; [done|].
    unfold schema_parseHistory, route_parseHistory, parseHistory.
    cbn. by destruct (truthy_string text).
  - intros v -> Hv. unfold schema_parseHistory, route_parseHistory, parseHistory. cbn.
    destruct v as [|[tvs|] [ivs|]]; cbn; try done.
    by destruct (Hv (mkHistory tvs ivs)).
  - intros tvs ivs Hin. unfold schema_parseHistory. cbn.
    destruct Hin as [Hin|Hin]; rewrite (array_parse_None _ Hin); [done|].
    by destruct (array_parse tvs).
  - intros [|[tvs|] [ivs|]] h; cbn; try done.
    destruct (array_parse tvs) as [tvs'|] eqn:Htvs; [|done].
    destruct (array_parse ivs) as [ivs'|] eqn:Hivs; [|done].
    intros [= <-]. cbn.
    by rewrite (array_parse_Some _ _ Htvs), (array_parse_Some _ _ Hivs).
  - intros w key post Hw Hpost ->.
    destruct (reachable_service_rows w Hw key post Hpost) as (_ & _ & [->|[h Hdoc]]);
      [done|].
    rewrite Hdoc. by rewrite Htyped.
Qed.

(** * [listPosts] *)

Lemma listPosts_query_answer (options : option ListPostsOptions.t) (w : World) :
  ∃ rows,
    listPosts options w = (Returned rows, w) ∧
    query_answer w (options ≫= ListPostsOptions.status)
      (default 50%Z (options ≫= ListPostsOptions.limit)) rows.
Proof.
  eexists. split; [done|]. eexists. split; [apply (merge_sort_Permutation newest_first)|].
  split; [|done].
  assert (Htrans : Transitive newest_first) by (intros p q r; unfold newest_first; lia).
  assert (Htotal : Total newest_first) by (intros p q; unfold newest_first; lia).
  apply (StronglySorted_merge_sort newest_first).
Qed.

Lemma scan_rows (w : World) (post : Post.t) :
  post ∈ scan w ↔ ∃ key, posts w !! key = Some post.
Proof.
  unfold scan. rewrite list_elem_of_fmap. split.
  - intros ([key post'] & -> & Hin). exists key. by apply elem_of_map_to_list in Hin.
  - intros [key Hkey]. exists (key, post). split; [done|]. by apply elem_of_map_to_list.
Qed.

Lemma query_answer_rows (w : World) (status : option PostStatus) (limit : Z)
    (rows : list Post.t) :
  query_answer w status limit rows →
  (∀ row, row ∈ rows → (∃ key, posts w !! key = Some row) ∧ matches status row = true) ∧
  (∀ i j p q, rows !! i = Some p → rows !! j = Some q → i < j →
              (Post.createdAt q ≤ Post.createdAt p)%Z) ∧
  ((0 ≤ limit)%Z → length rows ≤ Z.to_nat limit) ∧
  (∀ key post,
     posts w !! key = Some post → matches status post = true → post ∉ rows →
     (0 ≤ limit)%Z ∧ length rows = Z.to_nat limit ∧
     ∀ row, row ∈ rows → (Post.createdAt post ≤ Post.createdAt row)%Z).
Proof.
  intros (ordered & Hperm & Hsorted & ->).
  assert (Hin : ∀ row, row ∈ ordered ↔
                       (∃ key, posts w !! key = Some row) ∧ matches status row = true).
  { intros row. rewrite Hperm, list_elem_of_filter, scan_rows. tauto. }
  assert (Hsub : ∀ row, row ∈ apply_limit limit ordered → row ∈ ordered).
  { intros row. unfold apply_limit. destruct (limit <? 0)%Z; [done|].
    apply (subseteq_take (Z.to_nat limit) ordered). }
  assert (Hparts : ∃ rest, ordered = apply_limit limit ordered ++ rest ∧
                           (rest ≠ [] → (0 ≤ limit)%Z ∧
                              length (apply_limit limit ordered) = Z.to_nat limit)).
  { unfold apply_limit. destruct (Z.ltb_spec limit 0).
    - exists []. by rewrite app_nil_r.
    - exists (drop (Z.to_nat limit) ordered). rewrite take_drop. split; [done|].
      intros Hrest. split; [done|]. rewrite length_take. apply Nat.min_l.
      destruct (decide (Z.to_nat limit ≤ length ordered)); [done|].
      destruct Hrest. apply drop_ge. lia. }
  destruct Hparts as (rest & Hparts & Hrest).
  split; [|split; [|split]].
  - intros row Hrow. by apply Hin, Hsub.
  - intros i j p q Hp Hq Hij. rewrite Hparts in Hsorted.
    apply StronglySorted_app_1_l in Hsorted.
    destruct (take_drop_middle _ _ _ Hp) as [].
    rewrite <- (take_drop_middle _ i p Hp) in Hsorted, Hq.
    apply StronglySorted_app_1_r, StronglySorted_cons in Hsorted as [Hall _].
    rewrite lookup_app_r in Hq by (rewrite length_take; lia).
    rewrite length_take, Nat.min_l in Hq by (apply lookup_lt_Some in Hp; lia).
    destruct (j - i) as [|k] eqn:Hk; [lia|]. cbn in Hq.
    apply (proj1 (Forall_forall _ _) Hall q). by eapply list_elem_of_lookup_2.
  - intros Hlimit. unfold apply_limit. destruct (Z.ltb_spec limit 0); [lia|].
    rewrite length_take. lia.
  - intros key post Hkey Hmatch Hout.
    assert (Hpost : post ∈ ordered) by (apply Hin; eauto).
    rewrite Hparts in Hpost. apply elem_of_app in Hpost as [Hpost|Hpost]; [done|].
    destruct Hrest as [Hlimit Hlen]; [by intros ->; apply elem_of_nil in Hpost|].
    split; [done|]. split; [done|]. intros row Hrow. rewrite Hparts in Hsorted.
    apply (StronglySorted_app_1_elem_of _ _ _ _ _ Hsorted Hrow Hpost).
Qed.

(** X19.  [listPosts] returns rows of the table that have the status asked
    for (any status when none is asked for), newest first by [createdAt],
    and at most [limit] of them, 50 when no limit is given.  It leaves out a
    row with that status only when the limit is reached, and then every row
    it returns is at least as new as the one left out. *)
Theorem listPosts_rows (options : option ListPostsOptions.t) (w : World) :
  ∃ rows,
    listPosts options w = (Returned rows, w) ∧
    (∀ row, row ∈ rows →
       (∃ key, posts w !! key = Some row) ∧
       ∀ status, options ≫= ListPostsOptions.status = Some status →
                 Post.status row = status) ∧
    (∀ i j p q, rows !! i = Some p → rows !! j = Some q → i < j →
                (Post.createdAt q ≤ Post.createdAt p)%Z) ∧
    (options ≫= ListPostsOptions.limit = None → length rows ≤ 50) ∧
    (∀ limit, options ≫= ListPostsOptions.limit = Some limit → (0 ≤ limit)%Z →
              length rows ≤ Z.to_nat limit) ∧
    (∀ key post,
       posts w !! key = Some post →
       (∀ status, options ≫= ListPostsOptions.status = Some status →
                  Post.status post = status) →
       post ∉ rows →
       length rows = Z.to_nat (default 50%Z (options ≫= ListPostsOptions.limit)) ∧
       ∀ row, row ∈ rows → (Post.createdAt post ≤ Post.createdAt row)%Z).
Proof.
  destruct (listPosts_query_answer options w) as (rows & Hrun & Hanswer).
  destruct (query_answer_rows _ _ _ _ Hanswer) as (Hrows & Hsorted & Hlimit & Hout).
  exists rows. split; [done|].
  assert (Hmatch : ∀ post,
            matches (options ≫= ListPostsOptions.status) post = true ↔
            ∀ status, options ≫= ListPostsOptions.status = Some status →
                      Post.status post = status).
  { intros post. unfold matches. destruct (options ≫= ListPostsOptions.status) as [s|].
    - rewrite bool_decide_eq_true. split; [by intros -> ? [= <-]|].
      intros Hs. by apply Hs.
    - done. }
  split; [|split; [done|split; [|split]]].
  - intros row Hrow. destruct (Hrows row Hrow) as [Hkey Hstatus]. split; [done|].
    by apply (proj1 (Hmatch row)).
  - intros Hnone. rewrite Hnone in Hlimit. cbn in Hlimit. apply (Hlimit ltac:(lia)).
  - intros limit Hsome. rewrite Hsome in Hlimit. apply Hlimit.
  - intros key post Hkey Hstatus Hmissing.
    destruct (Hout key post Hkey (proj2 (Hmatch post) Hstatus) Hmissing) as (_ & Hlen & Hnew).
    done.
Qed.

Lemma parsePost_hashtagsOf (post : Post.t) :
  parsePost post = match hashtagsOf post with
                   | Some _ => Returned (client_view post)
                   | None => Thrown SyntaxError
                   end.
Proof.
  unfold parsePost, parseHashtags, client_view, hashtagsOf.
  destruct (Post.hashtags post) as [[raw|tags]|]; cbn; try done.
  by destruct (truthy_string raw).
Qed.

Lemma map_parsePost_all_or_nothing (rows : list Post.t) :
  map_parsePost rows
  = if bool_decide (Forall (λ row, hashtagsOf row ≠ None) rows)
    then Returned (client_view <$> rows) else Thrown SyntaxError.
Proof.
  induction rows as [|row rows IH]; [done|]. cbn [map_parsePost].
  rewrite parsePost_hashtagsOf, IH.
  destruct (hashtagsOf row) as [tags|] eqn:Htags.
  - destruct (bool_decide (Forall _ rows)) eqn:Hrows.
    + apply bool_decide_eq_true in Hrows. rewrite bool_decide_eq_true_2; [done|].
      constructor; [by rewrite Htags|done].
    + apply bool_decide_eq_false in Hrows. rewrite bool_decide_eq_false_2; [done|].
      by intros [_ ?]%Forall_cons.
  - rewrite bool_decide_eq_false_2; [done|]. intros [Hrow _]%Forall_cons. by apply Hrow.
Qed.

(** X20.  The two list handlers are all or nothing.  A single listed row
    whose hashtags are not JSON makes the whole request fail with a
    [SyntaxError], and no post is sent; when every listed row parses, the
    handler sends the rows [listPosts] returned, in its order, each with its
    hashtags and history parsed.  In a reachable world every row parses. *)
Theorem listPostsFn_all_or_nothing (w : World) (options : option ListPostsOptions.t)
    (handler : Async (list ParsedPost.t)) :
  (options = None ∧ handler = listPostsFn) ∨
  (∃ status limit, options = Some (ListPostsOptions.mk (Some status) limit) ∧
                   handler = listPostsByStatusFn status limit) →
  ∃ rows,
    listPosts options w = (Returned rows, w) ∧
    ((∃ row, row ∈ rows ∧ hashtagsOf row = None) → handler w = (Thrown SyntaxError, w)) ∧
    ((∀ row, row ∈ rows → hashtagsOf row ≠ None) →
     handler w = (Returned (client_view <$> rows), w)) ∧
    (reachable w → handler w = (Returned (client_view <$> rows), w)).
Proof.
  intros Hhandler.
  destruct (listPosts_query_answer options w) as (rows & Hrun & Hanswer).
  destruct (query_answer_rows _ _ _ _ Hanswer) as (Hrows & _).
  exists rows. split; [done|].
  assert (Hrun' : handler w = (map_parsePost rows, w)).
  { destruct Hhandler as [[-> ->]|(status & limit & -> & ->)];
      unfold listPostsFn, listPostsByStatusFn, bind; by rewrite Hrun. }
  rewrite Hrun', map_parsePost_all_or_nothing.
  assert (Hall : (∀ row, row ∈ rows → hashtagsOf row ≠ None) →
                 bool_decide (Forall (λ row, hashtagsOf row ≠ None) rows) = true).
  { intros H. apply bool_decide_eq_true. by apply Forall_forall. }
  split; [|split].
  - intros (row & Hrow & Hbad). rewrite bool_decide_eq_false_2; [done|].
    intros Hgood. by apply (proj1 (Forall_forall _ _) Hgood row Hrow).
  - intros H. by rewrite (Hall H).
  - intros Hw. rewrite Hall; [done|]. intros row Hrow.
    destruct (Hrows row Hrow) as [[key Hkey] _].
    destruct (reachable_service_rows w Hw key row Hkey) as (_ & [tags Htags] & _).
    unfold hashtagsOf. by rewrite Htags.
Qed.


Lemma listPostsFn_all_or_nothing_witness :
  ∃ rows,
    listPosts None after_shorter = (Returned rows, after_shorter) ∧
    listPostsFn after_shorter = (Returned (client_view <$> rows), after_shorter).
Proof.
  destruct (listPostsFn_all_or_nothing after_shorter None listPostsFn
              (or_introl (conj eq_refl eq_refl)))
    as (rows & Hrun & _ & _ & Hreach).
  exists rows. split; [exact Hrun|exact (Hreach reachable_after_shorter)].
Defined.

(** * The content generator *)

Lemma generatePosts_length (llm : Llm.t) (options : GeneratePostsOptions.t)
    (posts : list GeneratedPost.t) :
  generatePosts llm options = Returned posts →
  Z.of_nat (length posts)
  = default (Llm.postCountPerDay llm) (GeneratePostsOptions.count options).
Proof.
  unfold generatePosts. cbn zeta.
  destruct (Llm.generateObject llm _ _ _) as [answer|]; [|done].
  destruct (bool_decide _) eqn:Hcount; [|done].
  intros [= <-]. by apply bool_decide_eq_true in Hcount.
Qed.


Lemma for_of_generateOne_length env batchId now createdBy
    (cs : list GeneratedPost.t) (k : nat) (w w' : World) (ps : list Post.t) :
  for_of (generateOne env batchId now createdBy) k cs w = (Returned ps, w') →
  length ps = length cs.
Proof.
  revert k w ps. induction cs as [|c cs IH]; intros k w ps.
  { by intros [= <- _]. }
  cbn [for_of]. unfold bind at 1. unfold generateOne at 1. unfold bind at 1.
  rewrite candidateImage_eq. unfold db_insert. cbn [Post.id newPost].
  destruct (posts w !! nanoid env (S k)); [done|].
  unfold bind at 1.
  match goal with
  | |- context [for_of ?body ?i cs ?w1] =>
      specialize (IH i w1); destruct (for_of body i cs w1) as [[ps'|e] w2]
  end; [|done].
  intros [= <- <-]. cbn. f_equal. by apply IH.
Qed.

(** X22.  With [generatePosts] as its content generator, a batch that
    returns has exactly as many posts as were asked for: [count] when the
    caller gives one, [postCountPerDay] otherwise.  The research setting it
    passes is the negation of the custom prompt. *)
Theorem generatePostsBatch_count
    (env : Env) (llm : Llm.t) (options : option GeneratePostsBatchOptions.t)
    (w w' : World) (result : GenerateBatchResult.t) :
  generatePostsWithAI env = generatePosts llm →
  generatePostsBatch env options w = (Returned result, w') →
  Z.of_nat (length (GenerateBatchResult.posts result))
    = default (Llm.postCountPerDay llm) (options ≫= GeneratePostsBatchOptions.count) ∧
  GenerateBatchResult.batchId result = nanoid env 0 ∧
  ∃ posts,
    generatePosts llm
      (GeneratePostsOptions.mk
         (negb (truthy_opt_string (options ≫= GeneratePostsBatchOptions.customPrompt)))
         (options ≫= GeneratePostsBatchOptions.customPrompt)
         (options ≫= GeneratePostsBatchOptions.count)) = Returned posts ∧
    length posts = length (GenerateBatchResult.posts result).
Proof.
  intros Hgenerator. unfold generatePostsBatch. cbn zeta. unfold bind at 1, await.
  rewrite Hgenerator.
  destruct (generatePosts llm _) as [cs|e] eqn:Hcs; [|done].
  unfold bind. destruct (for_of _ 0 cs w) as [[ps|e] w1] eqn:Hloop; [|done].
  intros [= <- <-]. cbn.
  pose proof (for_of_generateOne_length _ _ _ _ _ _ _ _ _ Hloop) as Hlen.
  split; [|split; [done|by exists cs]].
  rewrite Hlen.
  by apply generatePosts_length in Hcs.
Qed.

Lemma generatePostsBatch_count_witness :
  ∃ result w',
    generatePostsBatch Cases.obliging_env two_posts isolate = (Returned result, w') ∧
    length (GenerateBatchResult.posts result) = 2.
Proof.
  assert (Hrun : ∃ result w',
            generatePostsBatch Cases.obliging_env two_posts isolate = (Returned result, w')).
  { eexists _, _. vm_compute. reflexivity. }
  destruct Hrun as (result & w' & Hrun).
  destruct (generatePostsBatch_count Cases.obliging_env Cases.obliging two_posts isolate w'
              result eq_refl Hrun) as (Hcount & _).
  exists result, w'. split; [exact Hrun|]. clear Hrun.
  change (Z.of_nat (length (GenerateBatchResult.posts result)) = 2%Z) in Hcount. lia.
Defined.

(** * What holds of every log *)

Section EveryLog.
Variable P : list TextVariation.t → Prop.
Hypothesis P_nil : P [].

Lemma every_log_view (w : World) (key : string) (post : Post.t) tvs ivs :
  every_log P w → posts w !! key = Some post →
  view w (parseHistory (Post.history post)) = JsonObject tvs ivs →
  P (default [] tvs).
Proof.
  intros [Hshared Hrows] Hpost [[_ ->]|[_ <-]]%view_log; [done|].
  by apply (Hrows key).
Qed.

Lemma every_log_write (w : World) (key : string) (post' : Post.t)
    (shared : VariationHistory) :
  every_log P w → P (textVariations shared) → P (textVariationsOf post') →
  every_log P (mkWorld (<[key := post']> (posts w)) shared).
Proof.
  intros [_ Hrows] Hshared Hpost'. split; [done|].
  intros k p. cbn [posts]. rewrite lookup_insert. case_decide.
  - by intros [= <-].
  - apply Hrows.
Qed.

Lemma every_log_written_through history (w : World) tvs' ivs' :
  every_log P w → (history = EmptyHistoryObject → P tvs') →
  P (textVariations (written_through history (emptyHistory w) tvs' ivs')).
Proof. intros [Hshared _] Htvs'. destruct history; cbn; [by apply Htvs'|done]. Qed.

Lemma every_log_db_update (sets : list Assignment) (id : string) (w : World) :
  (∀ post, Post.history (foldl assign post sets) = Post.history post) →
  every_log P w → every_log P (snd (db_update sets id w)).
Proof.
  intros Hsame [Hshared Hrows]. split; [done|].
  intros key post. cbn. rewrite lookup_alter. case_decide as Hkey.
  - subst key. destruct (posts w !! id) as [old|] eqn:Hold; [|done].
    intros [= <-]. unfold textVariationsOf. rewrite Hsame. by apply (Hrows id).
  - apply Hrows.
Qed.

Lemma every_log_for_of env batchId now createdBy
    (cs : list GeneratedPost.t) (k : nat) (w : World) :
  every_log P w →
  every_log P (snd (for_of (generateOne env batchId now createdBy) k cs w)).
Proof.
  revert k w. induction cs as [|c cs IH]; intros k w Hinv; [done|].
  cbn [for_of]. unfold bind at 1. unfold generateOne at 1. unfold bind at 1.
  rewrite candidateImage_eq. unfold db_insert. cbn [Post.id newPost].
  destruct (posts w !! nanoid env (S k)); [done|].
  unfold bind at 1.
  match goal with
  | |- context [for_of ?body ?i cs ?w1] =>
      specialize (IH i w1); destruct (for_of body i cs w1) as [[ps|e] w2]
  end.
  - cbn in *. apply IH. apply every_log_write; [done|apply Hinv|]. apply P_nil.
  - cbn in *. apply IH. apply every_log_write; [done|apply Hinv|]. apply P_nil.
Qed.

Lemma every_log_handle (env : Env) (request : Request) (w : World) :
  (∀ input variations tvs,
     P tvs → NoDup (text_ids tvs) →
     P (tvs ++ imap (variationRecord env input) variations)) →
  (∀ variationId tvs,
     P tvs → NoDup (text_ids tvs) → P (mark_accepted variationId <$> tvs)) →
  distinct_ids w → every_log P w → every_log P (handle env request w).
Proof.
  intros Happend Hmark Hdistinct Hinv.
  destruct request as [options|id user|id user|id user|id|input|postId vid|input];
    cbn [handle].
  - unfold generatePostsBatch. cbn zeta. unfold bind at 1, await.
    destruct (generatePostsWithAI env _) as [cs|]; [|done].
    unfold bind.
    pose proof (every_log_for_of env (nanoid env 0) (clock env 0)
      (User.id <$> (options ≫= GeneratePostsBatchOptions.createdBy)) cs 0 w Hinv) as H.
    by destruct (for_of _ 0 cs w) as [[ps|e] w'].
  - unfold approvePost, bind, getPost.
    apply (every_log_db_update _ id w); [by intros []|done].
  - unfold rejectPost, bind, getPost.
    apply (every_log_db_update _ id w); [by intros []|done].
  - unfold markPostAsPosted, bind, getPost.
    apply (every_log_db_update _ id w); [by intros []|done].
  - destruct (deletePost_rows env id w) as [Hrows Hshared].
    unfold every_log. rewrite Hrows, Hshared.
    split; [apply Hinv|]. intros key post [_ Hkey]%lookup_delete_Some.
    by apply (proj2 Hinv key).
  - rewrite createTextVariations_eq. cbn zeta.
    destruct (posts w !! _) as [post|] eqn:Hpost; [|done].
    destruct (hashtagsOf post); [|done].
    destruct (generateTextVariationsWithAI env _) as [variations|]; [|done].
    destruct (view w _) as [|[tvs|] ivs] eqn:Hview; try done.
    assert (Hlog : P (tvs ++ imap (variationRecord env input) variations)).
    { apply Happend.
      - apply (every_log_view w _ post (Some tvs) ivs Hinv Hpost Hview).
      - apply (view_log_distinct w _ post (Some tvs) ivs Hdistinct Hpost Hview). }
    cbn [snd]. apply every_log_write; [done| |].
    + by apply every_log_written_through.
    + rewrite (textVariationsOf_history _
        (Some (tvs ++ imap (variationRecord env input) variations)) ivs);
        [exact Hlog|by destruct post].
  - rewrite acceptTextVariation_eq.
    destruct (posts w !! postId) as [post|] eqn:Hpost; [|done].
    cbn zeta. destruct (view w _) as [|[tvs|] ivs] eqn:Hview; try done.
    destruct (List.find _ tvs) as [variation|]; [|done].
    assert (Hlog : P (mark_accepted vid <$> tvs)).
    { apply Hmark.
      - apply (every_log_view w _ post (Some tvs) ivs Hinv Hpost Hview).
      - apply (view_log_distinct w _ post (Some tvs) ivs Hdistinct Hpost Hview). }
    cbn [snd]. apply every_log_write; [done| |].
    + by apply every_log_written_through.
    + rewrite (textVariationsOf_history _ (Some (mark_accepted vid <$> tvs)) ivs);
        [exact Hlog|apply accepted_post_fields].
  - rewrite regenerateImage_eq. cbn zeta.
    destruct (posts w !! _) as [post|] eqn:Hpost; [|done].
    destruct (generateImprovedImagePrompt env _) as [improved|]; [|done].
    destruct (view w _) as [|tvs [ivs|]] eqn:Hview;
      try (destruct (truthy_opt_string _); [done|]; by destruct (imageOutcome env _ _ _)).
    assert (Hshared : ∀ ivs',
      P (textVariations
           (written_through (parseHistory (Post.history post)) (emptyHistory w)
              (textVariations (emptyHistory w)) ivs'))).
    { intros ivs'. apply every_log_written_through; [done|]. intros _. apply Hinv. }
    destruct (imageOutcome env _ _ _) as [uploaded|e]; cbn [snd].
    + apply every_log_write; [done|apply Hshared|].
      erewrite (textVariationsOf_history _ tvs); [|apply regenerated_post_fields].
      apply (every_log_view w _ post tvs (Some ivs) Hinv Hpost Hview).
    + split; [apply Hshared|apply Hinv].
Qed.
End EveryLog.

Lemma one_accepted_app (tvs records : list TextVariation.t) :
  one_accepted tvs → Forall (λ v, TextVariation.accepted v = false) records →
  one_accepted (tvs ++ records).
Proof.
  intros Htvs Hrecords i j v v' Hi Hj Hv Hv'.
  assert (Hold : ∀ k x, (tvs ++ records) !! k = Some x → TextVariation.accepted x = true →
                        tvs !! k = Some x).
  { intros k x Hk Hx. apply lookup_app_Some in Hk as [Hk|[_ Hk]]; [done|].
    apply list_elem_of_lookup_2 in Hk.
    rewrite (proj1 (Forall_forall _ _) Hrecords x Hk) in Hx. done. }
  apply (Htvs i j v v'); auto.
Qed.

Lemma one_accepted_mark (variationId : string) (tvs : list TextVariation.t) :
  NoDup (text_ids tvs) → one_accepted (mark_accepted variationId <$> tvs).
Proof.
  intros Hids i j v v' Hi Hj Hv Hv'.
  apply list_lookup_fmap_Some in Hi as (x & -> & Hi).
  apply list_lookup_fmap_Some in Hj as (y & -> & Hj).
  cbn in Hv, Hv'. apply bool_decide_eq_true in Hv, Hv'.
  apply (NoDup_lookup _ i j variationId Hids); unfold text_ids; rewrite list_lookup_fmap.
  - by rewrite Hi; cbn; rewrite Hv.
  - by rewrite Hj; cbn; rewrite Hv'.
Qed.

Lemma reachable_one_accepted (w : World) : reachable w → every_log one_accepted w.
Proof.
  assert (Hnil : one_accepted []) by (by intros i j v v' Hi).
  induction 1 as [|w env request Hw IH Hnew|w _ IH].
  - split; [done|]. intros key post Hpost. cbn in Hpost. by rewrite lookup_empty in Hpost.
  - apply every_log_handle; [done| | |by apply reachable_distinct_ids|done].
    + intros input variations tvs Htvs _. apply one_accepted_app; [done|].
      apply Forall_forall. intros v [i Hv]%list_elem_of_lookup.
      rewrite list_lookup_imap in Hv. destruct (variations !! i); by simplify_eq/=.
    + intros variationId tvs _ Hids. by apply one_accepted_mark.
  - split; [done|apply IH].
Qed.

Lemma paired_write (table : gmap string Post.t) (key : string) (post' : Post.t) :
  map_Forall (λ _, image_columns_paired) table → image_columns_paired post' →
  map_Forall (λ _, image_columns_paired) (<[key := post']> table).
Proof. intros Hrows Hrow. by apply map_Forall_insert_2. Qed.

Lemma paired_db_update (sets : list Assignment) (id : string) (w : World) :
  (∀ post, image_columns_paired post → image_columns_paired (foldl assign post sets)) →
  map_Forall (λ _, image_columns_paired) (posts w) →
  map_Forall (λ _, image_columns_paired) (posts (snd (db_update sets id w))).
Proof.
  intros Hsets Hrows. unfold db_update. cbn [snd].
  destruct (posts w !! id) as [post|] eqn:Hpost.
  - rewrite (alter_present _ _ _ _ Hpost). cbn [posts]. apply paired_write; [done|].
    apply Hsets. by apply (Hrows id).
  - by rewrite (alter_absent _ _ _ Hpost).
Qed.

Lemma paired_for_of env batchId now createdBy
    (cs : list GeneratedPost.t) (k : nat) (w : World) :
  map_Forall (λ _, image_columns_paired) (posts w) →
  map_Forall (λ _, image_columns_paired)
    (posts (snd (for_of (generateOne env batchId now createdBy) k cs w))).
Proof.
  revert k w. induction cs as [|c cs IH]; intros k w Hinv; [done|].
  cbn [for_of]. unfold bind at 1. unfold generateOne at 1. unfold bind at 1.
  rewrite candidateImage_eq. unfold db_insert. cbn [Post.id newPost].
  destruct (posts w !! nanoid env (S k)); [done|].
  unfold bind at 1.
  match goal with
  | |- context [for_of ?body ?i cs ?w1] =>
      specialize (IH i w1); destruct (for_of body i cs w1) as [[ps|e] w2]
  end.
  all: cbn in *; apply IH; apply paired_write; [done|].
  all: unfold image_columns_paired, imageColumns; cbn.
  all: destruct (imageOutcome env _ _ _); cbn; split; intros [? ?]; by eauto.
Qed.

Lemma paired_handle env request (w : World) :
  map_Forall (λ _, image_columns_paired) (posts w) →
  map_Forall (λ _, image_columns_paired) (posts (handle env request w)).
Proof.
  intros Hinv. destruct request as [options|id user|id user|id user|id|input|postId vid|input];
    cbn [handle].
  - unfold generatePostsBatch. cbn zeta. unfold bind at 1, await.
    destruct (generatePostsWithAI env _) as [cs|]; [|done].
    unfold bind.
    pose proof (paired_for_of env (nanoid env 0) (clock env 0)
      (User.id <$> (options ≫= GeneratePostsBatchOptions.createdBy)) cs 0 w Hinv) as H.
    by destruct (for_of _ 0 cs w) as [[ps|e] w'].
  - unfold approvePost, bind, getPost.
    apply (paired_db_update _ id w); [by intros []|done].
  - unfold rejectPost, bind, getPost.
    apply (paired_db_update _ id w); [by intros []|done].
  - unfold markPostAsPosted, bind, getPost.
    apply (paired_db_update _ id w); [by intros []|done].
  - destruct (deletePost_rows env id w) as [Hrows _]. rewrite Hrows.
    by apply map_Forall_delete.
  - rewrite createTextVariations_eq. cbn zeta.
    destruct (posts w !! _) as [post|] eqn:Hpost; [|done].
    destruct (hashtagsOf post); [|done].
    destruct (generateTextVariationsWithAI env _) as [variations|]; [|done].
    destruct (view w _) as [|[tvs|] ivs]; try done.
    cbn [snd posts]. apply paired_write; [done|].
    specialize (Hinv _ _ Hpost). by destruct post.
  - rewrite acceptTextVariation_eq.
    destruct (posts w !! postId) as [post|] eqn:Hpost; [|done].
    cbn zeta. destruct (view w _) as [|[tvs|] ivs]; try done.
    destruct (List.find _ tvs) as [variation|]; [|done].
    cbn [snd posts]. apply paired_write; [done|].
    specialize (Hinv _ _ Hpost). by destruct post.
  - rewrite regenerateImage_eq. cbn zeta.
    destruct (posts w !! _) as [post|] eqn:Hpost; [|done].
    destruct (generateImprovedImagePrompt env _) as [improved|]; [|done].
    destruct (view w _) as [|tvs [ivs|]];
      try (destruct (truthy_opt_string _); [done|]; by destruct (imageOutcome env _ _ _)).
    destruct (imageOutcome env _ _ _) as [uploaded|e] eqn:Hout; [|done].
    cbn [snd posts]. apply paired_write; [done|].
    destruct post. unfold image_columns_paired. cbn. split; intros _; by eexists.
Qed.

Lemma reachable_paired (w : World) :
  reachable w → map_Forall (λ _, image_columns_paired) (posts w).
Proof.
  induction 1 as [|w env request _ IH Hnew|w _ IH].
  - apply map_Forall_empty.
  - by apply paired_handle.
  - done.
Qed.

(** X23.  What holds of every row of a world that is reachable from a new
    isolate.  The row is filed under its own id; the ids of its text
    variations are pairwise distinct and at most one of them is accepted;
    it has an image URL exactly when it has an image key, and the URL is
    never the empty string. *)
Theorem reachable_rows (w : World) (key : string) (post : Post.t) :
  reachable w → posts w !! key = Some post →
  Post.id post = key ∧
  NoDup (text_ids (textVariationsOf post)) ∧
  one_accepted (textVariationsOf post) ∧
  image_columns_paired post ∧
  Post.imageUrl post ≠ Some "".
Proof.
  intros Hw Hpost.
  split; [apply (reachable_service_rows w Hw key post Hpost)|].
  split; [apply (proj2 (reachable_distinct_ids w Hw) key post Hpost)|].
  split; [apply (proj2 (reachable_one_accepted w Hw) key post Hpost)|].
  split; [apply (reachable_paired w Hw key post Hpost)|].
  apply (reachable_image_urls w Hw key post Hpost).
Qed.

Lemma reachable_rows_witness :
  ∃ post,
    posts after_publish !! "post-1" = Some post ∧
    Post.id post = "post-1" ∧
    NoDup (text_ids (textVariationsOf post)) ∧
    one_accepted (textVariationsOf post) ∧
    image_columns_paired post.
Proof.
  assert (HP : ∃ post, posts after_publish !! "post-1" = Some post).
  { eexists. vm_compute. reflexivity. }
  destruct HP as (post & Hpost).
  assert (Hw : reachable after_publish).
  { apply (reachable_step after_shorter publish_env (MarkPostAsPosted "post-1" (Some alice)));
      [apply reachable_after_shorter|].
    apply (draws_new_ids_tag _ _ _ _ _ ["va-0"; "va-1"; "va-2"]);
      [other_tag|apply after_shorter_ids..]. }
  destruct (reachable_rows after_publish "post-1" post Hw Hpost)
    as (Hid & Hids & Hone & Hpair & _).
  exists post. split; [exact Hpost|]. split; [exact Hid|]. split; [exact Hids|].
  split; [exact Hone|exact Hpair].
Defined.

(** ** Lines as full as they can be *)

Lemma greedy_snoc (groups : list (list JsString)) (group : list JsString) :
  greedy (groups ++ [group]) ↔
  greedy groups ∧
  ∀ before, last groups = Some before →
    ∀ word, head group = Some word →
      maxCharsPerLine < length (join_words before ++ units " " ++ word).
Proof.
  induction groups as [|a groups IH]; [by split; [split|]|].
  destruct groups as [|b groups].
  - cbn. split.
    + intros [Hpair _]. split; [done|]. by intros before [= <-].
    + intros [_ Hpair]. split; [|done]. by apply Hpair.
  - change (greedy ((a :: b :: groups) ++ [group]))
      with ((∀ word, head b = Some word →
               maxCharsPerLine < length (join_words a ++ units " " ++ word)) ∧
            greedy ((b :: groups) ++ [group])).
    change (greedy (a :: b :: groups))
      with ((∀ word, head b = Some word →
               maxCharsPerLine < length (join_words a ++ units " " ++ word)) ∧
            greedy (b :: groups)).
    rewrite IH. change (last (a :: b :: groups)) with (last (b :: groups)). tauto.
Qed.

(** One turn of the loop on a state made of groups of solid words: the word
    goes on the open line, or the open line is closed and the word starts
    the next one. *)
Lemma wrap_word_groups (groups : list (list JsString)) (open : list JsString)
    (word : JsString) :
  Forall solid open → word = [] ∨ solid word →
  let new := filter (λ w, w ≠ []) [word] in
  ∃ groups1 open1,
    wrap_word (join_words <$> groups, join_words open) word
      = (join_words <$> groups1, join_words open1) ∧
    Forall solid open1 ∧
    ((groups1 = groups ∧ open1 = open ++ new ∧
      (length (join_words (open ++ new)) ≤ maxCharsPerLine ∨ open = [])) ∨
     (open ≠ [] ∧ groups1 = groups ++ [open] ∧ open1 = new ∧
      maxCharsPerLine < length (join_words (open ++ new)))).
Proof.
  intros Hopen Hword new. subst new.
  destruct (join_words_tight open Hopen) as [Htight Hne].
  unfold wrap_word. destruct Hword as [->|Hword].
  - rewrite app_nil_r, (trim_tight_space _ Htight).
    rewrite filter_cons_False by (by intros []). rewrite filter_nil, app_nil_r.
    destruct (bool_decide (length (join_words open) ≤ maxCharsPerLine)) eqn:Hfits.
    + apply bool_decide_eq_true in Hfits. exists groups, open.
      split; [done|]. split; [done|]. left. by split; [|split; [|left]].
    + apply bool_decide_eq_false in Hfits.
      assert (Hopen' : open ≠ []) by (intros ->; apply Hfits; cbn; unfold maxCharsPerLine; lia).
      rewrite bool_decide_eq_true_2 by (by apply Hne).
      exists (groups ++ [open]), []. rewrite fmap_app.
      split; [done|]. split; [constructor|]. right. split; [done|]. split; [done|].
      split; [done|lia].
  - rewrite filter_cons_True by apply Hword. rewrite filter_nil.
    destruct open as [|w open].
    + cbn [join_words app]. rewrite (trim_space_tight _ (solid_tight _ Hword)).
      exists groups, [word]. split; [|split; [by constructor|left; by split; [|split; [|right]]]].
      destruct (bool_decide (length word ≤ maxCharsPerLine)); [done|].
      by rewrite bool_decide_eq_false_2 by (by intros []).
    + assert (Hcur : join_words (w :: open) ≠ []) by (by apply Hne).
      rewrite <- (join_words_snoc (w :: open) word) by done.
      rewrite trim_tight.
      2: { apply join_words_tight. apply Forall_app. split; [done|]. by constructor. }
      destruct (bool_decide (length _ ≤ maxCharsPerLine)) eqn:Hfits.
      * apply bool_decide_eq_true in Hfits. exists groups, ((w :: open) ++ [word]).
        split; [done|]. split; [apply Forall_app; split; [done|by constructor]|].
        left. by split; [|split; [|left]].
      * apply bool_decide_eq_false in Hfits. rewrite bool_decide_eq_true_2 by done.
        exists (groups ++ [w :: open]), [word]. rewrite fmap_app.
        split; [done|]. split; [by constructor|]. right. split; [done|]. split; [done|].
        split; [done|]. by apply Nat.nle_gt.
Qed.

(** The state of the loop is greedy: so are the closed lines with the open
    one, and when no line is open the last closed line is too long for any
    word to join it. *)
Lemma foldl_wrap_word_greedy (ws : list JsString) (groups : list (list JsString))
    (open : list JsString) :
  Forall (λ word, word = [] ∨ solid word) ws →
  Forall (λ group, group ≠ [] ∧ Forall solid group) groups → Forall solid open →
  greedy (groups ++ if bool_decide (open = []) then [] else [open]) →
  (open = [] → ∀ before, last groups = Some before →
                 maxCharsPerLine < length (join_words before)) →
  ∃ groups' open',
    foldl wrap_word (join_words <$> groups, join_words open) ws
      = (join_words <$> groups', join_words open') ∧
    Forall (λ group, group ≠ [] ∧ Forall solid group) groups' ∧
    Forall solid open' ∧
    greedy (groups' ++ if bool_decide (open' = []) then [] else [open']).
Proof.
  revert groups open.
  induction ws as [|word ws IH]; intros groups open Hws Hgroups Hopen Hgreedy Hlast.
  { by exists groups, open. }
  apply Forall_cons in Hws as [Hword Hws]. cbn [foldl].
  destruct (wrap_word_groups groups open word Hopen Hword)
    as (groups1 & open1 & -> & Hopen1 & Hstep).
  apply IH; [done| |done| |].
  - destruct Hstep as [(-> & _)|(Hne & -> & _)]; [done|].
    apply Forall_app. split; [done|]. constructor; [by split|constructor].
  - destruct Hstep as [(-> & -> & Hfits)|(Hne & -> & -> & Hlong)].
    + destruct Hword as [->|Hword].
      * rewrite filter_cons_False by (by intros []). by rewrite filter_nil, app_nil_r.
      * rewrite filter_cons_True by apply Hword. rewrite filter_nil.
        rewrite bool_decide_eq_false_2 by (by destruct open).
        destruct open as [|w open].
        -- cbn [app]. rewrite bool_decide_eq_true_2 in Hgreedy by done.
           rewrite app_nil_r in Hgreedy. apply greedy_snoc. split; [done|].
           intros before Hbefore word' [= <-]. specialize (Hlast eq_refl before Hbefore).
           rewrite !length_app. lia.
        -- rewrite bool_decide_eq_false_2 in Hgreedy by done.
           apply greedy_snoc in Hgreedy as [Hclosed Hpair]. apply greedy_snoc.
           split; [done|]. intros before Hbefore word' Hhead. by apply Hpair.
    + rewrite bool_decide_eq_false_2 in Hgreedy by done.
      destruct Hword as [->|Hword].
      * rewrite filter_cons_False by (by intros []). rewrite filter_nil.
        by rewrite bool_decide_eq_true_2, app_nil_r by done.
      * rewrite filter_cons_True by apply Hword. rewrite filter_nil.
        rewrite bool_decide_eq_false_2 by done. apply greedy_snoc. split; [done|].
        intros before Hbefore word' [= <-]. rewrite last_snoc in Hbefore.
        injection Hbefore as <-. revert Hlong.
        rewrite filter_cons_True by apply Hword. rewrite filter_nil.
        by rewrite join_words_snoc by done.
  - destruct Hstep as [(-> & -> & Hfits)|(Hne & -> & -> & Hlong)].
    + intros Hnil. apply app_eq_nil in Hnil as [-> _]. by apply Hlast.
    + intros Hnil before Hbefore. rewrite last_snoc in Hbefore. injection Hbefore as <-.
      revert Hlong. by rewrite Hnil, app_nil_r.
Qed.

(** X24.  Wrapping is greedy.  When the space is the only white space of
    the text, every line but the last is as full as it can be: with the
    first word of the next line added after a space it would be longer than
    30 code units. *)
Theorem wrapLines_greedy (text : JsString) :
  spaced text →
  ∃ groups : list (list JsString),
    wrapLines text = join_words <$> groups ∧
    Forall (λ group, group ≠ [] ∧ Forall solid group) groups ∧
    greedy groups.
Proof.
  intros Htext. unfold wrapLines. cbn zeta.
  destruct (foldl_wrap_word_greedy (split 32 text) [] [] (split_spaced text Htext))
    as (groups & open & Hrun & Hgroups & Hopen & Hgreedy); [constructor|constructor|done|done|].
  cbn [fmap list_fmap join_words] in Hrun.
  destruct (foldl wrap_word _ _) as [lines currentLine] eqn:Hfold.
  injection Hrun as -> ->. clear Hfold.
  destruct (join_words_tight open Hopen) as [_ Hne].
  destruct open as [|w open].
  - rewrite bool_decide_eq_false_2 by (by intros []).
    rewrite bool_decide_eq_true_2, app_nil_r in Hgreedy by done. by exists groups.
  - rewrite bool_decide_eq_true_2 by (by apply Hne).
    rewrite bool_decide_eq_false_2 in Hgreedy by done.
    exists (groups ++ [w :: open]). rewrite fmap_app. split; [done|]. split; [|done].
    apply Forall_app. split; [done|]. constructor; [by split|constructor].
Qed.

Lemma wrapLines_greedy_witness :
  ∃ groups : list (list JsString),
    wrapLines Cases.card_text = join_words <$> groups ∧
    Forall (λ group, group ≠ [] ∧ Forall solid group) groups ∧
    greedy groups.
Proof.
  apply wrapLines_greedy. unfold spaced.
  apply (bool_decide_unpack _). vm_compute. exact I.
Defined.

(** * The dialogs and the validators *)

(** X25.  What the dialogs send passes the lower bounds of the input
    validators.  The feedback [handleGenerate] sends is never empty: it is
    the text typed when there is one, white space included, and
    [Make it <tone>] only when nothing was typed; nothing is sent when the
    text is blank and no tone is chosen.  [handleRegenerate] and
    [handleSubmit] send the text as typed and only when it is not blank.  A
    changed count is always between 1 and 3.  So a request of a dialog is
    refused by its validator only for a text that is too long. *)
Theorem dialogs_pass_lower_bounds :
  (∀ feedback selectedTone request,
     handleGenerate feedback selectedTone = Some request →
     VariationRequest.tone request = selectedTone ∧
     VariationRequest.feedback request ≠ [] ∧
     (feedback ≠ [] → VariationRequest.feedback request = feedback) ∧
     (feedback = [] →
      ∃ tone, selectedTone = Some tone ∧
              VariationRequest.feedback request = units "Make it " ++ tone_text tone) ∧
     (string_min_max 1 500 (VariationRequest.feedback request) = true ↔
      length (VariationRequest.feedback request) ≤ 500)) ∧
  (∀ feedback selectedTone,
     handleGenerate feedback selectedTone = None ↔
     trim feedback = [] ∧ selectedTone = None) ∧
  (∀ feedback sent,
     handleRegenerate feedback = Some sent →
     sent = feedback ∧ trim feedback ≠ [] ∧
     (string_min_max 1 500 sent = true ↔ length sent ≤ 500)) ∧
  (∀ prompt count sent,
     handleSubmit prompt count = Some sent →
     sent = (prompt, count) ∧ trim prompt ≠ [] ∧
     (string_min_max 1 1000 prompt = true ↔ length prompt ≤ 1000)) ∧
  (∀ parsed, number_min_max 1 3 (changedCount parsed) = true).
Proof.
  assert (Hbound : ∀ hi (s : JsString), s ≠ [] →
            string_min_max 1 hi s = true ↔ length s ≤ hi).
  { intros hi s Hs. unfold string_min_max. rewrite bool_decide_eq_true.
    destruct s; [done|]. cbn. lia. }
  assert (Hblank : ∀ s : JsString, trim s ≠ [] → s ≠ []) by (by intros s Hs ->).
  split; [|split; [|split; [|split]]].
  - intros feedback selectedTone request. unfold handleGenerate.
    destruct (bool_decide (trim feedback = [])) eqn:Hblank'; cbn [andb].
    + apply bool_decide_eq_true in Hblank'.
      destruct selectedTone as [tone|]; [|done]. cbn.
      intros [= <-]. cbn. split; [done|].
      destruct (bool_decide (feedback ≠ [])) eqn:Htyped.
      * apply bool_decide_eq_true in Htyped. split; [done|]. split; [done|].
        split; [done|]. by apply Hbound.
      * apply bool_decide_eq_false in Htyped.
        assert (Hmade : units "Make it " ++ tone_text tone ≠ []) by done.
        split; [done|]. split; [by intros ?|]. split; [by exists tone|]. by apply Hbound.
    + apply bool_decide_eq_false in Hblank'. intros [= <-]. cbn. split; [done|].
      rewrite bool_decide_eq_true_2 by (by apply Hblank).
      split; [by apply Hblank|]. split; [done|]. split; [by intros ->|].
      by apply Hbound, Hblank.
  - intros feedback selectedTone. unfold handleGenerate.
    destruct (bool_decide (trim feedback = [])) eqn:Hblank'; cbn [andb].
    + apply bool_decide_eq_true in Hblank'. destruct selectedTone; cbn; [|done].
      split; [done|]. by intros [_ ?].
    + apply bool_decide_eq_false in Hblank'. split; [done|]. by intros [? _].
  - intros feedback sent. unfold handleRegenerate.
    destruct (bool_decide (trim feedback = [])) eqn:Hblank'; [done|].
    apply bool_decide_eq_false in Hblank'. intros [= <-].
    split; [done|]. split; [done|]. by apply Hbound, Hblank.
  - intros prompt count sent. unfold handleSubmit.
    destruct (bool_decide (trim prompt = [])) eqn:Hblank'; [done|].
    apply bool_decide_eq_false in Hblank'. intros [= <-].
    split; [done|]. split; [done|]. by apply Hbound, Hblank.
  - intros parsed. unfold number_min_max, changedCount. apply bool_decide_eq_true. lia.
Qed.
